(** * lumispy.utils.analysis: [plot_span_map]

    A shallow embedding of [plot_span_map] (src/lumispy/utils/analysis.py)
    together with the part of the HyperSpy toolkit it drives: signals with
    an axes manager, NaN-safe sums, span ROIs, plots, widgets and the
    reactive bindings created by [hs.interactive].

    Numbers.  Axis coordinates and samples are numpy float64 values in the
    program.  In the store they are exact rationals ([Q]); a sample is
    either a finite value or [NaN].  The function is embedded twice.
    [plot_span_map] computes with the rationals and takes the toolkit's
    constructors as total; what is said about the objects the call builds
    and about their bindings is proved of it.  [plot_span_map_f64] follows
    the program in the places where that idealisation is visible: the
    arithmetic is that of binary64 numbers with its rounding, the
    conversion of a Python [int] can overflow, and the toolkit checks the
    arguments it is given.  What is said about the numbers is proved of
    the second.  Where the second returns, the first returns the same
    results and builds the same objects (lemma [embeddings_agree]).

    Objects.  Python objects with identity (signals, ROIs) live in a store
    and are passed around as references; a call of the program is a
    computation in a state-and-exception monad over that store. *)

From Stdlib Require Import ZArith QArith Qfield Lqa Lia List Ascii String.
From Stdlib Require PrimFloat SpecFloat FloatOps FloatAxioms.
From stdpp Require Import base list strings pretty.

Set Default Proof Using "Type".
Local Open Scope string_scope.
Local Open Scope list_scope.

(** ** Samples and NaN-safe addition *)

Inductive sample : Type :=
  | NaN
  | Val (q : Q).

(** [numpy.nansum] treats NaN as zero. *)
Definition nan_to_zero (x : sample) : Q :=
  match x with
  | NaN => 0%Q
  | Val q => q
  end.

Definition nan_add (acc : Q) (x : sample) : Q := (acc + nan_to_zero x)%Q.

(** NaN-safe sum of a vector. *)
Definition nansum1 (v : list sample) : Q := fold_left nan_add v 0%Q.

(** ** n-dimensional arrays: a shape and a row-major buffer *)

Record ndarray : Type := NdArray {
  shape : list nat;
  flat : list sample
}.

Definition prod_list (l : list nat) : nat := fold_right Nat.mul 1%nat l.

(** [chunks n k l]: the first [n] consecutive blocks of [k] elements. *)
Fixpoint chunks {A} (n k : nat) (l : list A) : list (list A) :=
  match n with
  | O => []
  | S n' => take k l :: chunks n' k (drop k l)
  end.

(** The rows along the last axis.  A 0-d array has the single row holding
    its scalar. *)
Definition last_dim (a : ndarray) : nat := List.last (shape a) 1%nat.
Definition lead_shape (a : ndarray) : list nat := removelast (shape a).
Definition rows (a : ndarray) : list (list sample) :=
  chunks (prod_list (lead_shape a)) (last_dim a) (flat a).

(** [numpy.nansum(a, axis=-1)]. *)
Definition np_nansum_last (a : ndarray) : ndarray :=
  {| shape := lead_shape a;
     flat := map (fun r => Val (nansum1 r)) (rows a) |}.

(** [a[..., start:stop]], with numpy's clipping of the bounds. *)
Definition np_slice_last (start stop : nat) (a : ndarray) : ndarray :=
  let stop' := Nat.min stop (last_dim a) in
  {| shape := lead_shape a ++ [stop' - start];
     flat := concat (map (fun r => take (stop' - start) (drop start r)) (rows a)) |}.

(** [numpy.nansum(a, axis=(0, ..., k-1))]: the NaN-safe sum over the [k]
    leading axes, leaving the trailing ones. *)
Definition np_nansum_lead (k : nat) (a : ndarray) : ndarray :=
  let rest := drop k (shape a) in
  let p := prod_list rest in
  {| shape := rest;
     flat := map Val
       (fold_left (fun acc r => zip_with nan_add acc r)
          (chunks (prod_list (take k (shape a))) p (flat a))
          (replicate p 0%Q)) |}.

(** ** Signals *)

(** A HyperSpy data axis; [axis] is its coordinate array. *)
Record DataAxis : Type := { axis : list Q }.

(** A signal: its axes manager (navigation and signal axes) and its data,
    navigation axes leading. *)
Record signal : Type := Signal {
  navigation_axes : list DataAxis;
  signal_axes : list DataAxis;
  data : ndarray
}.

Definition signal_dimension (s : signal) : nat := length (signal_axes s).
Definition navigation_dimension (s : signal) : nat := length (navigation_axes s).

(** A span ROI: the interval from [left] to [right] on one axis. *)
Record SpanROI : Type := { left : Q; right : Q }.

(** ** The store, exceptions and the monad *)

(** References to signals and to ROIs in the store. *)
Abbreviation sigref := nat (only parsing).
Abbreviation roiref := nat (only parsing).

(** Events a reactive binding can listen to: a span's [events.changed] and
    a signal's [axes_manager.events.any_axis_changed]. *)
Inductive event : Type :=
  | changed (r : roiref)
  | any_axis_changed (s : sigref).

#[global] Instance event_eq_dec : EqDecision event.
Proof. solve_decision. Defined.

(** The callables handed to [hs.interactive]: a ROI applied to a signal
    along its signal axes, and a signal's bound [nansum] with its [axis]. *)
Inductive recompute : Type :=
  | roi_call (r : roiref) (s : sigref)
  | nansum_call (s : sigref) (ax : option Z).

(** A registered binding: when the event fires, recompute and write into
    the output signal. *)
Record connection : Type := Connection {
  conn_event : event;
  conn_f : recompute;
  conn_out : sigref
}.

Record figure : Type := Figure { fig_signal : sigref; fig_cmap : option string }.
Record widget : Type := Widget { wid_roi : roiref; wid_on : sigref; wid_color : string }.

Record world : Type := World {
  signals : list signal;
  rois : list SpanROI;
  figures : list figure;
  widgets : list widget;
  connections : list connection
}.

Inductive exn : Type :=
  | ValueError (msg : string)
  | IndexError
  | OverflowError
  | RecursionError
  | ReferenceError        (* a reference to no object: unreachable from Python *)
  | Unmodelled.           (* a toolkit call outside the fragment modelled here *)

Inductive outcome (A : Type) : Type :=
  | Return (a : A)
  | Raise (e : exn).
Arguments Return {A} a.
Arguments Raise {A} e.

Definition M (A : Type) : Type := world -> outcome A * world.

Definition ret {A} (a : A) : M A := fun w => (Return a, w).
Definition raise {A} (e : exn) : M A := fun w => (Raise e, w).
Definition bind {A B} (c : M A) (k : A -> M B) : M B :=
  fun w => match c w with
           | (Return a, w') => k a w'
           | (Raise e, w') => (Raise e, w')
           end.
Definition lift {A} (o : outcome A) : M A := fun w => (o, w).

(** The value of a partial operation, or the exception it raises. *)
Definition expect {A} (e : exn) (o : option A) : M A :=
  match o with
  | Some a => ret a
  | None => raise e
  end.

Notation "x <- c ;; k" := (bind c (fun x => k))
  (at level 100, c at next level, right associativity).
Notation "c ;;; k" := (bind c (fun _ => k))
  (at level 100, right associativity).

(** [for x in l: body x]. *)
Fixpoint for_each {A} (l : list A) (body : A -> M unit) : M unit :=
  match l with
  | [] => ret tt
  | x :: l' => body x ;;; for_each l' body
  end.

(** Python sequence indexing, negative indices counting from the end. *)
Definition py_index {A} (l : list A) (i : Z) : M A :=
  let n := Z.of_nat (length l) in
  let j := if (i <? 0)%Z then (i + n)%Z else i in
  if ((0 <=? j)%Z && (j <? n)%Z)%bool then
    match l !! Z.to_nat j with
    | Some x => ret x
    | None => raise IndexError
    end
  else raise IndexError.

(** [range(n)]. *)
Definition range (n : Z) : list Z := map Z.of_nat (seq 0 (Z.to_nat n)).

Definition get_signal (r : sigref) : M signal :=
  fun w => match signals w !! r with
           | Some s => (Return s, w)
           | None => (Raise ReferenceError, w)
           end.

Definition get_roi (r : roiref) : M SpanROI :=
  fun w => match rois w !! r with
           | Some sp => (Return sp, w)
           | None => (Raise ReferenceError, w)
           end.

Definition new_signal (s : signal) : M sigref :=
  fun w => (Return (length (signals w)),
            {| signals := signals w ++ [s]; rois := rois w;
               figures := figures w; widgets := widgets w;
               connections := connections w |}).

Definition put_signal (r : sigref) (s : signal) : M unit :=
  fun w => (Return tt,
            {| signals := <[r := s]> (signals w); rois := rois w;
               figures := figures w; widgets := widgets w;
               connections := connections w |}).

Definition put_roi (r : roiref) (sp : SpanROI) : M unit :=
  fun w => (Return tt,
            {| signals := signals w; rois := <[r := sp]> (rois w);
               figures := figures w; widgets := widgets w;
               connections := connections w |}).

Definition connect (ev : event) (f : recompute) (out : sigref) : M unit :=
  fun w => (Return tt,
            {| signals := signals w; rois := rois w;
               figures := figures w; widgets := widgets w;
               connections := connections w ++ [Connection ev f out] |}).

(** [for x in l: st = body x st], threading the loop's local variables. *)
Fixpoint for_fold {A S} (l : list A) (body : A -> S -> M S) (st : S) : M S :=
  match l with
  | [] => ret st
  | x :: l' => st' <- body x st ;; for_fold l' body st'
  end.

(** ** Strings: [str.capitalize] on ASCII text *)

Definition upper (c : ascii) : ascii :=
  let n := nat_of_ascii c in
  if ((97 <=? n)%nat && (n <=? 122)%nat)%bool then ascii_of_nat (n - 32) else c.

Definition lower (c : ascii) : ascii :=
  let n := nat_of_ascii c in
  if ((65 <=? n)%nat && (n <=? 90)%nat)%bool then ascii_of_nat (n + 32) else c.

Fixpoint lower_all (s : string) : string :=
  match s with
  | EmptyString => EmptyString
  | String c r => String (lower c) (lower_all r)
  end.

Definition capitalize (s : string) : string :=
  match s with
  | EmptyString => EmptyString
  | String c r => String (upper c) (lower_all r)
  end.

(** ** binary64 numbers *)

(** Lines 66 to 76 of the program compute with numpy float64 values.
    [PrimFloat.float] is the binary64 type; its operations round to
    nearest, ties to even, as numpy's do.  A finite binary64 number has an
    exact rational value; an infinity and a NaN have none. *)
Definition SF_value (x : SpecFloat.spec_float) : option Q :=
  match x with
  | SpecFloat.S754_zero _ => Some 0%Q
  | SpecFloat.S754_finite s m e =>
      let n := if s then Zneg m else Zpos m in
      Some (Qred (match e with
                  | Zneg k => n # Pos.pow 2 k
                  | _ => inject_Z (n * 2 ^ e)
                  end))
  | _ => None
  end.

Definition float_value (f : PrimFloat.float) : option Q :=
  SF_value (FloatOps.Prim2SF f).

(** The binary64 number whose value is [q], when there is one: the store
    keeps a coordinate as its exact value.  (The two signed zeros have the
    same value and compare equal; 0 is read as the positive one.) *)
Definition as_float64 (q : Q) : option PrimFloat.float :=
  let q' := Qred q in
  let k := Z.log2 (Zpos (Qden q')) in
  let f := FloatOps.SF2Prim
             (SpecFloat.binary_normalize FloatOps.prec FloatOps.emax (Qnum q') (- k) false) in
  match float_value f with
  | Some v => if Qeq_bool v q then Some f else None
  | None => None
  end.

(** Python's conversion of an [int] operand to a float: the nearest
    binary64 number, ties to even.  An [int] that rounds beyond the
    largest finite number has no float: the conversion raises
    [OverflowError]. *)
Definition float_of_int (z : Z) : option PrimFloat.float :=
  match SpecFloat.binary_normalize FloatOps.prec FloatOps.emax z 0 false with
  | SpecFloat.S754_infinity _ => None
  | SpecFloat.S754_nan => None
  | x => Some (FloatOps.SF2Prim x)
  end.

(** ** What the specification says, in its own words *)

(** A valid input: one spectral (signal) dimension, two spatial
    (navigation) dimensions, and some spectral data. *)
Definition valid_signal (s : signal) : Prop :=
  signal_dimension s = 1%nat /\ navigation_dimension s = 2%nat /\
  forall ax, ax ∈ signal_axes s -> axis ax <> [].

(** The buffer holds exactly the samples its shape announces. *)
Definition well_shaped (a : ndarray) : Prop :=
  length (flat a) = prod_list (shape a).

(** The data has one array axis per axis of the axes manager. *)
Definition consistent (s : signal) : Prop :=
  length (shape (data s)) = (navigation_dimension s + signal_dimension s)%nat /\
  well_shaped (data s).

(** The sample at spatial position [p] (positions counted row-major over
    the leading axes) and spectral channel [e]. *)
Definition sample_at (a : ndarray) (p e : nat) : sample :=
  nth (p * last_dim a + e) (flat a) NaN.

Definition positions (a : ndarray) : nat := prod_list (lead_shape a).


(** NaN-safe sum over the channels [start <= e < stop] of the spectral
    axis, at spatial position [p]. *)
Definition spectral_nansum_at (a : ndarray) (start stop p : nat) : Q :=
  fold_left (fun acc e => nan_add acc (sample_at a p e))
    (seq start (Nat.min stop (last_dim a) - start)) 0%Q.

(** The minimum and the maximum of a coordinate array. *)
Definition Qmin_list (x : Q) (l : list Q) : Q :=
  fold_left (fun m c => if Qle_bool c m then c else m) l x.
Definition Qmax_list (x : Q) (l : list Q) : Q :=
  fold_left (fun m c => if Qle_bool m c then c else m) l x.

(** The initial range the specification gives span [i] out of [nspans],
    from the minimum and the extent ([max - min]) of the coordinates. *)
Definition spec_initial_left (coords : list Q) (nspans i : Z) : Q :=
  match coords with
  | [] => 0%Q
  | c :: l =>
      let lo := Qmin_list c l in
      let extent := (Qmax_list c l - lo)%Q in
      (lo + inject_Z i * extent / inject_Z (2 * nspans))%Q
  end.
Definition spec_initial_right (coords : list Q) (nspans i : Z) : Q :=
  spec_initial_left coords nspans (i + 1).

(** The coordinates never decrease. *)
Fixpoint increasing (l : list Q) : bool :=
  match l with
  | x :: l' =>
      match l' with
      | y :: _ => Qle_bool x y && increasing l'
      | [] => true
      end
  | [] => true
  end.

(** ** Concrete data, to run the definitions on *)

Definition Qltb (a b : Q) : bool := negb (Qle_bool b a).

Fixpoint count_while (p : Q -> bool) (l : list Q) : nat :=
  match l with
  | c :: l' => if p c then S (count_while p l') else O
  | [] => O
  end.

(** Modelled from the spec: a span is the interval [[low, high)] over the
    spectral axis; on an increasing axis it selects the indices whose
    coordinate lies in it. *)
Definition interval_indices (coords : list Q) (sp : SpanROI) : nat * nat :=
  let start := count_while (fun c => Qltb c (left sp)) coords in
  (start, (start + count_while (fun c => Qltb c (right sp)) (drop start coords))%nat).

Definition uniform_axis (l : list Z) : DataAxis := {| axis := map inject_Z l |}.

(** A 2 x 2 map with 4 channels at coordinates 1, 2, 3, 4. *)
Definition demo_sig : signal :=
  {| navigation_axes := [uniform_axis [0; 1]%Z; uniform_axis [0; 1]%Z];
     signal_axes := [uniform_axis [1; 2; 3; 4]%Z];
     data := {| shape := [2; 2; 4]%nat;
                flat := [Val 1; Val 2; NaN; Val 4;
                         Val 10; NaN; Val 30; Val 40;
                         Val 100; Val 200; Val 300; Val 400;
                         NaN; NaN; NaN; NaN] |} |}.

(** The same map on a decreasing spectral axis 3, 2, 1, 0. *)
Definition reversed_sig : signal :=
  {| navigation_axes := navigation_axes demo_sig;
     signal_axes := [uniform_axis [3; 2; 1; 0]%Z];
     data := data demo_sig |}.

(** An image: two signal dimensions, one navigation dimension. *)
Definition image_sig : signal :=
  {| navigation_axes := [uniform_axis [0; 1]%Z];
     signal_axes := [uniform_axis [0; 1]%Z; uniform_axis [1; 2; 3; 4]%Z];
     data := data demo_sig |}.

Definition session (s : signal) : world :=
  {| signals := [s]; rois := []; figures := []; widgets := []; connections := [] |}.

(** A map whose spectral axis has no channel. *)
Definition blank_sig : signal :=
  {| navigation_axes := navigation_axes demo_sig;
     signal_axes := [ {| axis := [] |} ];
     data := {| shape := [2; 2; 0]%nat; flat := [] |} |}.

(** A 2 x 2 map with 9 channels at the coordinates 1, 9/8, ..., 2. *)
Definition fine_axis : DataAxis :=
  {| axis := [1; 9 # 8; 5 # 4; 11 # 8; 3 # 2; 13 # 8; 7 # 4; 15 # 8; 2]%Q |}.

Definition fine_sig : signal :=
  {| navigation_axes := navigation_axes demo_sig;
     signal_axes := [fine_axis];
     data := {| shape := [2; 2; 9]%nat;
                flat := map (fun n => Val (inject_Z (Z.of_nat n))) (seq 1 36) |} |}.

(** A map with the single channel 5. *)
Definition single_sig : signal :=
  {| navigation_axes := navigation_axes demo_sig;
     signal_axes := [uniform_axis [5]%Z];
     data := {| shape := [2; 2; 1]%nat; flat := [Val 1; NaN; Val 3; Val 4] |} |}.

(** A text for the message of the toolkit's [SpanROI], to run the
    definitions on. *)
Definition span_text (l r : Q) : string := "left must be smaller than right".

(** ** The toolkit *)

Section Toolkit.

(** The half-open index interval [(start, stop)] that a span selects on an
    axis with the given coordinates.  The toolkit's conversion from
    coordinates to indices is not part of this repository; every result
    below holds whatever it is. *)
Variable span_indices : list Q -> SpanROI -> nat * nat.

(** Modelled from the spec: the value of the signal type's NaN-safe
    summation [nansum] (the HyperSpy toolkit is not under src/).  Without
    an axis the sum runs over all navigation (spatial) axes and leaves the
    signal axes; with [axis=-1] on a signal with one signal axis it runs
    over that (last) axis and leaves the navigation axes. *)
Definition nansum_value (s : signal) (ax : option Z) : outcome signal :=
  match ax with
  | None =>
      Return {| navigation_axes := [];
                signal_axes := signal_axes s;
                data := np_nansum_lead (navigation_dimension s) (data s) |}
  | Some (-1)%Z =>
      match signal_axes s with
      | [_] => Return {| navigation_axes := navigation_axes s;
                         signal_axes := [];
                         data := np_nansum_last (data s) |}
      | _ => Raise Unmodelled
      end
  | Some _ => Raise Unmodelled
  end.

(** Modelled from the spec: the value of the toolkit's [as_signal2D],
    reinterpreting a signal that has two navigation axes and no signal axis
    as a 2-dimensional image indexed by those two axes; the data is not
    changed. *)
Definition as_signal2D_value (s : signal) (image_axes : list Z) : outcome signal :=
  match image_axes, navigation_axes s, signal_axes s with
  | [0%Z; 1%Z], [ax0; ax1], [] =>
      Return {| navigation_axes := []; signal_axes := [ax0; ax1]; data := data s |}
  | _, _, _ => Raise Unmodelled
  end.

(** Modelled from the spec: the toolkit's ROI call.  A span applied to a
    signal along its signal axis gives the signal restricted to the span's
    spectral sub-range: the coordinates and the samples at the selected
    indices. *)
Definition roi_value (sp : SpanROI) (s : signal) : outcome signal :=
  match signal_axes s with
  | [ax] =>
      let '(start, stop) := span_indices (axis ax) sp in
      Return {| navigation_axes := navigation_axes s;
                signal_axes := [ {| axis := take (stop - start) (drop start (axis ax)) |} ];
                data := np_slice_last start stop (data s) |}
  | _ => Raise Unmodelled
  end.

Definition eval (f : recompute) : M signal :=
  match f with
  | roi_call r s => sp <- get_roi r ;; sv <- get_signal s ;; lift (roi_value sp sv)
  | nansum_call s ax => sv <- get_signal s ;; lift (nansum_value sv ax)
  end.

Definition shape_eqb (a b : list nat) : bool := bool_decide (a = b).

(** Modelled from the spec: the toolkit's [out=] mode, writing a
    recomputed value in place into an existing output signal.  A re-slice
    replaces the output's data and signal axis and notifies the listeners
    of the output's axes; a sum overwrites the output's samples, which
    must have the same shape. *)
Definition store_out (f : recompute) (out : sigref) (v : signal) : M (list event) :=
  o <- get_signal out ;;
  match f with
  | roi_call _ _ =>
      put_signal out {| navigation_axes := navigation_axes o;
                        signal_axes := signal_axes v;
                        data := data v |} ;;;
      ret [any_axis_changed out]
  | nansum_call _ _ =>
      if shape_eqb (shape (data o)) (shape (data v)) then
        put_signal out {| navigation_axes := navigation_axes o;
                          signal_axes := signal_axes o;
                          data := data v |} ;;;
        ret []
      else raise (ValueError "The output shape does not match the shape of out")
  end.

(** The bindings listening to an event, in registration order. *)
Definition listeners (ev : event) (cs : list connection) : list connection :=
  filter (fun c => conn_event c = ev) cs.

(** One binding reacting: recompute, write in place, notify. *)
Definition update (notify : event -> M unit) (c : connection) : M unit :=
  v <- eval (conn_f c) ;;
  evs <- store_out (conn_f c) (conn_out c) v ;;
  for_each evs notify.

(** Modelled from the spec: the toolkit's event dispatch.  An event
    notifies its subscribers synchronously, in registration order, and a
    subscriber's write may in turn notify others.  The nesting depth is
    bounded by [fuel]. *)
Fixpoint trigger (fuel : nat) (ev : event) : M unit :=
  match fuel with
  | O => raise RecursionError
  | S fuel' =>
      fun w => for_each (listeners ev (connections w)) (update (trigger fuel')) w
  end.

(** The interpreter's bound on nested calls. *)
Definition recursion_limit : nat := 1000.

Definition fire (ev : event) : M unit := trigger recursion_limit ev.

(** Modelled from the spec: [hs.interactive(f, event=ev, out=...)], the
    reactive-binding primitive.  It computes [f] once, into [out] when it
    is given and into a new linked signal otherwise, and establishes the
    persistent link: whenever [ev] fires, recompute and write in place. *)
Definition interactive (f : recompute) (ev : event) (out : option sigref) : M sigref :=
  v <- eval f ;;
  o <- match out with
       | Some o => evs <- store_out f o v ;; for_each evs fire ;;; ret o
       | None => new_signal v
       end ;;
  connect ev f o ;;;
  ret o.

(** Modelled from the spec: [s.nansum(axis)] returns a new signal. *)
Definition nansum (s : sigref) (ax : option Z) : M sigref :=
  sv <- get_signal s ;;
  v <- lift (nansum_value sv ax) ;;
  new_signal v.

(** Modelled from the spec: [s.as_signal2D(image_axes)] returns a new
    signal. *)
Definition as_signal2D (s : sigref) (image_axes : list Z) : M sigref :=
  sv <- get_signal s ;;
  v <- lift (as_signal2D_value sv image_axes) ;;
  new_signal v.

(** Modelled from the spec: [hs.roi.SpanROI(left, right)], the
    construction of a span from its two bounds. *)
Definition new_SpanROI (l r : Q) : M roiref :=
  fun w => (Return (length (rois w)),
            {| signals := signals w; rois := rois w ++ [ {| left := l; right := r |} ];
               figures := figures w; widgets := widgets w;
               connections := connections w |}).

(** Modelled from the spec: [s.plot(cmap=...)] opens a window on the
    signal. *)
Definition plot (s : sigref) (cmap : option string) : M unit :=
  fun w => (Return tt,
            {| signals := signals w; rois := rois w;
               figures := figures w ++ [Figure s cmap]; widgets := widgets w;
               connections := connections w |}).

(** Modelled from the spec: [span.add_widget(target, color=...)] overlays
    the span on a displayed signal. *)
Definition add_widget (span : roiref) (target : sigref) (color : string) : M unit :=
  fun w => (Return tt,
            {| signals := signals w; rois := rois w;
               figures := figures w;
               widgets := widgets w ++ [Widget span target color];
               connections := connections w |}).

(** ** The program *)

Definition colors : list string := ["red"; "green"; "blue"].

Definition dimension_message (sig_dims nav_dims : nat) : string :=
  "This method is designed for data with 1 signal and 2 navigation dimensions, not "
  +:+ pretty sig_dims +:+ " and " +:+ pretty nav_dims +:+ " respectively".

(** The local variables of the loop. *)
Definition locals : Type := (list roiref * list sigref * list sigref)%type.

(** The body of [for i in range(nspans)]. *)
Definition span_body (sig : sigref) (ax_sig : list Q) (span_width : Q)
    (all_sum : sigref) (i : Z) (st : locals) : M locals :=
  let '(spans, span_sigs, span_sums) := st in
  origin <- py_index ax_sig 0 ;;
  origin' <- py_index ax_sig 0 ;;
  span <- new_SpanROI (inject_Z i * span_width + origin)
                      (inject_Z (i + 1) * span_width + origin') ;;
  let spans := spans ++ [span] in
  color <- py_index colors i ;;
  widget_color <- py_index colors i ;;
  add_widget span all_sum widget_color ;;;
  span_sig <- interactive (roi_call span sig) (changed span) None ;;
  let span_sigs := span_sigs ++ [span_sig] in
  summed <- nansum span_sig (Some (-1)%Z) ;;
  span_sum <- as_signal2D summed [0%Z; 1%Z] ;;
  let span_sums := span_sums ++ [span_sum] in
  plot span_sum (Some (capitalize color +:+ "s")) ;;;
  interactive (nansum_call span_sig (Some (-1)%Z))
              (any_axis_changed span_sig) (Some span_sum) ;;;
  ret (spans, span_sigs, span_sums).

(** [plot_span_map(sig, nspans)].  The division that gives [span_width]
    is one of numpy floats, which raises nothing on a zero divisor; [Q]'s
    division is total as well, and with [nspans <= 0] the width is never
    used. *)
Definition plot_span_map (sig : sigref) (nspans : Z)
    : M (sigref * list roiref * list sigref * list sigref) :=
  if (nspans >? 3)%Z then
    raise (ValueError "Maximum number of spans allowed is 3")
  else
  s <- get_signal sig ;;
  if (negb (signal_dimension s =? 1)%nat || negb (navigation_dimension s =? 2)%nat)%bool then
    let sig_dims := signal_dimension s in
    let nav_dims := navigation_dimension s in
    raise (ValueError (dimension_message sig_dims nav_dims))
  else
  signal_axis <- py_index (signal_axes s) 0 ;;
  let ax_sig := axis signal_axis in
  last <- py_index ax_sig (-1) ;;
  first <- py_index ax_sig 0 ;;
  let ax_sig_range := (last - first)%Q in
  let span_width := (ax_sig_range / inject_Z (2 * nspans))%Q in
  all_sum <- nansum sig None ;;
  plot all_sum None ;;;
  st <- for_fold (range nspans) (span_body sig ax_sig span_width all_sum) ([], [], []) ;;
  let '(spans, span_sigs, span_sums) := st in
  ret (all_sum, spans, span_sigs, span_sums).

(** ** Editing a span after the call *)

(** A change of a span's range, by a drag of its widget or by assigning
    its attributes. *)
Inductive edit : Type :=
  | set_left (v : Q)
  | set_right (v : Q)
  | set_range (l r : Q).

Definition edited (e : edit) (sp : SpanROI) : SpanROI :=
  match e with
  | set_left v => {| left := v; right := right sp |}
  | set_right v => {| left := left sp; right := v |}
  | set_range l r => {| left := l; right := r |}
  end.

(** Modelled from the spec: a range mutation stores the new range and
    synchronously notifies the subscribers of the span's change event. *)
Definition change_span (r : roiref) (e : edit) : M unit :=
  sp <- get_roi r ;;
  put_roi r (edited e sp) ;;;
  fire (changed r).

(** ** Vocabulary for the statements *)

(** The range given to span [i] when it is created. *)
Definition initial_span (first width : Q) (i : Z) : SpanROI :=
  {| left := inject_Z i * width + first;
     right := inject_Z (i + 1) * width + first |}.

(** The restriction of [s] to the indices a span selects on its
    spectral axis [ax]. *)
Definition sliced (s : signal) (ax : DataAxis) (sp : SpanROI) : signal :=
  let '(start, stop) := span_indices (axis ax) sp in
  {| navigation_axes := navigation_axes s;
     signal_axes := [ {| axis := take (stop - start) (drop start (axis ax)) |} ];
     data := np_slice_last start stop (data s) |}.

(** Every binding listens to an object that exists. *)
Definition fresh_connections (w : world) : Prop :=
  forall c, c ∈ connections w ->
    match conn_event c with
    | changed r => (r < length (rois w))%nat
    | any_axis_changed g => (g < length (signals w))%nat
    end.

(** The span [r], its slice [g] of the input and the image [m] of the
    slice's sums are linked: [g] holds the input restricted to the
    current range of [r], [m] the NaN-safe spectral sums of [g], and the
    two bindings from [r] to [g] and from [g] to [m] are the only
    listeners of their events. *)
Definition linked (w : world) (sig : sigref) (s : signal) (ax : DataAxis)
    (r : roiref) (g m : sigref) : Prop :=
  exists sp mv,
    rois w !! r = Some sp /\
    signals w !! g = Some (sliced s ax sp) /\
    signals w !! m = Some mv /\
    navigation_axes mv = [] /\
    signal_axes mv = navigation_axes s /\
    data mv = np_nansum_last (data (sliced s ax sp)) /\
    listeners (changed r) (connections w) =
      [Connection (changed r) (roi_call r sig) g] /\
    listeners (any_axis_changed g) (connections w) =
      [Connection (any_axis_changed g) (nansum_call g (Some (-1)%Z)) m].

(** The references the loop hands out when it starts in a store with [r0]
    ROIs and [n0] signals: iteration [i] creates span [r0 + i], slice
    [n0 + 3 i] and image [n0 + 3 i + 2]. *)
Definition span_refs (r0 k : nat) : list roiref :=
  map (fun i => r0 + i)%nat (seq 0 k).
Definition slice_refs (n0 k : nat) : list sigref :=
  map (fun i => n0 + 3 * i)%nat (seq 0 k).
Definition sum_refs (n0 k : nat) : list sigref :=
  map (fun i => n0 + 3 * i + 2)%nat (seq 0 k).

Definition color_of (i : nat) : string := nth (i mod 3) colors "".
Definition cmap_of (i : nat) : string := capitalize (color_of i) +:+ "s".

(** The first [k] spans are wired to the input [sig]. *)
Definition wired (w : world) (sig : sigref) (s : signal) (ax : DataAxis)
    (r0 n0 k : nat) : Prop :=
  signals w !! sig = Some s /\ signal_axes s = [ax] /\ (sig < n0)%nat /\
  forall i, (i < k)%nat -> linked w sig s ax (r0 + i) (n0 + 3 * i) (n0 + 3 * i + 2).

(** The state of the store after [j] iterations of the loop that started
    in [w0]. *)
Record loop_inv (w0 : world) (sig : sigref) (s : signal) (ax : DataAxis)
    (first width : Q) (all_sum : sigref) (j : nat) (w : world) : Prop := {
  inv_signals_length : length (signals w) = (length (signals w0) + 3 * j)%nat;
  inv_rois_length : length (rois w) = (length (rois w0) + j)%nat;
  inv_old_signals : forall i, (i < length (signals w0))%nat ->
                              signals w !! i = signals w0 !! i;
  inv_old_rois : forall i, (i < length (rois w0))%nat -> rois w !! i = rois w0 !! i;
  inv_wired : wired w sig s ax (length (rois w0)) (length (signals w0)) j;
  inv_initial : forall i, (i < j)%nat ->
      rois w !! (length (rois w0) + i)%nat = Some (initial_span first width (Z.of_nat i));
  inv_fresh : fresh_connections w;
  inv_figures : figures w = figures w0 ++
      map (fun i => Figure (length (signals w0) + 3 * i + 2) (Some (cmap_of i))) (seq 0 j);
  inv_widgets : widgets w = widgets w0 ++
      map (fun i => Widget (length (rois w0) + i) all_sum (color_of i)) (seq 0 j);
  inv_connections : connections w = connections w0 ++
      flat_map (fun i =>
        [Connection (changed (length (rois w0) + i))
                    (roi_call (length (rois w0) + i) sig) (length (signals w0) + 3 * i);
         Connection (any_axis_changed (length (signals w0) + 3 * i))
                    (nansum_call (length (signals w0) + 3 * i) (Some (-1)%Z))
                    (length (signals w0) + 3 * i + 2)]) (seq 0 j)
}.

(** A sequence of edits, each addressed to a span. *)
Definition apply_edits (es : list (roiref * edit)) : M unit :=
  for_each es (fun x => change_span (fst x) (snd x)).

(** The range of span [r] after the edits [es], when it was [sp] before. *)
Definition replay (es : list (roiref * edit)) (r : roiref) (sp : SpanROI) : SpanROI :=
  fold_left (fun sp x => if decide (fst x = r) then edited (snd x) sp else sp) es sp.

(** The store after one more iteration. *)
Definition after_body (sig : sigref) (s : signal) (ax : DataAxis) (first width : Q)
    (all_sum : sigref) (j : nat) (w : world) : world :=
  let sp := initial_span first width (Z.of_nat j) in
  let gv := sliced s ax sp in
  let r := length (rois w) in
  let g := length (signals w) in
  {| signals := signals w ++
       [gv;
        {| navigation_axes := navigation_axes s; signal_axes := [];
           data := np_nansum_last (data gv) |};
        {| navigation_axes := []; signal_axes := navigation_axes s;
           data := np_nansum_last (data gv) |}];
     rois := rois w ++ [sp];
     figures := figures w ++ [Figure (g + 2) (Some (cmap_of j))];
     widgets := widgets w ++ [Widget r all_sum (color_of j)];
     connections := connections w ++
       [Connection (changed r) (roi_call r sig) g;
        Connection (any_axis_changed g) (nansum_call g (Some (-1)%Z)) (g + 2)] |}.

(** The navigator: the NaN-safe sum of [s] over its navigation axes. *)
Definition navigator (s : signal) : signal :=
  {| navigation_axes := [];
     signal_axes := signal_axes s;
     data := np_nansum_lead (navigation_dimension s) (data s) |}.

(** The store once the navigator is computed and plotted. *)
Definition after_navigator (s : signal) (w : world) : world :=
  {| signals := signals w ++ [navigator s];
     rois := rois w;
     figures := figures w ++ [Figure (length (signals w)) None];
     widgets := widgets w;
     connections := connections w |}.

(** The width the program gives every span. *)
Definition width_of (first : Q) (rest : list Q) (nspans : Z) : Q :=
  (List.last rest first - first) / inject_Z (2 * nspans).

(** The store after span [r] took the range [sp'] and its slice [g] and
    image [m] followed. *)
Definition after_edit (s : signal) (ax : DataAxis) (r : roiref) (g m : sigref)
    (sp' : SpanROI) (mv : signal) (w : world) : world :=
  {| signals :=
       <[m := {| navigation_axes := navigation_axes mv;
                 signal_axes := signal_axes mv;
                 data := np_nansum_last (data (sliced s ax sp')) |}]>
         (<[g := sliced s ax sp']> (signals w));
     rois := <[r := sp']> (rois w);
     figures := figures w;
     widgets := widgets w;
     connections := connections w |}.

(** What an edit leaves alone. *)
Record edit_frame (sig : sigref) (w w' : world) : Prop := {
  frame_input : signals w' !! sig = signals w !! sig;
  frame_signals : length (signals w') = length (signals w);
  frame_rois : length (rois w') = length (rois w);
  frame_figures : figures w' = figures w;
  frame_widgets : widgets w' = widgets w;
  frame_connections : connections w' = connections w
}.

(** ** The call in binary64, with the toolkit's argument checks *)

(** The text of the message [SpanROI] raises with.  It is the toolkit's
    and not part of this repository; every result holds whatever it is. *)
Variable span_error : Q -> Q -> string.

(** The toolkit's [sig.axes_manager.signal_dimension] (HyperSpy, not under
    src/): the number of signal axes, except that a lone signal axis with
    a single channel counts as no signal dimension. *)
Definition reported_signal_dimension (s : signal) : nat :=
  match signal_axes s with
  | [ax] => if (length (axis ax) =? 1)%nat then 0%nat else 1%nat
  | axes => length axes
  end.

(** The toolkit's [hs.roi.SpanROI(left, right)] (HyperSpy, not under src/)
    with the check of its arguments: [left >= right] raises [ValueError].
    Finite bounds are compared and stored with their exact values; bounds
    that are not finite are outside the fragment modelled here. *)
Definition checked_SpanROI (l r : PrimFloat.float) : M roiref :=
  l' <- expect Unmodelled (float_value l) ;;
  r' <- expect Unmodelled (float_value r) ;;
  if Qle_bool r' l' then raise (ValueError (span_error l' r'))
  else new_SpanROI l' r'.

(** The body of [for i in range(nspans)].  In [i * span_width + ax_sig[0]]
    the [int] is converted to a float by the multiplication, and both
    operations round. *)
Definition span_body_f64 (sig : sigref) (ax_sig : list Q) (span_width : PrimFloat.float)
    (all_sum : sigref) (i : Z) (st : locals) : M locals :=
  let '(spans, span_sigs, span_sums) := st in
  i_float <- expect OverflowError (float_of_int i) ;;
  origin <- py_index ax_sig 0 ;;
  origin <- expect Unmodelled (as_float64 origin) ;;
  let span_left := PrimFloat.add (PrimFloat.mul i_float span_width) origin in
  i1_float <- expect OverflowError (float_of_int (i + 1)) ;;
  origin' <- py_index ax_sig 0 ;;
  origin' <- expect Unmodelled (as_float64 origin') ;;
  let span_right := PrimFloat.add (PrimFloat.mul i1_float span_width) origin' in
  span <- checked_SpanROI span_left span_right ;;
  let spans := spans ++ [span] in
  color <- py_index colors i ;;
  widget_color <- py_index colors i ;;
  add_widget span all_sum widget_color ;;;
  span_sig <- interactive (roi_call span sig) (changed span) None ;;
  let span_sigs := span_sigs ++ [span_sig] in
  summed <- nansum span_sig (Some (-1)%Z) ;;
  span_sum <- as_signal2D summed [0%Z; 1%Z] ;;
  let span_sums := span_sums ++ [span_sum] in
  plot span_sum (Some (capitalize color +:+ "s")) ;;;
  interactive (nansum_call span_sig (Some (-1)%Z))
              (any_axis_changed span_sig) (Some span_sum) ;;;
  ret (spans, span_sigs, span_sums).

(** [plot_span_map(sig, nspans)].  The subtraction and the division are
    those of binary64: they round, and they raise nothing (a division by
    zero gives an infinity or a NaN).  The divisor [2 * nspans] is a
    Python [int], exact, which the division converts to a float; that
    conversion raises [OverflowError] when the [int] is too large. *)
Definition plot_span_map_f64 (sig : sigref) (nspans : Z)
    : M (sigref * list roiref * list sigref * list sigref) :=
  if (nspans >? 3)%Z then
    raise (ValueError "Maximum number of spans allowed is 3")
  else
  s <- get_signal sig ;;
  if (negb (reported_signal_dimension s =? 1)%nat
      || negb (navigation_dimension s =? 2)%nat)%bool then
    let sig_dims := reported_signal_dimension s in
    let nav_dims := navigation_dimension s in
    raise (ValueError (dimension_message sig_dims nav_dims))
  else
  signal_axis <- py_index (signal_axes s) 0 ;;
  let ax_sig := axis signal_axis in
  last <- py_index ax_sig (-1) ;;
  last <- expect Unmodelled (as_float64 last) ;;
  first <- py_index ax_sig 0 ;;
  first <- expect Unmodelled (as_float64 first) ;;
  let ax_sig_range := PrimFloat.sub last first in
  divisor <- expect OverflowError (float_of_int (2 * nspans)) ;;
  let span_width := PrimFloat.div ax_sig_range divisor in
  all_sum <- nansum sig None ;;
  plot all_sum None ;;;
  st <- for_fold (range nspans) (span_body_f64 sig ax_sig span_width all_sum) ([], [], []) ;;
  let '(spans, span_sigs, span_sums) := st in
  ret (all_sum, spans, span_sigs, span_sums).

(** ** Vocabulary for the statements in binary64 *)

(** An input the toolkit reports as one spectral by two spatial
    dimensions, with some spectral data. *)
Definition valid_input (s : signal) : Prop :=
  valid_signal s /\ reported_signal_dimension s = 1%nat.

(** [span_width] of line 68: the extent of the coordinates, last minus
    first, divided by [2 * nspans]. *)
Definition span_width_f64 (coords : list Q) (nspans : Z) : option PrimFloat.float :=
  match coords with
  | [] => None
  | c :: l =>
      match as_float64 (List.last l c), as_float64 c, float_of_int (2 * nspans) with
      | Some last, Some first, Some divisor =>
          Some (PrimFloat.div (PrimFloat.sub last first) divisor)
      | _, _, _ => None
      end
  end.

(** The value of [i * span_width + ax_sig[0]] of lines 75 and 76. *)
Definition span_bound_f64 (coords : list Q) (nspans i : Z) : option Q :=
  match coords, span_width_f64 coords nspans with
  | c :: _, Some span_width =>
      match as_float64 c, float_of_int i with
      | Some origin, Some i_float =>
          float_value (PrimFloat.add (PrimFloat.mul i_float span_width) origin)
      | _, _ => None
      end
  | _, _ => None
  end.

(** The bounds of span [i] are finite and in order. *)
Definition in_order (coords : list Q) (nspans i : Z) : bool :=
  match span_bound_f64 coords nspans i, span_bound_f64 coords nspans (i + 1) with
  | Some l, Some r => negb (Qle_bool r l)
  | _, _ => false
  end.

(** All spans of the call have their bounds in order. *)
Definition all_in_order (coords : list Q) (nspans : Z) : bool :=
  forallb (in_order coords nspans) (range nspans).

(** All the bounds the call computes are finite. *)
Definition all_finite (coords : list Q) (nspans : Z) : bool :=
  forallb (fun i => match span_bound_f64 coords nspans i with
                    | Some _ => true
                    | None => false
                    end) (range (nspans + 1)).

(** Every coordinate is the value of a binary64 number, as the
    coordinates of a numpy float64 array are. *)
Definition float64_coordinates (coords : list Q) : bool :=
  forallb (fun c => match as_float64 c with Some _ => true | None => false end) coords.

(** What [SpanROI] makes of the bounds of iteration [i]: a span, or the
    exception that ends the call. *)
Definition span_outcome (origin span_width : PrimFloat.float) (i : Z) : outcome SpanROI :=
  match float_of_int i, float_of_int (i + 1) with
  | Some i_float, Some i1_float =>
      match float_value (PrimFloat.add (PrimFloat.mul i_float span_width) origin),
            float_value (PrimFloat.add (PrimFloat.mul i1_float span_width) origin) with
      | Some l, Some r =>
          if Qle_bool r l then Raise (ValueError (span_error l r))
          else Return {| left := l; right := r |}
      | _, _ => Raise Unmodelled
      end
  | _, _ => Raise OverflowError
  end.

(** The spans created along the iterations [iters], up to the first
    exception. *)
Fixpoint spans_outcome (origin span_width : PrimFloat.float) (iters : list Z)
    : list SpanROI * option exn :=
  match iters with
  | [] => ([], None)
  | i :: iters' =>
      match span_outcome origin span_width i with
      | Return sp =>
          let '(sps, e) := spans_outcome origin span_width iters' in (sp :: sps, e)
      | Raise e => ([], Some e)
      end
  end.

(** The store after the iteration that creates span [sp] as the [j]-th. *)
Definition after_span (sig : sigref) (s : signal) (ax : DataAxis) (all_sum : sigref)
    (j : nat) (sp : SpanROI) (w : world) : world :=
  let gv := sliced s ax sp in
  let r := length (rois w) in
  let g := length (signals w) in
  {| signals := signals w ++
       [gv;
        {| navigation_axes := navigation_axes s; signal_axes := [];
           data := np_nansum_last (data gv) |};
        {| navigation_axes := []; signal_axes := navigation_axes s;
           data := np_nansum_last (data gv) |}];
     rois := rois w ++ [sp];
     figures := figures w ++ [Figure (g + 2) (Some (cmap_of j))];
     widgets := widgets w ++ [Widget r all_sum (color_of j)];
     connections := connections w ++
       [Connection (changed r) (roi_call r sig) g;
        Connection (any_axis_changed g) (nansum_call g (Some (-1)%Z)) (g + 2)] |}.

(** The store after the iterations that create the spans [sps], the first
    of them as the [j]-th. *)
Fixpoint after_spans (sig : sigref) (s : signal) (ax : DataAxis) (all_sum : sigref)
    (j : nat) (sps : list SpanROI) (w : world) : world :=
  match sps with
  | [] => w
  | sp :: sps' =>
      after_spans sig s ax all_sum (S j) sps' (after_span sig s ax all_sum j sp w)
  end.

(** ** Running the monad *)

Ltac proj := cbn [signals rois figures widgets connections].
Ltac step := unfold bind at 1; proj.

Lemma lookup_app_plus {A} (l1 l2 : list A) k :
  (l1 ++ l2) !! (length l1 + k)%nat = l2 !! k.
Proof. rewrite lookup_app_r by lia. f_equal. lia. Qed.

Lemma lookup_app_here {A} (l1 l2 : list A) :
  (l1 ++ l2) !! (length l1) = l2 !! 0%nat.
Proof.
  pose proof (lookup_app_plus l1 l2 0) as H.
  rewrite Nat.add_0_r in H. exact H.
Qed.

Lemma py_index_0 {A} (x : A) l w : py_index (x :: l) 0 w = (Return x, w).
Proof.
  unfold py_index. cbn [length].
  replace ((0 <? 0)%Z) with false by reflexivity.
  replace ((0 <=? 0)%Z && (0 <? Z.of_nat (S (length l)))%Z)%bool with true.
  - reflexivity.
  - symmetry. apply andb_true_iff. split; [reflexivity | apply Z.ltb_lt; lia].
Qed.

Lemma py_index_nil {A} (i : Z) w : py_index (@nil A) i w = (Raise IndexError, w).
Proof.
  unfold py_index. cbn [length].
  destruct (i <? 0)%Z eqn:E.
  - apply Z.ltb_lt in E.
    replace (0 <=? i + Z.of_nat 0)%Z with false by (symmetry; apply Z.leb_gt; lia).
    reflexivity.
  - apply Z.ltb_ge in E.
    replace (i <? Z.of_nat 0)%Z with false by (symmetry; apply Z.ltb_ge; lia).
    rewrite andb_false_r. reflexivity.
Qed.

Lemma py_index_nat {A} (l : list A) (i : Z) x w :
  (0 <= i)%Z -> l !! Z.to_nat i = Some x -> py_index l i w = (Return x, w).
Proof.
  intros Hi Hx. unfold py_index.
  assert (Hlt : (Z.to_nat i < length l)%nat) by (eapply lookup_lt_Some; eauto).
  replace (i <? 0)%Z with false by (symmetry; apply Z.ltb_ge; lia).
  replace ((0 <=? i)%Z && (i <? Z.of_nat (length l))%Z)%bool with true.
  - rewrite Hx. reflexivity.
  - symmetry. apply andb_true_iff. split; [apply Z.leb_le | apply Z.ltb_lt]; lia.
Qed.

Lemma last_cons {A} (x y : A) l : List.last (y :: l) x = List.last l y.
Proof.
  revert x y. induction l as [|a l IH]; intros x y; [reflexivity|].
  change (List.last (y :: a :: l) x) with (List.last (a :: l) x).
  rewrite (IH x a), (IH y a). reflexivity.
Qed.

Lemma lookup_last {A} (x : A) l : (x :: l) !! length l = Some (List.last l x).
Proof.
  revert x. induction l as [|y l IH]; intros x; [reflexivity|].
  cbn [length]. change ((x :: y :: l) !! S (length l)) with ((y :: l) !! length l).
  rewrite IH. f_equal. symmetry. apply last_cons.
Qed.

Lemma py_index_last {A} (x : A) l w :
  py_index (x :: l) (-1) w = (Return (List.last l x), w).
Proof.
  unfold py_index. cbn [length].
  replace (-1 <? 0)%Z with true by reflexivity.
  replace ((0 <=? -1 + Z.of_nat (S (length l)))%Z
           && (-1 + Z.of_nat (S (length l)) <? Z.of_nat (S (length l)))%Z)%bool with true.
  - replace (Z.to_nat (-1 + Z.of_nat (S (length l)))) with (length l) by lia.
    rewrite lookup_last. reflexivity.
  - symmetry. apply andb_true_iff. split; [apply Z.leb_le | apply Z.ltb_lt]; lia.
Qed.

Lemma roi_value_sliced sp s ax :
  signal_axes s = [ax] -> roi_value sp s = Return (sliced s ax sp).
Proof.
  intros H. unfold roi_value, sliced. rewrite H.
  destruct (span_indices (axis ax) sp); reflexivity.
Qed.

Lemma signal_axes_sliced s ax sp : exists ax', signal_axes (sliced s ax sp) = [ax'].
Proof. unfold sliced. destruct (span_indices (axis ax) sp). eexists; reflexivity. Qed.

Lemma navigation_axes_sliced s ax sp :
  navigation_axes (sliced s ax sp) = navigation_axes s.
Proof. unfold sliced. destruct (span_indices (axis ax) sp). reflexivity. Qed.

Lemma valid_signal_inv s :
  valid_signal s ->
  exists nx ny ax first rest,
    navigation_axes s = [nx; ny] /\ signal_axes s = [ax] /\ axis ax = first :: rest.
Proof.
  intros (Hs & Hn & Hne). unfold signal_dimension, navigation_dimension in *.
  destruct (signal_axes s) as [|ax [|? ?]] eqn:Es; try discriminate.
  destruct (navigation_axes s) as [|nx [|ny [|? ?]]] eqn:En; try discriminate.
  destruct (axis ax) as [|first rest] eqn:Ea.
  - exfalso. apply (Hne ax); [apply list_elem_of_here | exact Ea].
  - exists nx, ny, ax, first, rest. auto.
Qed.

(** One iteration of the loop, run on an arbitrary store. *)
Lemma span_body_run sig s sax first rest nx ny width all_sum i spans gs ms w color :
  signals w !! sig = Some s ->
  signal_axes s = [sax] ->
  axis sax = first :: rest ->
  navigation_axes s = [nx; ny] ->
  (0 <= i)%Z ->
  colors !! Z.to_nat i = Some color ->
  let sp := initial_span first width i in
  let gv := sliced s sax sp in
  let r := length (rois w) in
  let g := length (signals w) in
  span_body sig (axis sax) width all_sum i (spans, gs, ms) w =
  (Return (spans ++ [r], gs ++ [g], ms ++ [g + 2]%nat),
   {| signals := signals w ++
        [gv;
         {| navigation_axes := [nx; ny]; signal_axes := [];
            data := np_nansum_last (data gv) |};
         {| navigation_axes := []; signal_axes := [nx; ny];
            data := np_nansum_last (data gv) |}];
      rois := rois w ++ [sp];
      figures := figures w ++ [Figure (g + 2) (Some (capitalize color +:+ "s"))];
      widgets := widgets w ++ [Widget r all_sum color];
      connections := connections w ++
        [Connection (changed r) (roi_call r sig) g;
         Connection (any_axis_changed g) (nansum_call g (Some (-1)%Z)) (g + 2)] |}).
Proof.
  intros Hsig Hax Hcoords Hnav Hi Hcol sp gv r g.
  destruct (signal_axes_sliced s sax sp) as [ax' Hax'].
  pose proof (navigation_axes_sliced s sax sp) as Hnav'. rewrite Hnav in Hnav'.
  fold gv in Hax', Hnav'.
  unfold span_body. rewrite Hcoords.
  step. rewrite py_index_0.
  step. rewrite py_index_0.
  step. unfold new_SpanROI at 1. proj.
  step. rewrite (py_index_nat _ _ _ _ Hi Hcol).
  step. rewrite (py_index_nat _ _ _ _ Hi Hcol).
  step. unfold add_widget at 1. proj.
  (* the span slice *)
  step. unfold interactive at 1, eval.
  step. step. unfold get_roi at 1. proj. rewrite lookup_app_here. cbn [lookup list_lookup].
  step. unfold get_signal at 1. proj. rewrite Hsig.
  unfold lift at 1. rewrite (roi_value_sliced _ _ _ Hax).
  fold (initial_span first width i). fold sp. fold gv.
  step. unfold new_signal at 1. proj.
  step. unfold connect at 1. proj. unfold ret at 1.
  (* its spectral sum, as an image *)
  step. unfold nansum at 1.
  step. unfold get_signal at 1. proj. rewrite lookup_app_here. cbn [lookup list_lookup].
  step. unfold lift at 1, nansum_value. rewrite Hax', Hnav'.
  unfold new_signal at 1. proj.
  step. unfold as_signal2D at 1.
  step. unfold get_signal at 1. proj.
  rewrite length_app. cbn [length]. rewrite <- app_assoc. cbn [app].
  rewrite (lookup_app_plus _ _ 1). cbn [lookup list_lookup].
  step. unfold lift at 1, as_signal2D_value.
  cbn [navigation_axes signal_axes data].
  unfold new_signal at 1. proj.
  step. unfold plot at 1. proj.
  (* the binding from the slice to the sum *)
  step. unfold interactive at 1, eval.
  step. step. unfold get_signal at 1. proj.
  rewrite <- !app_assoc. cbn [app]. rewrite lookup_app_here. cbn [lookup list_lookup].
  unfold lift at 1, nansum_value. rewrite Hax', Hnav'.
  step. step. unfold store_out at 1.
  step. unfold get_signal at 1. proj.
  rewrite !length_app. cbn [length].
  replace (length (signals w) + 1 + 1)%nat with (length (signals w) + 2)%nat by lia.
  rewrite (lookup_app_plus _ _ 2). cbn [lookup list_lookup].
  cbn [data shape navigation_axes signal_axes].
  unfold shape_eqb. rewrite bool_decide_eq_true_2 by reflexivity.
  step. unfold put_signal at 1. proj.
  unfold ret at 1. step. unfold for_each, ret at 1.
  step. unfold connect at 1. proj. unfold ret at 1. unfold ret.
  rewrite list_insert_id by (rewrite (lookup_app_plus _ _ 2); reflexivity).
  proj. rewrite <- !app_assoc. cbn [app]. subst r g. reflexivity.
Qed.

(** ** The loop *)

Lemma listeners_app ev cs cs' :
  listeners ev (cs ++ cs') = listeners ev cs ++ listeners ev cs'.
Proof. unfold listeners. apply filter_app. Qed.

Lemma listeners_none ev cs :
  (forall c, c ∈ cs -> conn_event c <> ev) -> listeners ev cs = [].
Proof.
  intros H. unfold listeners. induction cs as [|c cs IH]; [reflexivity|].
  rewrite filter_cons_False.
  - apply IH. intros c' Hc'. apply H. apply list_elem_of_further. exact Hc'.
  - apply H. apply list_elem_of_here.
Qed.

Lemma listeners_fresh_roi w :
  fresh_connections w -> listeners (changed (length (rois w))) (connections w) = [].
Proof.
  intros Hf. apply listeners_none. intros c Hc E.
  specialize (Hf c Hc). rewrite E in Hf. lia.
Qed.

Lemma listeners_fresh_signal w :
  fresh_connections w ->
  listeners (any_axis_changed (length (signals w))) (connections w) = [].
Proof.
  intros Hf. apply listeners_none. intros c Hc E.
  specialize (Hf c Hc). rewrite E in Hf. lia.
Qed.

Lemma color_of_lookup j : (j < 3)%nat -> colors !! j = Some (color_of j).
Proof.
  intros H. destruct j as [|[|[|j]]]; try reflexivity. lia.
Qed.

Lemma linked_after_body sig s ax first width all_sum j w r g m :
  linked w sig s ax r g m ->
  linked (after_body sig s ax first width all_sum j w) sig s ax r g m.
Proof.
  intros (sp & mv & Hr & Hg & Hm & Hn & Hs & Hd & Hl1 & Hl2).
  exists sp, mv. unfold after_body. proj.
  pose proof (lookup_lt_Some _ _ _ Hr) as Br.
  pose proof (lookup_lt_Some _ _ _ Hg) as Bg.
  pose proof (lookup_lt_Some _ _ _ Hm) as Bm.
  repeat split; try assumption.
  - rewrite lookup_app_l by exact Br. exact Hr.
  - rewrite lookup_app_l by exact Bg. exact Hg.
  - rewrite lookup_app_l by exact Bm. exact Hm.
  - rewrite listeners_app, Hl1.
    rewrite (listeners_none (changed r)); [reflexivity|].
    intros c Hc E. apply list_elem_of_In in Hc. cbn in Hc.
    destruct Hc as [<-|[<-|[]]]; cbn in E; [injection E as E; lia | discriminate].
  - rewrite listeners_app, Hl2.
    rewrite (listeners_none (any_axis_changed g)); [reflexivity|].
    intros c Hc E. apply list_elem_of_In in Hc. cbn in Hc.
    destruct Hc as [<-|[<-|[]]]; cbn in E; [discriminate | injection E as E; lia].
Qed.

Lemma linked_new sig s ax first width all_sum j w :
  fresh_connections w ->
  linked (after_body sig s ax first width all_sum j w) sig s ax
    (length (rois w)) (length (signals w)) (length (signals w) + 2).
Proof.
  intros Hf.
  exists (initial_span first width (Z.of_nat j)),
    {| navigation_axes := []; signal_axes := navigation_axes s;
       data := np_nansum_last (data (sliced s ax (initial_span first width (Z.of_nat j)))) |}.
  unfold after_body. proj.
  repeat split.
  - rewrite lookup_app_here. reflexivity.
  - rewrite lookup_app_here. reflexivity.
  - rewrite (lookup_app_plus _ _ 2). reflexivity.
  - rewrite listeners_app, (listeners_fresh_roi _ Hf). unfold listeners.
    rewrite filter_cons_True by reflexivity.
    rewrite filter_cons_False by discriminate. reflexivity.
  - rewrite listeners_app, (listeners_fresh_signal _ Hf). unfold listeners.
    rewrite filter_cons_False by discriminate.
    rewrite filter_cons_True by reflexivity. reflexivity.
Qed.

Lemma seq_snoc j : seq 0 (S j) = seq 0 j ++ [j].
Proof. rewrite seq_S. reflexivity. Qed.

Lemma loop_inv_step w0 sig s ax first width all_sum j w :
  loop_inv w0 sig s ax first width all_sum j w ->
  loop_inv w0 sig s ax first width all_sum (S j)
    (after_body sig s ax first width all_sum j w).
Proof.
  intros [Hsl Hrl Hos Hor (Hsig & Hax & Hlt & Hw) Hini Hf Hfig Hwid Hcon].
  split.
  - unfold after_body. proj. rewrite length_app. cbn [length]. lia.
  - unfold after_body. proj. rewrite length_app. cbn [length]. lia.
  - intros i Hi. unfold after_body. proj.
    rewrite lookup_app_l by lia. apply Hos. exact Hi.
  - intros i Hi. unfold after_body. proj.
    rewrite lookup_app_l by lia. apply Hor. exact Hi.
  - repeat split.
    + unfold after_body. proj.
      rewrite lookup_app_l by (eapply lookup_lt_Some; eauto). exact Hsig.
    + exact Hax.
    + exact Hlt.
    + intros i Hi. destruct (decide (i = j)) as [->|Hne].
      * rewrite <- Hrl, <- Hsl. apply linked_new. exact Hf.
      * apply linked_after_body. apply Hw. lia.
  - intros i Hi. destruct (decide (i = j)) as [->|Hne].
    + unfold after_body. proj. rewrite <- Hrl, lookup_app_here. reflexivity.
    + unfold after_body. proj. rewrite lookup_app_l by lia. apply Hini. lia.
  - intros c Hc. unfold after_body in *. proj. revert Hc. proj. intros Hc.
    rewrite !length_app. cbn [length].
    apply elem_of_app in Hc. destruct Hc as [Hc|Hc].
    + specialize (Hf c Hc). destruct (conn_event c); lia.
    + apply list_elem_of_In in Hc. cbn in Hc.
      destruct Hc as [<-|[<-|[]]]; cbn; lia.
  - unfold after_body. proj. rewrite Hfig, seq_snoc, map_app, Hsl.
    rewrite <- app_assoc. reflexivity.
  - unfold after_body. proj. rewrite Hwid, seq_snoc, map_app, Hrl.
    rewrite <- app_assoc. reflexivity.
  - unfold after_body. proj. rewrite Hcon, seq_snoc, flat_map_app, Hsl, Hrl.
    rewrite <- app_assoc. reflexivity.
Qed.

Lemma refs_snoc r0 n0 j :
  (span_refs r0 j ++ [r0 + j], slice_refs n0 j ++ [n0 + 3 * j],
   sum_refs n0 j ++ [n0 + 3 * j + 2])%nat
  = (span_refs r0 (S j), slice_refs n0 (S j), sum_refs n0 (S j)).
Proof.
  unfold span_refs, slice_refs, sum_refs. rewrite seq_snoc, !map_app. reflexivity.
Qed.

(** The loop runs the remaining [k] iterations from any state reached
    after [j] of them, as long as the palette lasts. *)
Lemma loop_run w0 sig s ax first rest nx ny width all_sum k :
  axis ax = first :: rest ->
  navigation_axes s = [nx; ny] ->
  forall j w,
  (j + k <= 3)%nat ->
  loop_inv w0 sig s ax first width all_sum j w ->
  exists w',
    for_fold (map Z.of_nat (seq j k)) (span_body sig (axis ax) width all_sum)
      (span_refs (length (rois w0)) j, slice_refs (length (signals w0)) j,
       sum_refs (length (signals w0)) j) w
    = (Return (span_refs (length (rois w0)) (j + k),
               slice_refs (length (signals w0)) (j + k),
               sum_refs (length (signals w0)) (j + k)), w')
    /\ loop_inv w0 sig s ax first width all_sum (j + k) w'.
Proof.
  intros Hcoords Hnav. induction k as [|k IH]; intros j w Hjk Hinv.
  - exists w. rewrite Nat.add_0_r. split; [reflexivity | exact Hinv].
  - cbn [seq map for_fold]. unfold bind.
    destruct Hinv as [Hsl Hrl Hos Hor (Hsig & Hax & Hlt & Hw) Hini Hf Hfig Hwid Hcon] eqn:E.
    rewrite (span_body_run sig s ax first rest nx ny width all_sum (Z.of_nat j)
               _ _ _ w (color_of j) Hsig Hax Hcoords Hnav);
      [| lia | rewrite Nat2Z.id; apply color_of_lookup; lia].
    rewrite Hrl, Hsl, refs_snoc.
    pose proof (loop_inv_step _ _ _ _ _ _ _ _ _ Hinv) as Hstep.
    destruct (IH (S j) _ ltac:(lia) Hstep) as (w' & Hrun & Hinv').
    exists w'. replace (j + S k)%nat with (S j + k)%nat by lia.
    split; [| exact Hinv'].
    rewrite <- Hrun. unfold after_body, cmap_of. rewrite Hnav, Hrl, Hsl. reflexivity.
Qed.

(** ** The whole call *)

Lemma loop_inv_start s sig w first width :
  signals w !! sig = Some s ->
  (exists ax, signal_axes s = [ax]) ->
  fresh_connections w ->
  forall ax, signal_axes s = [ax] ->
  loop_inv (after_navigator s w) sig s ax first width (length (signals w)) 0
           (after_navigator s w).
Proof.
  intros Hsig _ Hf ax Hax.
  pose proof (lookup_lt_Some _ _ _ Hsig) as Hlt.
  split.
  - lia.
  - lia.
  - reflexivity.
  - reflexivity.
  - repeat split.
    + unfold after_navigator. proj. rewrite lookup_app_l by exact Hlt. exact Hsig.
    + exact Hax.
    + unfold after_navigator. proj. rewrite length_app. cbn [length]. lia.
    + intros i Hi. lia.
  - intros i Hi. lia.
  - intros c Hc. unfold after_navigator in *. revert Hc. proj. intros Hc.
    rewrite length_app. cbn [length].
    specialize (Hf c Hc). destruct (conn_event c); lia.
  - cbn [seq map]. rewrite app_nil_r. reflexivity.
  - cbn [seq map]. rewrite app_nil_r. reflexivity.
  - cbn [seq flat_map]. rewrite app_nil_r. reflexivity.
Qed.

Lemma plot_span_map_run w sig s nspans :
  signals w !! sig = Some s ->
  valid_signal s ->
  (nspans <= 3)%Z ->
  fresh_connections w ->
  exists ax first rest w',
    signal_axes s = [ax] /\ axis ax = first :: rest /\
    plot_span_map sig nspans w =
      (Return (length (signals w),
               span_refs (length (rois w)) (Z.to_nat nspans),
               slice_refs (S (length (signals w))) (Z.to_nat nspans),
               sum_refs (S (length (signals w))) (Z.to_nat nspans)), w') /\
    loop_inv (after_navigator s w) sig s ax first (width_of first rest nspans)
             (length (signals w)) (Z.to_nat nspans) w'.
Proof.
  intros Hsig Hvalid Hn Hf.
  destruct (valid_signal_inv s Hvalid) as (nx & ny & ax & first & rest & Hnav & Hax & Hcoords).
  pose proof (loop_inv_start s sig w first (width_of first rest nspans) Hsig
                (ex_intro _ ax Hax) Hf ax Hax) as Hstart.
  destruct (loop_run _ sig s ax first rest nx ny (width_of first rest nspans)
              (length (signals w)) (Z.to_nat nspans) Hcoords Hnav 0%nat _
              ltac:(lia) Hstart) as (w' & Hrun & Hinv).
  exists ax, first, rest, w'.
  split; [exact Hax|]. split; [exact Hcoords|]. split; [|exact Hinv].
  unfold plot_span_map.
  replace (nspans >? 3)%Z with false by (symmetry; rewrite Z.gtb_ltb; apply Z.ltb_ge; lia).
  step. unfold get_signal at 1. rewrite Hsig.
  destruct Hvalid as (Hsd & Hnd & _). rewrite Hsd, Hnd. cbn [Nat.eqb negb orb].
  rewrite Hax. step. rewrite py_index_0. rewrite Hcoords.
  step. rewrite py_index_last.
  step. rewrite py_index_0.
  step. unfold nansum at 1.
  step. unfold get_signal at 1. rewrite Hsig.
  step. unfold lift at 1, nansum_value. unfold new_signal at 1. proj.
  step. unfold plot at 1. proj.
  step. unfold range.
  unfold width_of in Hrun. rewrite <- Hcoords.
  unfold after_navigator, navigator in Hrun. revert Hrun. proj.
  rewrite length_app. cbn [length]. rewrite Nat.add_1_r. cbn [Nat.add].
  unfold span_refs at 1, slice_refs at 1, sum_refs at 1. cbn [seq map].
  intros Hrun. rewrite Hnd in Hrun. rewrite Hnd.
  unfold locals in *. rewrite Hrun. reflexivity.
Qed.

(** ** The failing paths *)

Lemma plot_span_map_too_many w sig nspans :
  (3 < nspans)%Z ->
  plot_span_map sig nspans w =
    (Raise (ValueError "Maximum number of spans allowed is 3"), w).
Proof.
  intros H. unfold plot_span_map.
  replace (nspans >? 3)%Z with true
    by (symmetry; rewrite Z.gtb_ltb; apply Z.ltb_lt; lia).
  reflexivity.
Qed.

Lemma plot_span_map_dangling w sig nspans :
  (nspans <= 3)%Z ->
  signals w !! sig = None ->
  plot_span_map sig nspans w = (Raise ReferenceError, w).
Proof.
  intros H Hsig. unfold plot_span_map.
  replace (nspans >? 3)%Z with false
    by (symmetry; rewrite Z.gtb_ltb; apply Z.ltb_ge; lia).
  unfold bind at 1. unfold get_signal at 1. rewrite Hsig. reflexivity.
Qed.

Lemma plot_span_map_bad_dims w sig s nspans :
  (nspans <= 3)%Z ->
  signals w !! sig = Some s ->
  signal_dimension s <> 1%nat \/ navigation_dimension s <> 2%nat ->
  plot_span_map sig nspans w =
    (Raise (ValueError (dimension_message (signal_dimension s) (navigation_dimension s))), w).
Proof.
  intros H Hsig Hdims. unfold plot_span_map.
  replace (nspans >? 3)%Z with false
    by (symmetry; rewrite Z.gtb_ltb; apply Z.ltb_ge; lia).
  unfold bind at 1. unfold get_signal at 1. rewrite Hsig.
  replace (negb (signal_dimension s =? 1)%nat || negb (navigation_dimension s =? 2)%nat)%bool
    with true; [reflexivity|].
  symmetry. apply orb_true_iff.
  destruct Hdims as [Hd|Hd]; [left|right];
    apply negb_true_iff, Nat.eqb_neq; exact Hd.
Qed.

(** Right dimensions but no spectral data: the failure comes from the
    array layer. *)
Lemma plot_span_map_no_data w sig s ax nspans :
  (nspans <= 3)%Z ->
  signals w !! sig = Some s ->
  navigation_dimension s = 2%nat ->
  signal_axes s = [ax] ->
  axis ax = [] ->
  plot_span_map sig nspans w = (Raise IndexError, w).
Proof.
  intros H Hsig Hnd Hax Hempty. unfold plot_span_map.
  replace (nspans >? 3)%Z with false
    by (symmetry; rewrite Z.gtb_ltb; apply Z.ltb_ge; lia).
  unfold bind at 1. unfold get_signal at 1. rewrite Hsig.
  unfold signal_dimension. rewrite Hax, Hnd. cbn [length Nat.eqb negb orb].
  unfold bind at 1. rewrite py_index_0. rewrite Hempty.
  unfold bind at 1. rewrite py_index_nil. reflexivity.
Qed.

Lemma dimension_message_other sig_dims nav_dims :
  dimension_message sig_dims nav_dims <> "Maximum number of spans allowed is 3".
Proof. unfold dimension_message. cbn. discriminate. Qed.

(** Every call falls in one of five cases. *)
Lemma plot_span_map_cases w sig nspans :
  fresh_connections w ->
  ((3 < nspans)%Z /\
     plot_span_map sig nspans w =
       (Raise (ValueError "Maximum number of spans allowed is 3"), w))
  \/ ((nspans <= 3)%Z /\ signals w !! sig = None /\
      plot_span_map sig nspans w = (Raise ReferenceError, w))
  \/ ((nspans <= 3)%Z /\ exists s, signals w !! sig = Some s /\
      (signal_dimension s <> 1%nat \/ navigation_dimension s <> 2%nat) /\
      plot_span_map sig nspans w =
        (Raise (ValueError (dimension_message (signal_dimension s)
                              (navigation_dimension s))), w))
  \/ ((nspans <= 3)%Z /\ exists s, signals w !! sig = Some s /\
      signal_dimension s = 1%nat /\ navigation_dimension s = 2%nat /\
      ~ valid_signal s /\
      plot_span_map sig nspans w = (Raise IndexError, w))
  \/ ((nspans <= 3)%Z /\ exists s, signals w !! sig = Some s /\ valid_signal s /\
      exists ax first rest w',
        signal_axes s = [ax] /\ axis ax = first :: rest /\
        plot_span_map sig nspans w =
          (Return (length (signals w),
                   span_refs (length (rois w)) (Z.to_nat nspans),
                   slice_refs (S (length (signals w))) (Z.to_nat nspans),
                   sum_refs (S (length (signals w))) (Z.to_nat nspans)), w') /\
        loop_inv (after_navigator s w) sig s ax first (width_of first rest nspans)
                 (length (signals w)) (Z.to_nat nspans) w').
Proof.
  intros Hf.
  destruct (Z_lt_le_dec 3 nspans) as [Hn|Hn].
  { left. split; [exact Hn | apply plot_span_map_too_many; exact Hn]. }
  right. destruct (signals w !! sig) as [s|] eqn:Hsig.
  2:{ left. split; [exact Hn|]. split; [reflexivity|].
      apply plot_span_map_dangling; assumption. }
  right.
  destruct (decide (signal_dimension s = 1%nat)) as [Hsd|Hsd].
  2:{ left. split; [exact Hn|]. exists s. split; [reflexivity|].
      split; [left; exact Hsd|]. apply plot_span_map_bad_dims; auto. }
  destruct (decide (navigation_dimension s = 2%nat)) as [Hnd|Hnd].
  2:{ left. split; [exact Hn|]. exists s. split; [reflexivity|].
      split; [right; exact Hnd|]. apply plot_span_map_bad_dims; auto. }
  right.
  pose proof Hsd as Hsd'. unfold signal_dimension in Hsd'.
  destruct (signal_axes s) as [|ax [|? ?]] eqn:Hax; try discriminate.
  destruct (axis ax) as [|first rest] eqn:Hcoords.
  - left. split; [exact Hn|]. exists s. split; [reflexivity|].
    split; [exact Hsd|]. split; [exact Hnd|]. split.
    + intros (_ & _ & Hne). apply (Hne ax); [|exact Hcoords].
      rewrite Hax. apply list_elem_of_here.
    + eapply plot_span_map_no_data; eauto.
  - right. split; [exact Hn|]. exists s. split; [reflexivity|].
    assert (Hvalid : valid_signal s).
    { split; [exact Hsd|]. split; [exact Hnd|].
      intros ax' Hin. rewrite Hax in Hin. apply list_elem_of_In in Hin.
      destruct Hin as [<-|[]]. rewrite Hcoords. discriminate. }
    split; [exact Hvalid|].
    apply plot_span_map_run; assumption.
Qed.

(** ** Editing a span *)

Lemma trigger_S fuel ev w :
  trigger (S fuel) ev w =
  for_each (listeners ev (connections w)) (update (trigger fuel)) w.
Proof. reflexivity. Qed.

Lemma sliced_rebuild s ax sp sp' :
  {| navigation_axes := navigation_axes (sliced s ax sp);
     signal_axes := signal_axes (sliced s ax sp');
     data := data (sliced s ax sp') |} = sliced s ax sp'.
Proof.
  unfold sliced.
  destruct (span_indices (axis ax) sp), (span_indices (axis ax) sp'). reflexivity.
Qed.

Lemma lead_shape_slice start stop a :
  lead_shape (np_slice_last start stop a) = lead_shape a.
Proof. unfold lead_shape at 1, np_slice_last. cbn [shape]. apply removelast_last. Qed.

Lemma shape_sum_sliced s ax sp :
  shape (np_nansum_last (data (sliced s ax sp))) = lead_shape (data s).
Proof.
  unfold sliced. destruct (span_indices (axis ax) sp).
  cbn [data np_nansum_last shape]. apply lead_shape_slice.
Qed.

Lemma change_span_linked w sig s ax r g m e :
  signals w !! sig = Some s ->
  signal_axes s = [ax] ->
  sig <> g -> sig <> m -> g <> m ->
  linked w sig s ax r g m ->
  exists sp mv,
    rois w !! r = Some sp /\ signals w !! m = Some mv /\
    change_span r e w = (Return tt, after_edit s ax r g m (edited e sp) mv w).
Proof.
  intros Hsig Hax Hsg Hsm Hgm (sp & mv & Hr & Hg & Hm & Hn & Hs & Hd & Hl1 & Hl2).
  exists sp, mv. split; [exact Hr|]. split; [exact Hm|].
  pose proof (lookup_lt_Some _ _ _ Hr) as Br.
  pose proof (lookup_lt_Some _ _ _ Hg) as Bg.
  pose proof (lookup_lt_Some _ _ _ Hm) as Bm.
  destruct (signal_axes_sliced s ax (edited e sp)) as [ax' Hax'].
  unfold change_span.
  step. unfold get_roi at 1. rewrite Hr.
  step. unfold put_roi at 1. proj.
  unfold fire. change recursion_limit with (S (S 998)).
  rewrite trigger_S. proj. rewrite Hl1. cbn [for_each].
  step. unfold update at 1. cbn [conn_f conn_out].
  step. unfold eval at 1.
  step. unfold get_roi at 1. proj. rewrite list_lookup_insert_eq by exact Br.
  step. unfold get_signal at 1. proj. rewrite Hsig.
  unfold lift at 1. rewrite (roi_value_sliced _ _ _ Hax).
  step. unfold store_out at 1.
  step. unfold get_signal at 1. proj. rewrite Hg.
  step. unfold put_signal at 1. proj. unfold ret at 1.
  rewrite sliced_rebuild.
  cbn [for_each].
  step. rewrite trigger_S. proj. rewrite Hl2. cbn [for_each].
  step. unfold update at 1. cbn [conn_f conn_out].
  step. unfold eval at 1.
  step. unfold get_signal at 1. proj. rewrite list_lookup_insert_eq by exact Bg.
  unfold lift at 1, nansum_value. rewrite Hax'.
  step. unfold store_out at 1.
  step. unfold get_signal at 1. proj. rewrite list_lookup_insert_ne by exact Hgm.
  rewrite Hm. cbn [data].
  unfold shape_eqb. rewrite bool_decide_eq_true_2
    by (rewrite Hd, !shape_sum_sliced; reflexivity).
  step. unfold put_signal at 1. proj. unfold ret at 1.
  cbn [for_each]. unfold ret. unfold bind.
  unfold after_edit. reflexivity.
Qed.

Lemma linked_after_edit_same w sig s ax r g m sp' mv :
  signals w !! sig = Some s ->
  g <> m ->
  linked w sig s ax r g m ->
  signals w !! m = Some mv ->
  linked (after_edit s ax r g m sp' mv w) sig s ax r g m.
Proof.
  intros Hsig Hgm (sp & mv0 & Hr & Hg & Hm & Hn & Hs & Hd & Hl1 & Hl2) Hmv.
  rewrite Hm in Hmv. injection Hmv as <-.
  pose proof (lookup_lt_Some _ _ _ Hr) as Br.
  pose proof (lookup_lt_Some _ _ _ Hg) as Bg.
  pose proof (lookup_lt_Some _ _ _ Hm) as Bm.
  exists sp', {| navigation_axes := navigation_axes mv0;
                 signal_axes := signal_axes mv0;
                 data := np_nansum_last (data (sliced s ax sp')) |}.
  unfold after_edit. proj. repeat split; try assumption.
  - apply list_lookup_insert_eq. exact Br.
  - rewrite list_lookup_insert_ne by (intros E; apply Hgm; symmetry; exact E).
    apply list_lookup_insert_eq. exact Bg.
  - apply list_lookup_insert_eq. rewrite length_insert. exact Bm.
Qed.

Lemma linked_after_edit_other w sig s ax r g m r' g' m' sp' mv :
  r' <> r -> g' <> g -> g' <> m -> m' <> g -> m' <> m ->
  linked w sig s ax r' g' m' ->
  linked (after_edit s ax r g m sp' mv w) sig s ax r' g' m'.
Proof.
  intros Hr' Hg1 Hg2 Hm1 Hm2 (sp & mv0 & Hr & Hg & Hm & Hn & Hs & Hd & Hl1 & Hl2).
  exists sp, mv0. unfold after_edit. proj. repeat split; try assumption.
  - rewrite list_lookup_insert_ne by (intros E; apply Hr'; symmetry; exact E).
    exact Hr.
  - rewrite !list_lookup_insert_ne by congruence.
    exact Hg.
  - rewrite !list_lookup_insert_ne by congruence.
    exact Hm.
Qed.

Lemma edit_frame_refl sig w : edit_frame sig w w.
Proof. split; reflexivity. Qed.

Lemma edit_frame_trans sig w1 w2 w3 :
  edit_frame sig w1 w2 -> edit_frame sig w2 w3 -> edit_frame sig w1 w3.
Proof.
  intros [A1 A2 A3 A4 A5 A6] [B1 B2 B3 B4 B5 B6].
  split; etransitivity; eauto.
Qed.

(** An edit of one of the wired spans runs to completion and keeps all
    of them wired. *)
Lemma change_span_wired w sig s ax r0 n0 k i e :
  wired w sig s ax r0 n0 k ->
  (i < k)%nat ->
  exists w',
    change_span (r0 + i) e w = (Return tt, w') /\
    wired w' sig s ax r0 n0 k /\
    edit_frame sig w w' /\
    (forall sp, rois w !! (r0 + i)%nat = Some sp ->
                rois w' !! (r0 + i)%nat = Some (edited e sp)) /\
    (forall j, j <> i -> rois w' !! (r0 + j)%nat = rois w !! (r0 + j)%nat) /\
    (forall j mv, signals w !! (n0 + 3 * j + 2)%nat = Some mv ->
       exists mv', signals w' !! (n0 + 3 * j + 2)%nat = Some mv' /\
                   navigation_axes mv' = navigation_axes mv /\
                   signal_axes mv' = signal_axes mv).
Proof.
  intros (Hsig & Hax & Hlt & Hw) Hi.
  pose proof (Hw i Hi) as Hli.
  destruct (change_span_linked w sig s ax (r0 + i) (n0 + 3 * i) (n0 + 3 * i + 2) e
              Hsig Hax ltac:(lia) ltac:(lia) ltac:(lia) Hli)
    as (sp & mv & Hr & Hm & Hrun).
  pose proof (lookup_lt_Some _ _ _ Hr) as Br.
  pose proof (lookup_lt_Some _ _ _ Hm) as Bm.
  eexists. split; [exact Hrun|].
  split; [|split; [|split; [|split]]].
  - repeat split.
    + unfold after_edit. proj.
      rewrite !list_lookup_insert_ne by lia. exact Hsig.
    + exact Hax.
    + exact Hlt.
    + intros j Hj. destruct (decide (j = i)) as [->|Hne].
      * apply linked_after_edit_same; auto. lia.
      * apply linked_after_edit_other; try lia. apply Hw. exact Hj.
  - split; unfold after_edit; proj; try reflexivity.
    + rewrite !list_lookup_insert_ne by lia. reflexivity.
    + rewrite !length_insert. reflexivity.
    + rewrite length_insert. reflexivity.
  - intros sp0 Hsp0. rewrite Hr in Hsp0. injection Hsp0 as <-.
    unfold after_edit. proj. apply list_lookup_insert_eq. exact Br.
  - intros j Hj. unfold after_edit. proj.
    rewrite list_lookup_insert_ne by lia. reflexivity.
  - intros j mv0 Hmv0. unfold after_edit. proj.
    destruct (decide (j = i)) as [->|Hne].
    + rewrite Hm in Hmv0. injection Hmv0 as <-.
      eexists. split.
      * apply list_lookup_insert_eq. rewrite length_insert. exact Bm.
      * split; reflexivity.
    + exists mv0. rewrite !list_lookup_insert_ne by lia. auto.
Qed.

(** ** The array operations, pointwise *)

Lemma chunks_length {A} n k (l : list A) : length (chunks n k l) = n.
Proof. revert l. induction n as [|n IH]; intros l; cbn; [reflexivity|]. rewrite IH. reflexivity. Qed.

Lemma chunks_lookup {A} n k (l : list A) p :
  (p < n)%nat -> chunks n k l !! p = Some (take k (drop (p * k) l)).
Proof.
  revert l p. induction n as [|n IH]; intros l p Hp; [lia|].
  destruct p as [|p]; cbn [chunks].
  - reflexivity.
  - change ((take k l :: chunks n k (drop k l)) !! S p)
      with (chunks n k (drop k l) !! p).
    rewrite IH by lia. rewrite drop_drop. reflexivity.
Qed.

Lemma lookup_nth_lt {A} (l : list A) i d :
  (i < length l)%nat -> l !! i = Some (nth i l d).
Proof.
  intros H. destruct (lookup_lt_is_Some_2 l i H) as [x Hx].
  rewrite (nth_lookup_Some _ _ d _ Hx). exact Hx.
Qed.

Lemma chunks_row_length {A} n k (l : list A) r :
  (n * k <= length l)%nat -> r ∈ chunks n k l -> length r = k.
Proof.
  revert l. induction n as [|n IH]; intros l Hl Hr; cbn [chunks] in Hr.
  - apply elem_of_nil in Hr. destruct Hr.
  - apply elem_of_cons in Hr. destruct Hr as [->|Hr].
    + rewrite length_take. lia.
    + apply (IH (drop k l)); [|exact Hr]. rewrite length_drop. lia.
Qed.

Lemma chunks_concat {A} k (ls : list (list A)) :
  (forall r, r ∈ ls -> length r = k) ->
  chunks (length ls) k (concat ls) = ls.
Proof.
  induction ls as [|r ls IH]; intros H; [reflexivity|].
  cbn [length chunks concat].
  assert (Hr : length r = k) by (apply H, list_elem_of_here).
  rewrite take_app_length' by (symmetry; exact Hr).
  rewrite drop_app_length' by (symmetry; exact Hr).
  rewrite IH; [reflexivity|].
  intros r' Hr'. apply H, list_elem_of_further, Hr'.
Qed.

Lemma nth_chunk {A} k (l : list A) p e d :
  (e < k)%nat -> nth e (take k (drop (p * k) l)) d = nth (p * k + e) l d.
Proof.
  intros He. rewrite nth_firstn.
  replace (e <? k)%nat with true by (symmetry; apply Nat.ltb_lt; exact He).
  apply nth_skipn.
Qed.

(** Folding over a window of a list is folding over its indices. *)
Lemma fold_left_window {A B} (f : B -> A -> B) (l : list A) d n :
  forall a acc, (a + n <= length l)%nat ->
  fold_left f (take n (drop a l)) acc =
  fold_left (fun acc e => f acc (nth e l d)) (seq a n) acc.
Proof.
  induction n as [|n IH]; intros a acc Ha; [reflexivity|].
  assert (Hx : l !! a = Some (nth a l d)) by (apply lookup_nth_lt; lia).
  rewrite (drop_S _ _ _ Hx). cbn [take fold_left seq].
  apply IH. lia.
Qed.

Lemma fold_left_ext_seq {B} (f g : B -> nat -> B) a n :
  (forall acc e, (a <= e < a + n)%nat -> f acc e = g acc e) ->
  forall acc, fold_left f (seq a n) acc = fold_left g (seq a n) acc.
Proof.
  revert a. induction n as [|n IH]; intros a H acc; [reflexivity|].
  cbn [seq fold_left]. rewrite H by lia. apply IH.
  intros acc' e He. apply H. lia.
Qed.

Lemma prod_list_app l1 l2 : prod_list (l1 ++ l2) = (prod_list l1 * prod_list l2)%nat.
Proof.
  induction l1 as [|x l1 IH]; cbn [app prod_list fold_right].
  - unfold prod_list. lia.
  - unfold prod_list in *. cbn [fold_right]. rewrite IH. lia.
Qed.

Lemma shape_split (a : ndarray) :
  shape a <> [] -> shape a = lead_shape a ++ [last_dim a].
Proof. intros H. unfold lead_shape, last_dim. apply app_removelast_last. exact H. Qed.

Lemma well_shaped_length a :
  shape a <> [] -> well_shaped a ->
  length (flat a) = (positions a * last_dim a)%nat.
Proof.
  intros Hne Hw. unfold well_shaped in Hw. rewrite Hw.
  rewrite (shape_split a Hne) at 1. rewrite prod_list_app.
  unfold positions, prod_list. cbn [fold_right]. lia.
Qed.

Lemma last_dim_slice start stop a :
  last_dim (np_slice_last start stop a) = (Nat.min stop (last_dim a) - start)%nat.
Proof. unfold last_dim at 1, np_slice_last. cbn [shape]. apply last_last. Qed.

Lemma rows_slice start stop a :
  shape a <> [] -> well_shaped a ->
  rows (np_slice_last start stop a) =
  map (fun r => take (Nat.min stop (last_dim a) - start) (drop start r)) (rows a).
Proof.
  intros Hne Hw. unfold rows at 1.
  rewrite lead_shape_slice, last_dim_slice.
  unfold np_slice_last. cbn [flat].
  set (f := fun r : list sample => take (Nat.min stop (last_dim a) - start) (drop start r)).
  assert (Hlen : length (map f (rows a)) = prod_list (lead_shape a)).
  { rewrite length_map. unfold rows. apply chunks_length. }
  rewrite <- Hlen. apply chunks_concat.
  intros r Hr. apply list_elem_of_fmap in Hr. destruct Hr as (r0 & -> & Hr0).
  unfold rows in Hr0. apply chunks_row_length in Hr0.
  - unfold f. rewrite length_take, length_drop. lia.
  - rewrite (well_shaped_length a Hne Hw). unfold positions. lia.
Qed.

(** The sum image of a slice holds, at each position, the NaN-safe sum of
    the input over the channels of the slice. *)
Lemma nansum_slice_at a start stop p :
  shape a <> [] -> well_shaped a ->
  (p < positions a)%nat ->
  flat (np_nansum_last (np_slice_last start stop a)) !! p =
  Some (Val (spectral_nansum_at a start stop p)).
Proof.
  intros Hne Hw Hp. unfold np_nansum_last. cbn [flat].
  rewrite (rows_slice _ _ _ Hne Hw). rewrite map_map.
  rewrite list_lookup_fmap. unfold rows.
  rewrite chunks_lookup by exact Hp. cbn [fmap option_fmap option_map].
  do 2 f_equal. unfold nansum1, spectral_nansum_at.
  set (k := last_dim a). set (n := (Nat.min stop k - start)%nat).
  pose proof (well_shaped_length a Hne Hw) as Hlen. fold k in Hlen.
  assert (Hrow : length (take k (drop (p * k) (flat a))) = k).
  { rewrite length_take, length_drop. unfold positions in *. nia. }
  destruct (decide (n = 0%nat)) as [Hn|Hn].
  { rewrite Hn. reflexivity. }
  rewrite (fold_left_window nan_add _ NaN n start) by lia.
  apply fold_left_ext_seq. intros acc e He.
  unfold sample_at. fold k. rewrite nth_chunk by lia. reflexivity.
Qed.




(** ** The claims *)

(** C3 (as amended): for every input with [nspans > 3] the call fails with
    the invalid-argument error whose message is
    "Maximum number of spans allowed is 3" (capital M), whatever the
    signal is: the span-count check comes before the dimensionality check,
    whose error carries another message. *)
Theorem span_count_error_first w sig nspans :
  (3 < nspans)%Z ->
  plot_span_map sig nspans w =
    (Raise (ValueError "Maximum number of spans allowed is 3"), w)
  /\ forall s, fst (plot_span_map sig nspans w) <>
       Raise (ValueError (dimension_message (signal_dimension s)
                            (navigation_dimension s))).
Proof.
  intros H. rewrite (plot_span_map_too_many w sig nspans H).
  split; [reflexivity|].
  intros s E. cbn [fst] in E.
  apply (dimension_message_other (signal_dimension s) (navigation_dimension s)).
  congruence.
Qed.


(** C8: whenever a validation fails (too many spans, or wrong
    dimensionality) the call raises its invalid-argument error in the
    store it was given: no signal, ROI, figure, widget or binding was
    added and no object was changed. *)
Theorem validation_failure_leaves_store w sig nspans :
  (3 < nspans)%Z \/
  (exists s, signals w !! sig = Some s /\
             (signal_dimension s <> 1%nat \/ navigation_dimension s <> 2%nat)) ->
  exists msg, plot_span_map sig nspans w = (Raise (ValueError msg), w).
Proof.
  intros [H|(s & Hsig & Hdims)].
  - eexists. apply plot_span_map_too_many. exact H.
  - destruct (Z_lt_le_dec 3 nspans) as [Hn|Hn].
    + eexists. apply plot_span_map_too_many. exact Hn.
    + eexists. apply plot_span_map_bad_dims; eassumption.
Qed.

(** C9: no call changes the input signal: after the call, succeeding or
    failing, the store holds at [sig] what it held before. *)
Theorem input_signal_unchanged w sig nspans :
  fresh_connections w ->
  signals (snd (plot_span_map sig nspans w)) !! sig = signals w !! sig.
Proof.
  intros Hf.
  destruct (plot_span_map_cases w sig nspans Hf)
    as [(_ & E)|[(_ & _ & E)|[(_ & s & _ & _ & E)|[(_ & s & _ & _ & _ & _ & E)
       |(_ & s & Hsig & _ & ax & first & rest & w' & _ & _ & E & Hinv)]]]];
    rewrite E; cbn [snd]; try reflexivity.
  pose proof (lookup_lt_Some _ _ _ Hsig) as Hlt.
  rewrite (inv_old_signals _ _ _ _ _ _ _ _ _ Hinv).
  - unfold after_navigator. proj. apply lookup_app_l. exact Hlt.
  - unfold after_navigator. proj. rewrite length_app. lia.
Qed.

Lemma lookup_map_seq {A} (f : nat -> A) k i :
  (i < k)%nat -> map f (seq 0 k) !! i = Some (f i).
Proof.
  intros H. rewrite list_lookup_fmap, lookup_seq_lt by exact H. reflexivity.
Qed.

Lemma lookup_map_seq_inv {A} (f : nat -> A) k i x :
  map f (seq 0 k) !! i = Some x -> (i < k)%nat /\ x = f i.
Proof.
  intros H. assert (Hi : (i < k)%nat).
  { apply lookup_lt_Some in H. rewrite length_map, length_seq in H. exact H. }
  rewrite lookup_map_seq in H by exact Hi. split; [exact Hi | congruence].
Qed.

(** What a successful call leaves in the store, in terms of the store it
    started from. *)
Lemma plot_span_map_store w sig s nspans :
  fresh_connections w ->
  signals w !! sig = Some s ->
  valid_signal s ->
  (nspans <= 3)%Z ->
  exists ax first rest w1,
    let k := Z.to_nat nspans in
    let n0 := length (signals w) in
    let r0 := length (rois w) in
    signal_axes s = [ax] /\ axis ax = first :: rest /\
    plot_span_map sig nspans w =
      (Return (n0, span_refs r0 k, slice_refs (S n0) k, sum_refs (S n0) k), w1) /\
    signals w1 !! n0 = Some (navigator s) /\
    signals w1 !! sig = Some s /\
    wired w1 sig s ax r0 (S n0) k /\
    (forall i, (i < k)%nat ->
       rois w1 !! (r0 + i)%nat =
         Some (initial_span first (width_of first rest nspans) (Z.of_nat i))) /\
    figures w1 = figures w ++ Figure n0 None ::
      map (fun i => Figure (S n0 + 3 * i + 2) (Some (cmap_of i))) (seq 0 k) /\
    widgets w1 = widgets w ++
      map (fun i => Widget (r0 + i) n0 (color_of i)) (seq 0 k).
Proof.
  intros Hf Hsig Hvalid Hn.
  destruct (plot_span_map_run w sig s nspans Hsig Hvalid Hn Hf)
    as (ax & first & rest & w1 & Hax & Hcoords & Hrun & Hinv).
  exists ax, first, rest, w1. cbn zeta.
  pose proof (lookup_lt_Some _ _ _ Hsig) as Hlt.
  destruct Hinv as [_ _ Hos _ Hw Hini _ Hfig Hwid _].
  assert (Hlen : length (signals (after_navigator s w)) = S (length (signals w))).
  { unfold after_navigator. proj. rewrite length_app. cbn [length]. lia. }
  rewrite Hlen in *. change (rois (after_navigator s w)) with (rois w) in *.
  split; [exact Hax|]. split; [exact Hcoords|]. split; [exact Hrun|].
  split; [|split; [|split; [|split; [|split]]]].
  - rewrite Hos by lia. unfold after_navigator. proj. rewrite lookup_app_here. reflexivity.
  - destruct Hw as (Hs1 & _). exact Hs1.
  - exact Hw.
  - exact Hini.
  - rewrite Hfig. unfold after_navigator. proj. rewrite <- app_assoc. reflexivity.
  - rewrite Hwid. reflexivity.
Qed.




(** ** Minimum and maximum of an increasing axis *)

Lemma Qmin_list_increasing l : forall x m,
  increasing (x :: l) = true -> (m <= x)%Q -> (Qmin_list m l == m)%Q.
Proof.
  induction l as [|c l IH]; intros x m Hinc Hm; [reflexivity|].
  cbn [increasing] in Hinc. apply andb_true_iff in Hinc. destruct Hinc as (Hxc & Hinc).
  apply Qle_bool_iff in Hxc.
  unfold Qmin_list. cbn [fold_left]. fold (Qmin_list (if Qle_bool c m then c else m) l).
  destruct (Qle_bool c m) eqn:E.
  - apply Qle_bool_iff in E.
    assert (Hcm : (c == m)%Q) by (apply Qle_antisym; [exact E | eapply Qle_trans; eauto]).
    rewrite (IH c c Hinc (Qle_refl c)). exact Hcm.
  - apply (IH c m Hinc). eapply Qle_trans; eauto.
Qed.

Lemma Qmax_list_increasing l : forall x,
  increasing (x :: l) = true -> Qmax_list x l = List.last l x.
Proof.
  induction l as [|c l IH]; intros x Hinc; [reflexivity|].
  cbn [increasing] in Hinc. apply andb_true_iff in Hinc. destruct Hinc as (Hxc & Hinc).
  unfold Qmax_list. cbn [fold_left]. rewrite Hxc.
  fold (Qmax_list c l). rewrite (IH c Hinc). symmetry. apply last_cons.
Qed.

(** ** Any number of edits *)

Lemma elem_of_span_refs r r0 k :
  r ∈ span_refs r0 k -> exists i, (i < k)%nat /\ r = (r0 + i)%nat.
Proof.
  intros H. apply list_elem_of_lookup in H. destruct H as (i & Hi).
  apply lookup_map_seq_inv in Hi. exists i. exact Hi.
Qed.

Lemma apply_edits_wired sig s ax r0 n0 k es : forall w,
  wired w sig s ax r0 n0 k ->
  Forall (fun x => fst x ∈ span_refs r0 k) es ->
  exists w',
    apply_edits es w = (Return tt, w') /\
    wired w' sig s ax r0 n0 k /\
    edit_frame sig w w' /\
    (forall i sp, (i < k)%nat -> rois w !! (r0 + i)%nat = Some sp ->
       rois w' !! (r0 + i)%nat = Some (replay es (r0 + i) sp)) /\
    (forall j mv, signals w !! (n0 + 3 * j + 2)%nat = Some mv ->
       exists mv', signals w' !! (n0 + 3 * j + 2)%nat = Some mv' /\
                   navigation_axes mv' = navigation_axes mv /\
                   signal_axes mv' = signal_axes mv).
Proof.
  induction es as [|[r e] es IH]; intros w Hw Hes.
  - exists w. split; [reflexivity|]. split; [exact Hw|].
    split; [apply edit_frame_refl|]. split.
    + intros i sp _ H. exact H.
    + intros j mv H. exists mv. auto.
  - apply Forall_cons in Hes. destruct Hes as (Hr & Hes). cbn [fst] in Hr.
    destruct (elem_of_span_refs _ _ _ Hr) as (i & Hi & ->).
    destruct (change_span_wired w sig s ax r0 n0 k i e Hw Hi)
      as (w1 & Hrun & Hw1 & Hfr & Hsame & Hother & Himg).
    destruct (IH w1 Hw1 Hes) as (w2 & Hrun2 & Hw2 & Hfr2 & Hrois2 & Himg2).
    exists w2. split; [|split; [exact Hw2|split; [|split]]].
    + unfold apply_edits in *. cbn [for_each fst snd]. unfold bind at 1.
      rewrite Hrun. exact Hrun2.
    + eapply edit_frame_trans; eauto.
    + intros j sp Hj Hsp. cbn [replay fold_left fst snd].
      fold (replay es (r0 + j) (if decide ((r0 + i)%nat = (r0 + j)%nat)
                                then edited e sp else sp)).
      apply Hrois2; [exact Hj|].
      destruct (decide ((r0 + i)%nat = (r0 + j)%nat)) as [E|E].
      * assert (j = i) by lia. subst j. apply Hsame. exact Hsp.
      * rewrite Hother by lia. exact Hsp.
    + intros j mv Hmv.
      destruct (Himg j mv Hmv) as (mv1 & Hmv1 & Hn1 & Hs1).
      destruct (Himg2 j mv1 Hmv1) as (mv2 & Hmv2 & Hn2 & Hs2).
      exists mv2. split; [exact Hmv2|]. split; congruence.
Qed.

Lemma data_sliced s ax sp start stop :
  span_indices (axis ax) sp = (start, stop) ->
  data (sliced s ax sp) = np_slice_last start stop (data s).
Proof. intros H. unfold sliced. rewrite H. reflexivity. Qed.

(** C1: after the call and after any sequence of changes to the ranges of
    the returned spans, for every index [i] the image [span_sums[i]] holds
    the NaN-safe sums of [sig] over the sub-range currently selected by
    [spans[i]], which is the sub-range of [span_sigs[i]]: at each spatial
    position, the sum of the samples of the selected channels with NaN
    counted as 0.  The image is the same object as before, with the same
    axes: the sums were written into it. *)
Theorem span_sums_follow_spans w sig s nspans all_sum spans span_sigs span_sums w1 es :
  fresh_connections w ->
  signals w !! sig = Some s ->
  valid_signal s ->
  consistent s ->
  (nspans <= 3)%Z ->
  plot_span_map sig nspans w = (Return (all_sum, spans, span_sigs, span_sums), w1) ->
  Forall (fun x => fst x ∈ spans) es ->
  exists w2,
    apply_edits es w1 = (Return tt, w2) /\
    edit_frame sig w1 w2 /\
    forall i r g m,
      spans !! i = Some r -> span_sigs !! i = Some g -> span_sums !! i = Some m ->
      exists ax sp0 start stop image0 image,
        signal_axes s = [ax] /\
        rois w1 !! r = Some sp0 /\
        rois w2 !! r = Some (replay es r sp0) /\
        span_indices (axis ax) (replay es r sp0) = (start, stop) /\
        signals w2 !! g = Some (sliced s ax (replay es r sp0)) /\
        signals w1 !! m = Some image0 /\
        signals w2 !! m = Some image /\
        navigation_axes image = navigation_axes image0 /\
        signal_axes image = signal_axes image0 /\
        data image = np_nansum_last (np_slice_last start stop (data s)) /\
        forall p, (p < positions (data s))%nat ->
          flat (data image) !! p =
            Some (Val (spectral_nansum_at (data s) start stop p)).
Proof.
  intros Hf Hsig Hvalid (Hrank & Hshaped) Hn Hcall Hes.
  destruct (plot_span_map_store w sig s nspans Hf Hsig Hvalid Hn)
    as (ax & first & rest & w1' & Hax & _ & Hrun & _ & _ & Hw & _).
  cbn zeta in *. rewrite Hrun in Hcall.
  injection Hcall as <- <- <- <- <-.
  destruct (apply_edits_wired sig s ax _ _ _ es w1' Hw Hes)
    as (w2 & Hrun2 & Hw2 & Hfr & Hrois & Himg).
  exists w2. split; [exact Hrun2|]. split; [exact Hfr|].
  intros i r g m Hr Hg Hm.
  apply lookup_map_seq_inv in Hr. destruct Hr as (Hi & ->).
  apply lookup_map_seq_inv in Hg. destruct Hg as (_ & ->).
  apply lookup_map_seq_inv in Hm. destruct Hm as (_ & ->).
  destruct Hw as (_ & _ & _ & Hl1). destruct (Hl1 i Hi)
    as (sp0 & image0 & Hr0 & _ & Hm0 & _).
  destruct Hw2 as (_ & _ & _ & Hl2). destruct (Hl2 i Hi)
    as (sp & image & Hr2 & Hg2 & Hm2 & _ & _ & Hd & _).
  pose proof (Hrois i sp0 Hi Hr0) as Hr2'. rewrite Hr2 in Hr2'.
  injection Hr2' as ->.
  destruct (Himg i image0 Hm0) as (image' & Hm2' & Hna & Hsa).
  rewrite Hm2 in Hm2'. injection Hm2' as <-.
  destruct (span_indices (axis ax) (replay es (length (rois w) + i) sp0))
    as [start stop] eqn:Hidx.
  exists ax, sp0, start, stop, image0, image.
  rewrite (data_sliced s ax _ start stop Hidx) in Hd.
  repeat (split; [assumption || reflexivity|]).
  intros p Hp. rewrite Hd. apply nansum_slice_at; [|exact Hshaped|exact Hp].
  destruct Hvalid as (Hsd & Hnd & _). rewrite Hsd, Hnd in Hrank.
  destruct (shape (data s)); [discriminate | congruence].
Qed.

(** ** Further properties of the call *)




(** X1: with the right dimensions but a spectral axis without any
    coordinate, the call fails with the index error of [ax_sig[-1]], before
    the navigator is computed: the store is left as it was. *)
Theorem empty_spectral_axis_raises_index_error w sig s nspans :
  signals w !! sig = Some s ->
  signal_dimension s = 1%nat ->
  navigation_dimension s = 2%nat ->
  (forall ax, ax ∈ signal_axes s -> axis ax = []) ->
  (nspans <= 3)%Z ->
  plot_span_map sig nspans w = (Raise IndexError, w).
Proof.
  intros Hsig Hsd Hnd Hempty Hn.
  unfold signal_dimension in Hsd.
  destruct (signal_axes s) as [|ax [|? ?]] eqn:Hax; try discriminate.
  apply (plot_span_map_no_data w sig s ax nspans Hn Hsig Hnd Hax).
  apply Hempty. apply list_elem_of_here.
Qed.




Lemma elem_of_map_seq {A} (f : nat -> A) k x :
  x ∈ map f (seq 0 k) -> exists i, (i < k)%nat /\ x = f i.
Proof.
  intros H. apply list_elem_of_lookup in H. destruct H as (i & Hi).
  apply lookup_map_seq_inv in Hi. exists i. exact Hi.
Qed.



(** ** Further properties of edits and of repeated calls *)

Lemma after_edit_back w s ax r g m sp0 mv sp' :
  g <> m ->
  rois w !! r = Some sp0 ->
  signals w !! g = Some (sliced s ax sp0) ->
  signals w !! m = Some mv ->
  data mv = np_nansum_last (data (sliced s ax sp0)) ->
  after_edit s ax r g m sp0
    {| navigation_axes := navigation_axes mv; signal_axes := signal_axes mv;
       data := np_nansum_last (data (sliced s ax sp')) |}
    (after_edit s ax r g m sp' mv w) = w.
Proof.
  intros Hgm Hr Hg Hm Hd. unfold after_edit. proj.
  cbn [navigation_axes signal_axes].
  rewrite (list_insert_insert_ne _ g m) by exact Hgm.
  rewrite !list_insert_insert_eq.
  rewrite (list_insert_id _ g) by exact Hg.
  rewrite <- Hd.
  replace {| navigation_axes := navigation_axes mv; signal_axes := signal_axes mv;
             data := data mv |} with mv by (destruct mv; reflexivity).
  rewrite (list_insert_id _ m) by exact Hm.
  rewrite (list_insert_id _ r) by exact Hr.
  destruct w; reflexivity.
Qed.

Lemma length_nansum_last a : length (flat (np_nansum_last a)) = positions a.
Proof.
  unfold np_nansum_last. cbn [flat]. rewrite length_map. unfold rows.
  apply chunks_length.
Qed.

Lemma positions_sliced s ax sp :
  positions (data (sliced s ax sp)) = positions (data s).
Proof.
  unfold sliced. destruct (span_indices (axis ax) sp). cbn [data].
  unfold positions. rewrite lead_shape_slice. reflexivity.
Qed.


(** X8: an edit of one span changes that span's range, its slice and its
    sum image, and nothing else: after any edits, one more edit of
    [spans[i]] runs to completion and leaves every other signal (the input,
    the navigator, the slices and images of the other spans), every other
    ROI, and all figures, widgets and bindings as they were. *)
Theorem edit_touches_one_span w sig s nspans all_sum spans span_sigs span_sums w1
    es i r g m e :
  fresh_connections w ->
  signals w !! sig = Some s ->
  valid_signal s ->
  (nspans <= 3)%Z ->
  plot_span_map sig nspans w = (Return (all_sum, spans, span_sigs, span_sums), w1) ->
  Forall (fun x => fst x ∈ spans) es ->
  spans !! i = Some r -> span_sigs !! i = Some g -> span_sums !! i = Some m ->
  exists w2 w3,
    apply_edits es w1 = (Return tt, w2) /\
    change_span r e w2 = (Return tt, w3) /\
    (forall x, x <> g -> x <> m -> signals w3 !! x = signals w2 !! x) /\
    signals w3 !! sig = signals w2 !! sig /\
    signals w3 !! all_sum = signals w2 !! all_sum /\
    (forall r', r' <> r -> rois w3 !! r' = rois w2 !! r') /\
    figures w3 = figures w2 /\
    widgets w3 = widgets w2 /\
    connections w3 = connections w2.
Proof.
  intros Hf Hsig Hvalid Hn Hcall Hes Hr Hg Hm.
  destruct (plot_span_map_store w sig s nspans Hf Hsig Hvalid Hn)
    as (ax & first & rest & w1' & Hax & _ & Hrun & _ & _ & Hw & _).
  cbn zeta in *. rewrite Hrun in Hcall.
  injection Hcall as <- <- <- <- <-.
  destruct (apply_edits_wired sig s ax _ _ _ es w1' Hw Hes)
    as (w2 & Hrun2 & Hw2 & _).
  apply lookup_map_seq_inv in Hr. destruct Hr as (Hi & ->).
  apply lookup_map_seq_inv in Hg. destruct Hg as (_ & ->).
  apply lookup_map_seq_inv in Hm. destruct Hm as (_ & ->).
  destruct Hw2 as (Hsig2 & Hax2 & Hlt & Hl).
  destruct (change_span_linked w2 sig s ax (length (rois w) + i)%nat
              (S (length (signals w)) + 3 * i)%nat
              (S (length (signals w)) + 3 * i + 2)%nat e Hsig2 Hax2
              ltac:(lia) ltac:(lia) ltac:(lia) (Hl i Hi))
    as (sp & mv & _ & _ & Hrun3).
  eexists w2, _. split; [exact Hrun2|]. split; [exact Hrun3|].
  unfold after_edit. proj.
  split; [|split; [|split; [|split]]]; try (repeat split; reflexivity).
  - intros x Hxg Hxm. rewrite !list_lookup_insert_ne by congruence. reflexivity.
  - rewrite !list_lookup_insert_ne by lia. reflexivity.
  - rewrite !list_lookup_insert_ne by lia. reflexivity.
  - intros r' Hr'. rewrite list_lookup_insert_ne by congruence. reflexivity.
Qed.

(** X9: moving a span and moving it back restores the store exactly:
    after any edits, an edit of [spans[i]] followed by setting its range
    back to the bounds it had gives back the same store, with the same
    slice and the same sum image. *)
Theorem edit_round_trip w sig s nspans all_sum spans span_sigs span_sums w1 es r e :
  fresh_connections w ->
  signals w !! sig = Some s ->
  valid_signal s ->
  (nspans <= 3)%Z ->
  plot_span_map sig nspans w = (Return (all_sum, spans, span_sigs, span_sums), w1) ->
  Forall (fun x => fst x ∈ spans) es ->
  r ∈ spans ->
  exists w2 sp0 w3,
    apply_edits es w1 = (Return tt, w2) /\
    rois w2 !! r = Some sp0 /\
    change_span r e w2 = (Return tt, w3) /\
    rois w3 !! r = Some (edited e sp0) /\
    change_span r (set_range (left sp0) (right sp0)) w3 = (Return tt, w2).
Proof.
  intros Hf Hsig Hvalid Hn Hcall Hes Hr.
  destruct (plot_span_map_store w sig s nspans Hf Hsig Hvalid Hn)
    as (ax & first & rest & w1' & Hax & _ & Hrun & _ & _ & Hw & _).
  cbn zeta in *. rewrite Hrun in Hcall.
  injection Hcall as <- <- <- <- <-.
  destruct (apply_edits_wired sig s ax _ _ _ es w1' Hw Hes)
    as (w2 & Hrun2 & Hw2 & _).
  destruct (elem_of_span_refs _ _ _ Hr) as (i & Hi & ->).
  destruct Hw2 as (Hsig2 & Hax2 & Hlt & Hl).
  set (r := (length (rois w) + i)%nat).
  set (g := (S (length (signals w)) + 3 * i)%nat).
  set (m := (S (length (signals w)) + 3 * i + 2)%nat).
  assert (Hli : linked w2 sig s ax r g m) by (apply Hl; exact Hi).
  assert (Hgm : g <> m) by (unfold g, m; lia).
  assert (Hsg : sig <> g) by (unfold g; lia).
  assert (Hsm : sig <> m) by (unfold m; lia).
  clearbody r g m.
  destruct (change_span_linked w2 sig s ax r g m e Hsig2 Hax2 Hsg Hsm Hgm Hli)
    as (sp0 & mv & Hr0 & Hm0 & Hrun3).
  pose proof (linked_after_edit_same w2 sig s ax r g m (edited e sp0) mv
                Hsig2 Hgm Hli Hm0) as Hli3.
  assert (Hsig3 : signals (after_edit s ax r g m (edited e sp0) mv w2) !! sig = Some s).
  { unfold after_edit. proj. rewrite !list_lookup_insert_ne by congruence. exact Hsig2. }
  destruct (change_span_linked _ sig s ax r g m (set_range (left sp0) (right sp0))
              Hsig3 Hax2 Hsg Hsm Hgm Hli3)
    as (sp3 & mv3 & Hr3 & Hm3 & Hrun4).
  pose proof (lookup_lt_Some _ _ _ Hr0) as Br.
  pose proof (lookup_lt_Some _ _ _ Hm0) as Bm.
  assert (Er : sp3 = edited e sp0).
  { unfold after_edit in Hr3. revert Hr3. proj.
    rewrite list_lookup_insert_eq by exact Br. congruence. }
  assert (Em : mv3 = {| navigation_axes := navigation_axes mv;
                        signal_axes := signal_axes mv;
                        data := np_nansum_last (data (sliced s ax (edited e sp0))) |}).
  { unfold after_edit in Hm3. revert Hm3. proj.
    rewrite list_lookup_insert_eq by (rewrite length_insert; exact Bm). congruence. }
  destruct Hli as (sp0' & mv' & Hr0' & Hg0 & Hm0' & _ & _ & Hd0 & _).
  rewrite Hr0 in Hr0'. injection Hr0' as <-.
  rewrite Hm0 in Hm0'. injection Hm0' as <-.
  exists w2, sp0, (after_edit s ax r g m (edited e sp0) mv w2).
  split; [exact Hrun2|]. split; [exact Hr0|]. split; [exact Hrun3|].
  split; [rewrite Hr3, Er; reflexivity|].
  rewrite Hrun4. f_equal. subst sp3 mv3. cbn [edited].
  replace {| left := left sp0; right := right sp0 |} with sp0
    by (destruct sp0; reflexivity).
  apply (after_edit_back w2 s ax r g m sp0 mv (edited e sp0) Hgm Hr0 Hg0 Hm0 Hd0).
Qed.

(** X10: whatever range a span takes, its sum image keeps one sample per
    spatial position: after any edits the image has no navigation axis,
    the two navigation axes of [sig] as signal axes, the spatial shape of
    [sig] as data shape and as many samples as [sig] has positions. *)
Theorem sum_image_keeps_spatial_shape w sig s nspans all_sum spans span_sigs span_sums
    w1 es :
  fresh_connections w ->
  signals w !! sig = Some s ->
  valid_signal s ->
  (nspans <= 3)%Z ->
  plot_span_map sig nspans w = (Return (all_sum, spans, span_sigs, span_sums), w1) ->
  Forall (fun x => fst x ∈ spans) es ->
  exists w2,
    apply_edits es w1 = (Return tt, w2) /\
    forall m, m ∈ span_sums ->
      exists image,
        signals w2 !! m = Some image /\
        navigation_axes image = [] /\
        signal_axes image = navigation_axes s /\
        shape (data image) = lead_shape (data s) /\
        length (flat (data image)) = positions (data s).
Proof.
  intros Hf Hsig Hvalid Hn Hcall Hes.
  destruct (plot_span_map_store w sig s nspans Hf Hsig Hvalid Hn)
    as (ax & first & rest & w1' & Hax & _ & Hrun & _ & _ & Hw & _).
  cbn zeta in *. rewrite Hrun in Hcall.
  injection Hcall as <- <- <- <- <-.
  destruct (apply_edits_wired sig s ax _ _ _ es w1' Hw Hes)
    as (w2 & Hrun2 & Hw2 & _).
  exists w2. split; [exact Hrun2|].
  intros m Hm. apply elem_of_map_seq in Hm. destruct Hm as (i & Hi & ->).
  destruct Hw2 as (_ & _ & _ & Hl).
  destruct (Hl i Hi) as (sp & image & _ & _ & Him & Hna & Hsa & Hd & _).
  exists image. split; [exact Him|]. split; [exact Hna|]. split; [exact Hsa|].
  rewrite Hd. split.
  - apply shape_sum_sliced.
  - rewrite length_nansum_last. apply positions_sliced.
Qed.


(** ** The call in binary64 *)

Lemma span_body_f64_run sig s sax first rest nx ny origin width all_sum j spans gs ms w :
  signals w !! sig = Some s ->
  signal_axes s = [sax] ->
  axis sax = first :: rest ->
  navigation_axes s = [nx; ny] ->
  as_float64 first = Some origin ->
  (j < 3)%nat ->
  span_body_f64 sig (axis sax) width all_sum (Z.of_nat j) (spans, gs, ms) w =
  match span_outcome origin width (Z.of_nat j) with
  | Return sp =>
      (Return (spans ++ [length (rois w)], gs ++ [length (signals w)],
               ms ++ [length (signals w) + 2]%nat),
       after_span sig s sax all_sum j sp w)
  | Raise e => (Raise e, w)
  end.
Proof.
  intros Hsig Hax Hcoords Hnav Horigin Hj.
  pose proof (color_of_lookup j Hj) as Hcol.
  assert (Hi : (0 <= Z.of_nat j)%Z) by lia.
  rewrite <- (Nat2Z.id j) in Hcol at 1.
  unfold span_body_f64, span_outcome. rewrite Hcoords.
  step. destruct (float_of_int (Z.of_nat j)) as [fi|]; [|reflexivity].
  unfold expect at 1, ret at 1.
  step. rewrite py_index_0.
  step. rewrite Horigin. unfold expect at 1, ret at 1.
  step. destruct (float_of_int (Z.of_nat j + 1)) as [fi1|]; [|reflexivity].
  unfold expect at 1, ret at 1.
  step. rewrite py_index_0.
  step. rewrite Horigin. unfold expect at 1, ret at 1.
  step. unfold checked_SpanROI at 1.
  step. destruct (float_value (PrimFloat.add (PrimFloat.mul fi width) origin)) as [l|];
    [|reflexivity].
  unfold expect at 1, ret at 1.
  step. destruct (float_value (PrimFloat.add (PrimFloat.mul fi1 width) origin)) as [r|];
    [|reflexivity].
  unfold expect at 1, ret at 1.
  destruct (Qle_bool r l); [reflexivity|].
  set (sp := {| left := l; right := r |}).
  set (gv := sliced s sax sp).
  destruct (signal_axes_sliced s sax sp) as [ax' Hax'].
  pose proof (navigation_axes_sliced s sax sp) as Hnav'. rewrite Hnav in Hnav'.
  fold gv in Hax', Hnav'.
  unfold new_SpanROI at 1. proj.
  step. rewrite (py_index_nat _ _ _ _ Hi Hcol).
  step. rewrite (py_index_nat _ _ _ _ Hi Hcol).
  step. unfold add_widget at 1. proj.
  (* the span slice *)
  step. unfold interactive at 1, eval.
  step. step. unfold get_roi at 1. proj. rewrite lookup_app_here. cbn [lookup list_lookup].
  step. unfold get_signal at 1. proj. rewrite Hsig.
  unfold lift at 1. rewrite (roi_value_sliced _ _ _ Hax).
  fold sp. fold gv.
  step. unfold new_signal at 1. proj.
  step. unfold connect at 1. proj. unfold ret at 1.
  (* its spectral sum, as an image *)
  step. unfold nansum at 1.
  step. unfold get_signal at 1. proj. rewrite lookup_app_here. cbn [lookup list_lookup].
  step. unfold lift at 1, nansum_value. rewrite Hax', Hnav'.
  unfold new_signal at 1. proj.
  step. unfold as_signal2D at 1.
  step. unfold get_signal at 1. proj.
  rewrite length_app. cbn [length]. rewrite <- app_assoc. cbn [app].
  rewrite (lookup_app_plus _ _ 1). cbn [lookup list_lookup].
  step. unfold lift at 1, as_signal2D_value.
  cbn [navigation_axes signal_axes data].
  unfold new_signal at 1. proj.
  step. unfold plot at 1. proj.
  (* the binding from the slice to the sum *)
  step. unfold interactive at 1, eval.
  step. step. unfold get_signal at 1. proj.
  rewrite <- !app_assoc. cbn [app]. rewrite lookup_app_here. cbn [lookup list_lookup].
  unfold lift at 1, nansum_value. rewrite Hax', Hnav'.
  step. step. unfold store_out at 1.
  step. unfold get_signal at 1. proj.
  rewrite !length_app. cbn [length].
  replace (length (signals w) + 1 + 1)%nat with (length (signals w) + 2)%nat by lia.
  rewrite (lookup_app_plus _ _ 2). cbn [lookup list_lookup].
  cbn [data shape navigation_axes signal_axes].
  unfold shape_eqb. rewrite bool_decide_eq_true_2 by reflexivity.
  step. unfold put_signal at 1. proj.
  unfold ret at 1. step. unfold for_each, ret at 1.
  step. unfold connect at 1. proj. unfold ret at 1. unfold ret.
  rewrite list_insert_id by (rewrite (lookup_app_plus _ _ 2); reflexivity).
  proj. rewrite <- !app_assoc. cbn [app].
  unfold after_span, cmap_of. rewrite Hnav. fold sp. fold gv. reflexivity.
Qed.

Lemma span_outcome_Return origin width i sp :
  span_outcome origin width i = Return sp ->
  exists fi fi1,
    float_of_int i = Some fi /\ float_of_int (i + 1) = Some fi1 /\
    float_value (PrimFloat.add (PrimFloat.mul fi width) origin) = Some (left sp) /\
    float_value (PrimFloat.add (PrimFloat.mul fi1 width) origin) = Some (right sp) /\
    (left sp < right sp)%Q.
Proof.
  unfold span_outcome. intros H.
  destruct (float_of_int i) as [fi|]; [|discriminate].
  destruct (float_of_int (i + 1)) as [fi1|]; [|discriminate].
  destruct (float_value (PrimFloat.add (PrimFloat.mul fi width) origin)) as [l|] eqn:El;
    [|discriminate].
  destruct (float_value (PrimFloat.add (PrimFloat.mul fi1 width) origin)) as [r|] eqn:Er;
    [|discriminate].
  destruct (Qle_bool r l) eqn:E; [discriminate|].
  injection H as <-. exists fi, fi1. cbn [left right].
  split; [reflexivity|]. split; [reflexivity|]. split; [exact El|]. split; [exact Er|].
  apply Qnot_le_lt. intros Hle. apply Qle_bool_iff in Hle. congruence.
Qed.

Lemma span_outcome_Raise origin width i e :
  span_outcome origin width i = Raise e ->
  e = OverflowError \/ e = Unmodelled \/ exists l r, e = ValueError (span_error l r).
Proof.
  unfold span_outcome. intros H.
  destruct (float_of_int i) as [fi|]; [|left; congruence].
  destruct (float_of_int (i + 1)) as [fi1|]; [|left; congruence].
  destruct (float_value (PrimFloat.add (PrimFloat.mul fi width) origin)) as [l|];
    [|right; left; congruence].
  destruct (float_value (PrimFloat.add (PrimFloat.mul fi1 width) origin)) as [r|];
    [|right; left; congruence].
  destruct (Qle_bool r l); [|discriminate].
  right; right. exists l, r. congruence.
Qed.

Lemma spans_outcome_Raise origin width iters : forall sps e,
  spans_outcome origin width iters = (sps, Some e) ->
  e = OverflowError \/ e = Unmodelled \/ exists l r, e = ValueError (span_error l r).
Proof.
  induction iters as [|i iters IH]; intros sps e H; [discriminate|].
  cbn [spans_outcome] in H.
  destruct (span_outcome origin width i) as [sp|e'] eqn:E.
  - destruct (spans_outcome origin width iters) as [sps' e''].
    injection H as <- ->. eapply IH. reflexivity.
  - injection H as <- <-. eapply span_outcome_Raise. exact E.
Qed.

Lemma spans_outcome_in_order origin width iters : forall sps e,
  spans_outcome origin width iters = (sps, e) ->
  forall sp, sp ∈ sps -> (left sp < right sp)%Q.
Proof.
  induction iters as [|i iters IH]; intros sps e H sp Hsp.
  - injection H as <- <-. apply elem_of_nil in Hsp. destruct Hsp.
  - cbn [spans_outcome] in H.
    destruct (span_outcome origin width i) as [sp0|e'] eqn:E.
    + destruct (spans_outcome origin width iters) as [sps' e''] eqn:E'.
      injection H as <- <-.
      apply elem_of_cons in Hsp. destruct Hsp as [->|Hsp].
      * destruct (span_outcome_Return _ _ _ _ E) as (? & ? & _ & _ & _ & _ & Hlt). exact Hlt.
      * eapply IH; eauto.
    + injection H as <- <-. apply elem_of_nil in Hsp. destruct Hsp.
Qed.

Lemma spans_outcome_all origin width : forall iters sps,
  Forall2 (fun i sp => span_outcome origin width i = Return sp) iters sps ->
  spans_outcome origin width iters = (sps, None).
Proof.
  intros iters sps H. induction H as [|i sp iters sps Hi _ IH]; [reflexivity|].
  cbn [spans_outcome]. rewrite Hi, IH. reflexivity.
Qed.

Lemma spans_outcome_stop origin width iters i e : forall iters' sps,
  Forall2 (fun i sp => span_outcome origin width i = Return sp) iters sps ->
  span_outcome origin width i = Raise e ->
  spans_outcome origin width (iters ++ i :: iters') = (sps, Some e).
Proof.
  intros iters' sps H He. induction H as [|i0 sp iters sps Hi _ IH].
  - cbn [app spans_outcome]. rewrite He. reflexivity.
  - cbn [app spans_outcome]. rewrite Hi, IH. reflexivity.
Qed.

(** The store after some iterations *)

Lemma rois_after_spans sig s ax all_sum sps : forall j w,
  rois (after_spans sig s ax all_sum j sps w) = rois w ++ sps.
Proof.
  induction sps as [|sp sps IH]; intros j w; cbn [after_spans].
  - rewrite app_nil_r. reflexivity.
  - rewrite IH. unfold after_span. proj. rewrite <- app_assoc. reflexivity.
Qed.

Lemma signals_after_spans sig s ax all_sum sps : forall j w,
  length (signals (after_spans sig s ax all_sum j sps w)) =
    (length (signals w) + 3 * length sps)%nat /\
  forall i, (i < length (signals w))%nat ->
    signals (after_spans sig s ax all_sum j sps w) !! i = signals w !! i.
Proof.
  induction sps as [|sp sps IH]; intros j w; cbn [after_spans length].
  - split; [lia | reflexivity].
  - destruct (IH (S j) (after_span sig s ax all_sum j sp w)) as (Hlen & Hold).
    assert (Hl : length (signals (after_span sig s ax all_sum j sp w)) =
                 (length (signals w) + 3)%nat).
    { unfold after_span. proj. rewrite length_app. reflexivity. }
    rewrite Hl in Hlen, Hold. split; [lia|].
    intros i Hi. rewrite Hold by lia.
    unfold after_span. proj. apply lookup_app_l. exact Hi.
Qed.

Lemma displays_after_spans sig s ax all_sum sps : forall j w,
  length (figures (after_spans sig s ax all_sum j sps w)) =
    (length (figures w) + length sps)%nat /\
  length (widgets (after_spans sig s ax all_sum j sps w)) =
    (length (widgets w) + length sps)%nat /\
  length (connections (after_spans sig s ax all_sum j sps w)) =
    (length (connections w) + 2 * length sps)%nat.
Proof.
  induction sps as [|sp sps IH]; intros j w; cbn [after_spans length].
  - repeat split; lia.
  - destruct (IH (S j) (after_span sig s ax all_sum j sp w)) as (Hf & Hw & Hc).
    rewrite Hf, Hw, Hc. unfold after_span. proj. rewrite !length_app. cbn [length].
    repeat split; lia.
Qed.

Lemma refs_cons r0 n0 k :
  span_refs r0 (S k) = r0 :: span_refs (r0 + 1) k /\
  slice_refs n0 (S k) = n0 :: slice_refs (n0 + 3) k /\
  sum_refs n0 (S k) = (n0 + 2)%nat :: sum_refs (n0 + 3) k.
Proof.
  unfold span_refs, slice_refs, sum_refs. cbn [seq map].
  rewrite <- !seq_shift, !map_map.
  repeat split; (f_equal; [lia | apply map_ext; intros i; lia]).
Qed.

(** The loop: it runs until [SpanROI] refuses bounds, or to its end. *)
Lemma loop_f64_run sig s ax first rest nx ny origin width all_sum :
  signal_axes s = [ax] ->
  axis ax = first :: rest ->
  navigation_axes s = [nx; ny] ->
  as_float64 first = Some origin ->
  forall k j w spans gs ms,
  (j + k <= 3)%nat ->
  signals w !! sig = Some s ->
  for_fold (map Z.of_nat (seq j k)) (span_body_f64 sig (axis ax) width all_sum)
    (spans, gs, ms) w =
  (match snd (spans_outcome origin width (map Z.of_nat (seq j k))) with
   | None =>
       let n := length (fst (spans_outcome origin width (map Z.of_nat (seq j k)))) in
       Return (spans ++ span_refs (length (rois w)) n,
               gs ++ slice_refs (length (signals w)) n,
               ms ++ sum_refs (length (signals w)) n)
   | Some e => Raise e
   end,
   after_spans sig s ax all_sum j
     (fst (spans_outcome origin width (map Z.of_nat (seq j k)))) w).
Proof.
  intros Hax Hcoords Hnav Horigin.
  induction k as [|k IH]; intros j w spans gs ms Hjk Hsig.
  - cbn. unfold ret, span_refs, slice_refs, sum_refs. cbn. rewrite !app_nil_r. reflexivity.
  - cbn [seq map for_fold spans_outcome]. unfold bind.
    rewrite (span_body_f64_run sig s ax first rest nx ny origin width all_sum j
               spans gs ms w Hsig Hax Hcoords Hnav Horigin ltac:(lia)).
    destruct (span_outcome origin width (Z.of_nat j)) as [sp|e] eqn:E; [|reflexivity].
    assert (Hsig' : signals (after_span sig s ax all_sum j sp w) !! sig = Some s).
    { unfold after_span. proj. rewrite lookup_app_l; [exact Hsig|].
      eapply lookup_lt_Some; eauto. }
    rewrite (IH (S j) _ _ _ _ ltac:(lia) Hsig').
    destruct (spans_outcome origin width (map Z.of_nat (seq (S j) k))) as [sps e] eqn:E'.
    cbn [fst snd after_spans length].
    destruct e as [e|]; [reflexivity|].
    cbn zeta.
    destruct (refs_cons (length (rois w)) (length (signals w)) (length sps))
      as (-> & -> & ->).
    unfold after_span. proj. rewrite !length_app. cbn [length].
    rewrite <- !app_assoc. reflexivity.
Qed.

(** The failing paths *)

Lemma plot_span_map_f64_too_many w sig nspans :
  (3 < nspans)%Z ->
  plot_span_map_f64 sig nspans w =
    (Raise (ValueError "Maximum number of spans allowed is 3"), w).
Proof.
  intros H. unfold plot_span_map_f64.
  replace (nspans >? 3)%Z with true
    by (symmetry; rewrite Z.gtb_ltb; apply Z.ltb_lt; lia).
  reflexivity.
Qed.

Lemma valid_input_inv s :
  valid_input s ->
  exists nx ny ax first rest,
    navigation_axes s = [nx; ny] /\ signal_axes s = [ax] /\ axis ax = first :: rest.
Proof. intros (Hv & _). apply valid_signal_inv. exact Hv. Qed.

(** Up to the loop: the dimensions are checked, the two coordinates are
    read, the divisor is converted, the navigator is computed and
    plotted. *)
Lemma plot_span_map_f64_start w sig s ax first rest nspans :
  signals w !! sig = Some s ->
  valid_input s ->
  signal_axes s = [ax] ->
  axis ax = first :: rest ->
  (nspans <= 3)%Z ->
  plot_span_map_f64 sig nspans w =
  match as_float64 (List.last rest first), as_float64 first with
  | Some f_last, Some f_first =>
      match float_of_int (2 * nspans) with
      | Some divisor =>
          (st <- for_fold (range nspans)
                   (span_body_f64 sig (axis ax)
                      (PrimFloat.div (PrimFloat.sub f_last f_first) divisor)
                      (length (signals w))) ([], [], []) ;;
           let '(spans, span_sigs, span_sums) := st in
           ret (length (signals w), spans, span_sigs, span_sums)) (after_navigator s w)
      | None => (Raise OverflowError, w)
      end
  | _, _ => (Raise Unmodelled, w)
  end.
Proof.
  intros Hsig ((Hsd & Hnd & _) & Hrd) Hax Hcoords Hn.
  unfold plot_span_map_f64.
  replace (nspans >? 3)%Z with false by (symmetry; rewrite Z.gtb_ltb; apply Z.ltb_ge; lia).
  step. unfold get_signal at 1. rewrite Hsig.
  rewrite Hrd, Hnd. cbn [Nat.eqb negb orb].
  rewrite Hax. step. rewrite py_index_0. rewrite Hcoords.
  step. rewrite py_index_last.
  step. destruct (as_float64 (List.last rest first)) as [f_last|]; [|reflexivity].
  unfold expect at 1, ret at 1.
  step. rewrite py_index_0.
  step. destruct (as_float64 first) as [f_first|]; [|reflexivity].
  unfold expect at 1, ret at 1.
  step. destruct (float_of_int (2 * nspans)) as [divisor|]; [|reflexivity].
  unfold expect at 1, ret at 1.
  step. unfold nansum at 1.
  step. unfold get_signal at 1. rewrite Hsig.
  step. unfold lift at 1, nansum_value. unfold new_signal at 1. proj.
  step. unfold plot at 1. proj.
  unfold after_navigator, navigator. rewrite Hax. reflexivity.
Qed.

(** The whole call on a valid input with binary64 coordinates. *)
Lemma plot_span_map_f64_run w sig s ax first rest nspans f_first f_last divisor :
  signals w !! sig = Some s ->
  valid_input s ->
  signal_axes s = [ax] ->
  axis ax = first :: rest ->
  (nspans <= 3)%Z ->
  as_float64 first = Some f_first ->
  as_float64 (List.last rest first) = Some f_last ->
  float_of_int (2 * nspans) = Some divisor ->
  let width := PrimFloat.div (PrimFloat.sub f_last f_first) divisor in
  let n0 := length (signals w) in
  plot_span_map_f64 sig nspans w =
  (match snd (spans_outcome f_first width (range nspans)) with
   | None =>
       let n := length (fst (spans_outcome f_first width (range nspans))) in
       Return (n0, span_refs (length (rois w)) n, slice_refs (S n0) n, sum_refs (S n0) n)
   | Some e => Raise e
   end,
   after_spans sig s ax n0 0 (fst (spans_outcome f_first width (range nspans)))
     (after_navigator s w)).
Proof.
  intros Hsig Hvalid Hax Hcoords Hn Hfirst Hlast Hdiv width n0.
  destruct (valid_input_inv s Hvalid) as (nx & ny & ax' & first' & rest' & Hnav & Hax' & _).
  rewrite (plot_span_map_f64_start w sig s ax first rest nspans Hsig Hvalid Hax Hcoords Hn).
  rewrite Hlast, Hfirst, Hdiv. fold width. fold n0.
  assert (Hsig' : signals (after_navigator s w) !! sig = Some s).
  { unfold after_navigator. proj. rewrite lookup_app_l; [exact Hsig|].
    eapply lookup_lt_Some; eauto. }
  unfold bind, range.
  rewrite (loop_f64_run sig s ax first rest nx ny f_first width n0 Hax Hcoords Hnav Hfirst
             (Z.to_nat nspans) 0%nat (after_navigator s w) [] [] [] ltac:(lia) Hsig').
  destruct (spans_outcome f_first width (map Z.of_nat (seq 0 (Z.to_nat nspans))))
    as [sps e].
  cbn [fst snd]. destruct e as [e|]; [reflexivity|].
  cbn zeta. unfold ret. cbn [app].
  unfold after_navigator at 1 2 3. proj. rewrite length_app. cbn [length].
  rewrite Nat.add_1_r. reflexivity.
Qed.

Lemma plot_span_map_f64_dangling w sig nspans :
  (nspans <= 3)%Z ->
  signals w !! sig = None ->
  plot_span_map_f64 sig nspans w = (Raise ReferenceError, w).
Proof.
  intros H Hsig. unfold plot_span_map_f64.
  replace (nspans >? 3)%Z with false
    by (symmetry; rewrite Z.gtb_ltb; apply Z.ltb_ge; lia).
  unfold bind at 1. unfold get_signal at 1. rewrite Hsig. reflexivity.
Qed.

Lemma plot_span_map_f64_bad_dims w sig s nspans :
  (nspans <= 3)%Z ->
  signals w !! sig = Some s ->
  reported_signal_dimension s <> 1%nat \/ navigation_dimension s <> 2%nat ->
  plot_span_map_f64 sig nspans w =
    (Raise (ValueError (dimension_message (reported_signal_dimension s)
                          (navigation_dimension s))), w).
Proof.
  intros H Hsig Hdims. unfold plot_span_map_f64.
  replace (nspans >? 3)%Z with false
    by (symmetry; rewrite Z.gtb_ltb; apply Z.ltb_ge; lia).
  unfold bind at 1. unfold get_signal at 1. rewrite Hsig.
  replace (negb (reported_signal_dimension s =? 1)%nat
           || negb (navigation_dimension s =? 2)%nat)%bool
    with true; [reflexivity|].
  symmetry. apply orb_true_iff.
  destruct Hdims as [Hd|Hd]; [left|right];
    apply negb_true_iff, Nat.eqb_neq; exact Hd.
Qed.

Lemma reported_one s :
  reported_signal_dimension s = 1%nat ->
  exists ax, signal_axes s = [ax] /\ length (axis ax) <> 1%nat.
Proof.
  unfold reported_signal_dimension. intros H.
  destruct (signal_axes s) as [|ax [|? ?]]; try discriminate.
  exists ax. split; [reflexivity|].
  destruct (length (axis ax) =? 1)%nat eqn:E; [discriminate|].
  apply Nat.eqb_neq. exact E.
Qed.

Lemma plot_span_map_f64_no_data w sig s ax nspans :
  (nspans <= 3)%Z ->
  signals w !! sig = Some s ->
  navigation_dimension s = 2%nat ->
  signal_axes s = [ax] ->
  axis ax = [] ->
  plot_span_map_f64 sig nspans w = (Raise IndexError, w).
Proof.
  intros H Hsig Hnd Hax Hempty. unfold plot_span_map_f64.
  replace (nspans >? 3)%Z with false
    by (symmetry; rewrite Z.gtb_ltb; apply Z.ltb_ge; lia).
  unfold bind at 1. unfold get_signal at 1. rewrite Hsig.
  unfold reported_signal_dimension. rewrite Hax, Hempty, Hnd.
  cbn [length Nat.eqb negb orb].
  unfold bind at 1. rewrite py_index_0. rewrite Hempty.
  unfold bind at 1. rewrite py_index_nil. reflexivity.
Qed.

(** No failure of a call with [nspans <= 3] is the span-count error. *)
Lemma plot_span_map_f64_other w sig nspans :
  (forall l r, span_error l r <> "Maximum number of spans allowed is 3") ->
  (nspans <= 3)%Z ->
  fst (plot_span_map_f64 sig nspans w) <>
    Raise (ValueError "Maximum number of spans allowed is 3").
Proof.
  intros Hother Hn.
  destruct (signals w !! sig) as [s|] eqn:Hsig.
  2:{ rewrite plot_span_map_f64_dangling by assumption. discriminate. }
  destruct (decide (reported_signal_dimension s = 1%nat)) as [Hrd|Hrd].
  2:{ rewrite (plot_span_map_f64_bad_dims w sig s nspans Hn Hsig) by (left; exact Hrd).
      cbn [fst]. intros E.
      apply (dimension_message_other (reported_signal_dimension s) (navigation_dimension s)).
      congruence. }
  destruct (decide (navigation_dimension s = 2%nat)) as [Hnd|Hnd].
  2:{ rewrite (plot_span_map_f64_bad_dims w sig s nspans Hn Hsig) by (right; exact Hnd).
      cbn [fst]. intros E.
      apply (dimension_message_other (reported_signal_dimension s) (navigation_dimension s)).
      congruence. }
  destruct (reported_one s Hrd) as (ax & Hax & _).
  destruct (axis ax) as [|first rest] eqn:Hcoords.
  { rewrite (plot_span_map_f64_no_data w sig s ax nspans) by assumption. discriminate. }
  assert (Hvalid : valid_input s).
  { split; [|exact Hrd]. split; [unfold signal_dimension; rewrite Hax; reflexivity|].
    split; [exact Hnd|].
    intros ax' Hin. rewrite Hax in Hin. apply list_elem_of_In in Hin.
    destruct Hin as [<-|[]]. rewrite Hcoords. discriminate. }
  destruct (as_float64 first) as [f_first|] eqn:Hfirst.
  2:{ rewrite (plot_span_map_f64_start w sig s ax first rest nspans) by assumption.
      rewrite Hfirst. destruct (as_float64 (List.last rest first)); discriminate. }
  destruct (as_float64 (List.last rest first)) as [f_last|] eqn:Hlast.
  2:{ rewrite (plot_span_map_f64_start w sig s ax first rest nspans) by assumption.
      rewrite Hlast. discriminate. }
  destruct (float_of_int (2 * nspans)) as [divisor|] eqn:Hdiv.
  2:{ rewrite (plot_span_map_f64_start w sig s ax first rest nspans) by assumption.
      rewrite Hlast, Hfirst, Hdiv. discriminate. }
  rewrite (plot_span_map_f64_run w sig s ax first rest nspans f_first f_last divisor)
    by assumption.
  cbn [fst].
  destruct (spans_outcome f_first (PrimFloat.div (PrimFloat.sub f_last f_first) divisor)
              (range nspans)) as [sps [e|]] eqn:E; cbn [fst snd]; [|discriminate].
  destruct (spans_outcome_Raise _ _ _ _ _ E) as [->|[->|(l & r & ->)]]; try discriminate.
  intros E'. apply (Hother l r). congruence.
Qed.

(** ** Facts about binary64 *)

Lemma as_float64_value q f :
  as_float64 q = Some f -> exists v, float_value f = Some v /\ (v == q)%Q.
Proof.
  unfold as_float64.
  set (c := FloatOps.SF2Prim _).
  destruct (float_value c) as [v|] eqn:E; [|discriminate].
  destruct (Qeq_bool v q) eqn:Eq; [|discriminate].
  intros H. injection H as <-. exists v. split; [exact E|].
  apply Qeq_bool_iff. exact Eq.
Qed.

Lemma float_of_int_0 f : float_of_int 0 = Some f -> FloatOps.Prim2SF f = SpecFloat.S754_zero false.
Proof. intros H. vm_compute in H. injection H as <-. reflexivity. Qed.

(** [0 * w + x] has the value of [x], whenever it has a value. *)
Lemma zero_times_plus (f0 w o : PrimFloat.float) x :
  FloatOps.Prim2SF f0 = SpecFloat.S754_zero false ->
  float_value (PrimFloat.add (PrimFloat.mul f0 w) o) = Some x ->
  float_value o = Some x.
Proof.
  unfold float_value. intros H0.
  rewrite FloatAxioms.add_spec, FloatAxioms.mul_spec, H0.
  unfold FloatAxioms.SF64add, FloatAxioms.SF64mul.
  destruct (FloatOps.Prim2SF w) as [sw|sw| |sw mw ew];
  destruct (FloatOps.Prim2SF o) as [so|so| |so mo eo]; cbn.
  all: try discriminate.
  all: try (intros H; exact H).
  all: destruct sw, so; cbn; intros H; exact H.
Qed.

(** The conversion of an [int]: below [2^53] in magnitude it has a float,
    from [2^1024] on it has none. *)

Lemma digits2_pos_iter m d :
  SpecFloat.digits2_pos (Pos.iter xO m d) = (SpecFloat.digits2_pos m + d)%positive.
Proof.
  induction d as [|d IH] using Pos.peano_ind.
  - cbn. lia.
  - rewrite Pos.iter_succ. cbn [SpecFloat.digits2_pos]. rewrite IH. lia.
Qed.

Lemma digits2_pos_lower m :
  (2 ^ (Zpos (SpecFloat.digits2_pos m) - 1) <= Zpos m)%Z.
Proof.
  induction m as [m IH|m IH|]; cbn [SpecFloat.digits2_pos].
  - rewrite Pos2Z.inj_succ. replace (Z.succ (Zpos (SpecFloat.digits2_pos m)) - 1)%Z
      with (Z.succ (Zpos (SpecFloat.digits2_pos m) - 1))%Z by lia.
    rewrite Z.pow_succ_r by lia. lia.
  - rewrite Pos2Z.inj_succ. replace (Z.succ (Zpos (SpecFloat.digits2_pos m)) - 1)%Z
      with (Z.succ (Zpos (SpecFloat.digits2_pos m) - 1))%Z by lia.
    rewrite Z.pow_succ_r by lia. lia.
  - cbn. lia.
Qed.

Lemma digits2_pos_small m :
  (Zpos m < 2 ^ 53)%Z -> (Zpos (SpecFloat.digits2_pos m) <= 53)%Z.
Proof.
  intros H. pose proof (digits2_pos_lower m) as L.
  destruct (Z_le_gt_dec (Zpos (SpecFloat.digits2_pos m)) 53) as [Hle|Hgt]; [exact Hle|].
  exfalso.
  assert (2 ^ 53 <= 2 ^ (Zpos (SpecFloat.digits2_pos m) - 1))%Z
    by (apply Z.pow_le_mono_r; lia).
  lia.
Qed.

Lemma binary_round_small s m :
  (Zpos m < 2 ^ 53)%Z ->
  exists mz ez, SpecFloat.binary_round FloatOps.prec FloatOps.emax s m 0 =
                SpecFloat.S754_finite s mz ez.
Proof.
  intros H. pose proof (digits2_pos_small m H) as Hd.
  unfold SpecFloat.binary_round.
  set (D := SpecFloat.digits2_pos m) in *.
  assert (Hfexp : SpecFloat.fexp FloatOps.prec FloatOps.emax (Zpos D + 0) = (Zpos D - 53)%Z).
  { unfold SpecFloat.fexp, SpecFloat.emin, FloatOps.prec, FloatOps.emax. lia. }
  rewrite Hfexp.
  assert (Haligned : exists mz ez,
            SpecFloat.shl_align m 0 (Zpos D - 53) = (mz, ez) /\
            (Zpos (SpecFloat.digits2_pos mz) + ez = Zpos D)%Z /\
            Zpos (SpecFloat.digits2_pos mz) = 53%Z).
  { unfold SpecFloat.shl_align.
    destruct (Zpos D - 53 - 0)%Z as [|p|p] eqn:E.
    - exists m, 0%Z. fold D. split; [reflexivity|]. lia.
    - lia.
    - exists (Pos.iter xO m p), (Zpos D - 53)%Z. split; [reflexivity|].
      rewrite digits2_pos_iter. fold D. lia. }
  destruct Haligned as (mz & ez & -> & Hsum & H53).
  exists mz, ez.
  unfold SpecFloat.binary_round_aux.
  assert (Hshr : SpecFloat.shr_fexp FloatOps.prec FloatOps.emax (Zpos mz) ez SpecFloat.loc_Exact
                 = ({| SpecFloat.shr_m := Zpos mz; SpecFloat.shr_r := false;
                       SpecFloat.shr_s := false |}, ez)).
  { unfold SpecFloat.shr_fexp. cbn [SpecFloat.Zdigits2]. rewrite H53.
    replace (SpecFloat.fexp FloatOps.prec FloatOps.emax (53 + ez) - ez)%Z with 0%Z
      by (unfold SpecFloat.fexp, SpecFloat.emin, FloatOps.prec, FloatOps.emax; lia).
    reflexivity. }
  rewrite Hshr. cbn [SpecFloat.shr_m SpecFloat.loc_of_shr_record SpecFloat.round_nearest_even].
  rewrite Hshr. cbn [SpecFloat.shr_m].
  replace (ez <=? FloatOps.emax - FloatOps.prec)%Z with true; [reflexivity|].
  symmetry. apply Z.leb_le. unfold FloatOps.prec, FloatOps.emax. lia.
Qed.

Lemma float_of_int_small z :
  (Z.abs z < 2 ^ 53)%Z -> exists f, float_of_int z = Some f.
Proof.
  intros H. unfold float_of_int.
  destruct z as [|m|m]; cbn [SpecFloat.binary_normalize].
  - eexists. reflexivity.
  - destruct (binary_round_small false m) as (mz & ez & ->); [exact H|]. eexists. reflexivity.
  - destruct (binary_round_small true m) as (mz & ez & ->); [exact H|]. eexists. reflexivity.
Qed.

Lemma digits2_pos_upper m :
  (Zpos m < 2 ^ Zpos (SpecFloat.digits2_pos m))%Z.
Proof.
  induction m as [m IH|m IH|]; cbn [SpecFloat.digits2_pos].
  - rewrite Pos2Z.inj_succ, Z.pow_succ_r by lia. lia.
  - rewrite Pos2Z.inj_succ, Z.pow_succ_r by lia. lia.
  - cbn. lia.
Qed.

Lemma shr_1_m mrs :
  (0 <= SpecFloat.shr_m mrs)%Z ->
  SpecFloat.shr_m (SpecFloat.shr_1 mrs) = (SpecFloat.shr_m mrs / 2)%Z.
Proof.
  destruct mrs as [m r s]. cbn [SpecFloat.shr_m SpecFloat.shr_1]. intros H.
  destruct m as [|[p|p|]|p]; cbn [SpecFloat.shr_m]; try lia.
  - reflexivity.
  - rewrite Pos2Z.inj_xI.
    apply Z.div_unique with 1%Z; lia.
  - rewrite Pos2Z.inj_xO.
    apply Z.div_unique with 0%Z; lia.
  - reflexivity.
Qed.

Lemma iter_shr_1_m p : forall mrs,
  (0 <= SpecFloat.shr_m mrs)%Z ->
  SpecFloat.shr_m (SpecFloat.iter_pos SpecFloat.shr_1 p mrs)
  = (SpecFloat.shr_m mrs / 2 ^ Zpos p)%Z.
Proof.
  induction p as [p IH|p IH|]; intros mrs H; cbn [SpecFloat.iter_pos].
  - assert (H1 : (0 <= SpecFloat.shr_m (SpecFloat.shr_1 mrs))%Z).
    { rewrite shr_1_m by exact H. apply Z.div_pos; lia. }
    assert (H2 : (0 <= SpecFloat.shr_m
                         (SpecFloat.iter_pos SpecFloat.shr_1 p (SpecFloat.shr_1 mrs)))%Z).
    { rewrite IH by exact H1. apply Z.div_pos; [exact H1 | apply Z.pow_pos_nonneg; lia]. }
    rewrite IH by exact H2. rewrite IH by exact H1. rewrite shr_1_m by exact H.
    rewrite !Z.div_div by (try apply Z.pow_pos_nonneg; lia).
    replace (2 ^ Zpos p~1)%Z with (2 * (2 ^ Zpos p * 2 ^ Zpos p))%Z; [reflexivity|].
    rewrite <- Z.pow_add_r by lia. rewrite <- Z.pow_succ_r by lia. f_equal. lia.
  - assert (H2 : (0 <= SpecFloat.shr_m (SpecFloat.iter_pos SpecFloat.shr_1 p mrs))%Z).
    { rewrite IH by exact H. apply Z.div_pos; [exact H | apply Z.pow_pos_nonneg; lia]. }
    rewrite IH by exact H2. rewrite IH by exact H.
    rewrite !Z.div_div by (try apply Z.pow_pos_nonneg; lia).
    replace (2 ^ Zpos p~0)%Z with (2 ^ Zpos p * 2 ^ Zpos p)%Z; [reflexivity|].
    rewrite <- Z.pow_add_r by lia. f_equal. lia.
  - rewrite shr_1_m by exact H. reflexivity.
Qed.

Lemma shr_fexp_large m e l :
  (0 < m)%Z ->
  (972 <= e)%Z ->
  exists mrs e',
    SpecFloat.shr_fexp FloatOps.prec FloatOps.emax m e l = (mrs, e') /\
    (0 < SpecFloat.shr_m mrs)%Z /\ (972 <= e')%Z.
Proof.
  intros Hm He. unfold SpecFloat.shr_fexp, SpecFloat.shr.
  destruct m as [|m|m]; try lia. cbn [SpecFloat.Zdigits2].
  set (D := SpecFloat.digits2_pos m).
  assert (Hn : (SpecFloat.fexp FloatOps.prec FloatOps.emax (Zpos D + e) - e = Zpos D - 53)%Z).
  { unfold SpecFloat.fexp, SpecFloat.emin, FloatOps.prec, FloatOps.emax. lia. }
  rewrite Hn.
  assert (Hrec : SpecFloat.shr_m (SpecFloat.shr_record_of_loc (Zpos m) l) = Zpos m).
  { destruct l as [|[]]; reflexivity. }
  destruct (Zpos D - 53)%Z as [|p|p] eqn:E.
  - eexists _, _. split; [reflexivity|]. rewrite Hrec. lia.
  - eexists _, _. split; [reflexivity|].
    rewrite iter_shr_1_m by (rewrite Hrec; lia). rewrite Hrec.
    split; [|lia].
    pose proof (digits2_pos_lower m) as L. fold D in L.
    replace (Zpos D - 1)%Z with (52 + Zpos p)%Z in L by lia.
    rewrite Z.pow_add_r in L by lia.
    apply Z.div_str_pos. split; [apply Z.pow_pos_nonneg; lia|].
    assert (1 * 2 ^ Zpos p <= 2 ^ 52 * 2 ^ Zpos p)%Z.
    { apply Z.mul_le_mono_nonneg_r; [apply Z.pow_nonneg; lia | lia]. }
    lia.
  - eexists _, _. split; [reflexivity|]. rewrite Hrec. lia.
Qed.

Lemma round_nearest_even_pos m l :
  (0 < m)%Z -> (0 < SpecFloat.round_nearest_even m l)%Z.
Proof.
  intros H. unfold SpecFloat.round_nearest_even.
  destruct l as [|[]]; try lia. destruct (Z.even m); lia.
Qed.

Lemma binary_round_large s m :
  (2 ^ 1024 <= Zpos m)%Z ->
  SpecFloat.binary_round FloatOps.prec FloatOps.emax s m 0 = SpecFloat.S754_infinity s.
Proof.
  intros H.
  pose proof (digits2_pos_upper m) as U.
  set (D := SpecFloat.digits2_pos m) in *.
  assert (HD : (1025 <= Zpos D)%Z).
  { destruct (Z_le_gt_dec 1025 (Zpos D)) as [Hle|Hgt]; [exact Hle|]. exfalso.
    assert (2 ^ Zpos D <= 2 ^ 1024)%Z by (apply Z.pow_le_mono_r; lia). lia. }
  unfold SpecFloat.binary_round. fold D.
  assert (Hfexp : SpecFloat.fexp FloatOps.prec FloatOps.emax (Zpos D + 0) = (Zpos D - 53)%Z).
  { unfold SpecFloat.fexp, SpecFloat.emin, FloatOps.prec, FloatOps.emax. lia. }
  rewrite Hfexp. unfold SpecFloat.shl_align.
  destruct (Zpos D - 53 - 0)%Z as [|p|p] eqn:E; try lia.
  unfold SpecFloat.binary_round_aux.
  unfold SpecFloat.shr_fexp at 1, SpecFloat.shr. cbn [SpecFloat.Zdigits2]. fold D.
  replace (SpecFloat.fexp FloatOps.prec FloatOps.emax (Zpos D + 0) - 0)%Z with (Zpos p)
    by (rewrite Hfexp; lia).
  cbn [SpecFloat.shr_record_of_loc].
  set (mrs' := SpecFloat.iter_pos SpecFloat.shr_1 p _).
  assert (Hm' : (0 < SpecFloat.shr_m mrs')%Z).
  { unfold mrs'. rewrite iter_shr_1_m by (cbn; lia). cbn [SpecFloat.shr_m].
    pose proof (digits2_pos_lower m) as L. fold D in L.
    replace (Zpos D - 1)%Z with (52 + Zpos p)%Z in L by lia.
    rewrite Z.pow_add_r in L by lia.
    apply Z.div_str_pos. split; [apply Z.pow_pos_nonneg; lia|].
    assert (1 * 2 ^ Zpos p <= 2 ^ 52 * 2 ^ Zpos p)%Z.
    { apply Z.mul_le_mono_nonneg_r; [apply Z.pow_nonneg; lia | lia]. }
    lia. }
  destruct (shr_fexp_large
              (SpecFloat.round_nearest_even (SpecFloat.shr_m mrs')
                 (SpecFloat.loc_of_shr_record mrs'))
              (0 + Zpos p) SpecFloat.loc_Exact
              (round_nearest_even_pos _ _ Hm') ltac:(lia))
    as (mrs'' & e'' & -> & Hm'' & He'').
  destruct (SpecFloat.shr_m mrs'') as [|q|q]; try lia.
  replace (e'' <=? FloatOps.emax - FloatOps.prec)%Z with false; [reflexivity|].
  symmetry. apply Z.leb_gt. unfold FloatOps.prec, FloatOps.emax. lia.
Qed.

Lemma float_of_int_large z :
  (2 ^ 1024 <= Z.abs z)%Z -> float_of_int z = None.
Proof.
  intros H. unfold float_of_int.
  destruct z as [|m|m]; cbn [SpecFloat.binary_normalize].
  - cbn in H. lia.
  - rewrite binary_round_large by exact H. reflexivity.
  - rewrite binary_round_large by exact H. reflexivity.
Qed.

Lemma last_in {A} (x : A) l : List.last l x ∈ x :: l.
Proof.
  revert x. induction l as [|y l IH]; intros x.
  - apply list_elem_of_here.
  - rewrite last_cons. apply list_elem_of_further. apply IH.
Qed.

(** ** The bounds of the spans *)

Lemma span_bound_f64_inv first rest nspans i q :
  span_bound_f64 (first :: rest) nspans i = Some q ->
  exists f_first f_last divisor fi,
    as_float64 first = Some f_first /\
    as_float64 (List.last rest first) = Some f_last /\
    float_of_int (2 * nspans) = Some divisor /\
    float_of_int i = Some fi /\
    float_value (PrimFloat.add
                   (PrimFloat.mul fi (PrimFloat.div (PrimFloat.sub f_last f_first) divisor))
                   f_first) = Some q.
Proof.
  unfold span_bound_f64, span_width_f64. intros H.
  destruct (as_float64 (List.last rest first)) as [f_last|]; [|discriminate].
  destruct (as_float64 first) as [f_first|]; [|discriminate].
  destruct (float_of_int (2 * nspans)) as [divisor|]; [|discriminate].
  destruct (float_of_int i) as [fi|]; [|discriminate].
  exists f_first, f_last, divisor, fi. repeat split. exact H.
Qed.

Lemma in_order_outcome first rest nspans i f_first f_last divisor :
  as_float64 first = Some f_first ->
  as_float64 (List.last rest first) = Some f_last ->
  float_of_int (2 * nspans) = Some divisor ->
  in_order (first :: rest) nspans i = true ->
  exists sp,
    span_outcome f_first (PrimFloat.div (PrimFloat.sub f_last f_first) divisor) i = Return sp /\
    span_bound_f64 (first :: rest) nspans i = Some (left sp) /\
    span_bound_f64 (first :: rest) nspans (i + 1) = Some (right sp).
Proof.
  intros Hfirst Hlast Hdiv. unfold in_order, span_outcome, span_bound_f64, span_width_f64.
  rewrite Hfirst, Hlast, Hdiv.
  destruct (float_of_int i) as [fi|]; [|discriminate].
  destruct (float_value _) as [l|]; [|discriminate].
  destruct (float_of_int (i + 1)) as [fi1|]; [|discriminate].
  destruct (float_value _) as [r|]; [|discriminate].
  intros H. apply negb_true_iff in H. rewrite H.
  eexists. repeat split.
Qed.

Lemma refused_outcome first rest nspans i f_first f_last divisor l r :
  as_float64 first = Some f_first ->
  as_float64 (List.last rest first) = Some f_last ->
  float_of_int (2 * nspans) = Some divisor ->
  span_bound_f64 (first :: rest) nspans i = Some l ->
  span_bound_f64 (first :: rest) nspans (i + 1) = Some r ->
  (r <= l)%Q ->
  span_outcome f_first (PrimFloat.div (PrimFloat.sub f_last f_first) divisor) i =
    Raise (ValueError (span_error l r)).
Proof.
  intros Hfirst Hlast Hdiv. unfold span_outcome, span_bound_f64, span_width_f64.
  rewrite Hfirst, Hlast, Hdiv.
  destruct (float_of_int i) as [fi|]; [|discriminate].
  destruct (float_of_int (i + 1)) as [fi1|]; [|discriminate].
  intros -> -> Hle. apply Qle_bool_iff in Hle. rewrite Hle. reflexivity.
Qed.

Lemma outcomes_in_order first rest nspans f_first f_last divisor k :
  as_float64 first = Some f_first ->
  as_float64 (List.last rest first) = Some f_last ->
  float_of_int (2 * nspans) = Some divisor ->
  (forall i, (i < k)%nat -> in_order (first :: rest) nspans (Z.of_nat i) = true) ->
  exists sps,
    length sps = k /\
    Forall2 (fun i sp =>
               span_outcome f_first (PrimFloat.div (PrimFloat.sub f_last f_first) divisor) i
               = Return sp)
            (map Z.of_nat (seq 0 k)) sps /\
    forall i sp, sps !! i = Some sp ->
      span_bound_f64 (first :: rest) nspans (Z.of_nat i) = Some (left sp) /\
      span_bound_f64 (first :: rest) nspans (Z.of_nat i + 1) = Some (right sp).
Proof.
  intros Hfirst Hlast Hdiv. induction k as [|k IH]; intros Hall.
  - exists []. split; [reflexivity|]. split; [constructor|].
    intros i sp H. discriminate.
  - destruct IH as (sps & Hlen & Hf & Hb); [intros i Hi; apply Hall; lia|].
    destruct (in_order_outcome first rest nspans (Z.of_nat k) f_first f_last divisor
                Hfirst Hlast Hdiv (Hall k ltac:(lia))) as (sp & Ho & Hl & Hr).
    exists (sps ++ [sp]). split; [rewrite length_app; cbn [length]; lia|]. split.
    + rewrite seq_snoc, map_app. apply Forall2_app; [exact Hf|].
      constructor; [exact Ho | constructor].
    + intros i sp' H.
      destruct (decide (i < k)%nat) as [Hi|Hi].
      * rewrite lookup_app_l in H by lia. apply Hb. exact H.
      * rewrite lookup_app_r in H by lia. rewrite Hlen in H.
        destruct (i - k)%nat as [|n] eqn:En; [|destruct n; discriminate].
        injection H as <-. replace i with k by lia. split; assumption.
Qed.

Lemma in_order_lt coords nspans i l r :
  in_order coords nspans i = true ->
  span_bound_f64 coords nspans i = Some l ->
  span_bound_f64 coords nspans (i + 1) = Some r ->
  (l < r)%Q.
Proof.
  unfold in_order. intros H Hl Hr. rewrite Hl, Hr in H. apply negb_true_iff in H.
  apply Qnot_le_lt. intros Hle. apply Qle_bool_iff in Hle. congruence.
Qed.

(** Spans that each end where the next one starts, each with its bounds
    in order, do not overlap. *)
Lemma chained_spans_apart (b : nat -> option Q) (sps : list SpanROI) :
  (forall i sp, sps !! i = Some sp ->
     b i = Some (left sp) /\ b (S i) = Some (right sp) /\ (left sp < right sp)%Q) ->
  forall j i sp sp', (i < j)%nat -> sps !! i = Some sp -> sps !! j = Some sp' ->
    (right sp <= left sp')%Q.
Proof.
  intros Hb. induction j as [|j IH]; intros i sp sp' Hij Hi Hj; [lia|].
  destruct (Hb _ _ Hi) as (_ & Hri & _).
  destruct (Hb _ _ Hj) as (Hlj & _ & _).
  destruct (decide (i = j)) as [->|Hne].
  - rewrite Hri in Hlj. injection Hlj as ->. apply Qle_refl.
  - assert (Hjlt : (j < length sps)%nat) by (apply lookup_lt_Some in Hj; lia).
    destruct (lookup_lt_is_Some_2 sps j Hjlt) as (spj & Hspj).
    destruct (Hb _ _ Hspj) as (_ & Hrj & Hlt).
    rewrite Hrj in Hlj. injection Hlj as <-.
    apply Qle_trans with (left spj); [apply (IH i sp spj); [lia | assumption..]|].
    apply Qlt_le_weak. exact Hlt.
Qed.

Lemma all_in_order_each coords nspans i :
  all_in_order coords nspans = true ->
  (i < Z.to_nat nspans)%nat ->
  in_order coords nspans (Z.of_nat i) = true.
Proof.
  unfold all_in_order, range. intros H Hi.
  rewrite forallb_forall in H. apply H.
  apply in_map. apply in_seq. lia.
Qed.

(** ** The claims about the numbers *)

(** C10 (as amended): the span-count error is raised exactly when
    [nspans > 3]; there is no lower bound.  With a valid signal and
    [nspans <= 0] the call returns when the divisor [2 * nspans] has a
    float, as it has for every [nspans] above [-2^52]: the loop body never
    runs, the three sequences are empty, and the navigator is still
    computed and plotted.  When [2 * nspans] is too large in magnitude to
    be converted, as it is for every [nspans] from [-2^1023] down, the
    division of line 68 raises [OverflowError]: nothing is returned, and
    the navigator is neither computed nor plotted. *)
Theorem no_lower_bound_but_overflow w sig nspans :
  (forall l r, span_error l r <> "Maximum number of spans allowed is 3") ->
  (fst (plot_span_map_f64 sig nspans w) =
     Raise (ValueError "Maximum number of spans allowed is 3") <-> (3 < nspans)%Z)
  /\ forall s ax, signals w !! sig = Some s -> valid_input s ->
       signal_axes s = [ax] -> float64_coordinates (axis ax) = true ->
       (nspans <= 0)%Z ->
       let returned :=
         (Return (length (signals w), @nil roiref, @nil sigref, @nil sigref),
          {| signals := signals w ++ [navigator s];
             rois := rois w;
             figures := figures w ++ [Figure (length (signals w)) None];
             widgets := widgets w;
             connections := connections w |}) in
       plot_span_map_f64 sig nspans w =
         match float_of_int (2 * nspans) with
         | Some _ => returned
         | None => (Raise OverflowError, w)
         end
       /\ ((- 2 ^ 52 < nspans)%Z -> plot_span_map_f64 sig nspans w = returned)
       /\ ((nspans <= - 2 ^ 1023)%Z ->
           plot_span_map_f64 sig nspans w = (Raise OverflowError, w)).
Proof.
  intros Hother. split.
  - split.
    + intros E. destruct (Z_lt_le_dec 3 nspans) as [H|H]; [exact H|].
      exfalso. exact (plot_span_map_f64_other w sig nspans Hother H E).
    + intros H. rewrite (plot_span_map_f64_too_many w sig nspans H). reflexivity.
  - intros s ax Hsig Hvalid Hax Hfloat Hn returned.
    destruct (valid_input_inv s Hvalid) as (nx & ny & ax' & first & rest & _ & Hax' & Hcoords).
    rewrite Hax in Hax'. injection Hax' as <-.
    unfold float64_coordinates in Hfloat. rewrite forallb_forall in Hfloat.
    assert (Hfirst : exists f, as_float64 first = Some f).
    { specialize (Hfloat first). rewrite Hcoords in Hfloat.
      destruct (as_float64 first) as [f|]; [exists f; reflexivity|].
      discriminate Hfloat. left. reflexivity. }
    assert (Hlast : exists f, as_float64 (List.last rest first) = Some f).
    { specialize (Hfloat (List.last rest first)). rewrite Hcoords in Hfloat.
      destruct (as_float64 (List.last rest first)) as [f|]; [exists f; reflexivity|].
      discriminate Hfloat. apply list_elem_of_In. apply last_in. }
    destruct Hfirst as (f_first & Hfirst). destruct Hlast as (f_last & Hlast).
    assert (Hrun : plot_span_map_f64 sig nspans w =
                   match float_of_int (2 * nspans) with
                   | Some _ => returned
                   | None => (Raise OverflowError, w)
                   end).
    { rewrite (plot_span_map_f64_start w sig s ax first rest nspans Hsig Hvalid Hax Hcoords
                 ltac:(lia)).
      rewrite Hlast, Hfirst.
      destruct (float_of_int (2 * nspans)) as [divisor|]; [|reflexivity].
      unfold range. replace (Z.to_nat nspans) with 0%nat by lia.
      cbn [seq map for_fold]. unfold bind, ret. reflexivity. }
    split; [exact Hrun|]. split.
    + intros Hsmall. rewrite Hrun.
      destruct (float_of_int_small (2 * nspans)) as (f & ->); [|reflexivity].
      change (2 ^ 53)%Z with (2 * 2 ^ 52)%Z. lia.
    + intros Hlarge. rewrite Hrun.
      rewrite float_of_int_large; [reflexivity|].
      change (2 ^ 1024)%Z with (2 * 2 ^ 1023)%Z. lia.
Qed.

(** The call returns when all the bounds are in order. *)
Lemma plot_span_map_f64_returns w sig s ax first rest nspans :
  signals w !! sig = Some s ->
  valid_input s ->
  signal_axes s = [ax] ->
  axis ax = first :: rest ->
  (1 <= nspans <= 3)%Z ->
  all_in_order (first :: rest) nspans = true ->
  exists sps,
    length sps = Z.to_nat nspans /\
    plot_span_map_f64 sig nspans w =
      (Return (length (signals w),
               span_refs (length (rois w)) (Z.to_nat nspans),
               slice_refs (S (length (signals w))) (Z.to_nat nspans),
               sum_refs (S (length (signals w))) (Z.to_nat nspans)),
       after_spans sig s ax (length (signals w)) 0 sps (after_navigator s w)) /\
    forall i sp, sps !! i = Some sp ->
      span_bound_f64 (first :: rest) nspans (Z.of_nat i) = Some (left sp) /\
      span_bound_f64 (first :: rest) nspans (Z.of_nat (S i)) = Some (right sp) /\
      (left sp < right sp)%Q.
Proof.
  intros Hsig Hvalid Hax Hcoords (Hn1 & Hn) Hall.
  set (k := Z.to_nat nspans).
  assert (Hin : forall i, (i < k)%nat ->
                          in_order (first :: rest) nspans (Z.of_nat i) = true).
  { intros i Hi. apply all_in_order_each; assumption. }
  assert (H0 : in_order (first :: rest) nspans 0 = true) by (apply (Hin 0%nat); lia).
  destruct (span_bound_f64 (first :: rest) nspans 0) as [l0|] eqn:Eb0.
  2:{ unfold in_order in H0. rewrite Eb0 in H0. discriminate. }
  destruct (span_bound_f64_inv _ _ _ _ _ Eb0)
    as (f_first & f_last & divisor & f0 & Hfirst & Hlast & Hdiv & _ & _).
  destruct (outcomes_in_order first rest nspans f_first f_last divisor k
              Hfirst Hlast Hdiv Hin) as (sps & Hlen & Hf & Hb).
  pose proof (spans_outcome_all _ _ _ _ Hf) as Hout.
  pose proof (plot_span_map_f64_run w sig s ax first rest nspans f_first f_last divisor
                Hsig Hvalid Hax Hcoords Hn Hfirst Hlast Hdiv) as Hrun.
  cbn zeta in Hrun. unfold range in Hrun. fold k in Hrun.
  rewrite Hout in Hrun. cbn [fst snd] in Hrun. rewrite Hlen in Hrun.
  exists sps. split; [exact Hlen|]. split; [exact Hrun|].
  intros i sp Hsp. destruct (Hb i sp Hsp) as (Hl & Hr).
  assert (Hi : (i < k)%nat) by (apply lookup_lt_Some in Hsp; lia).
  rewrite Nat2Z.inj_succ. unfold Z.succ.
  split; [exact Hl|]. split; [exact Hr|].
  exact (in_order_lt _ _ _ _ _ (Hin i Hi) Hl Hr).
Qed.

(** C2 (as amended): for a valid signal and [nspans] in 1..3, span [i] is
    created with the bounds [i * span_width + ax_sig[0]] and
    [(i + 1) * span_width + ax_sig[0]], where [span_width] is
    [(ax_sig[-1] - ax_sig[0]) / (2 * nspans)] and every operation is that
    of binary64, provided each such pair has its left bound below its
    right bound (otherwise [SpanROI] refuses it).  The spans then are not
    empty, each starts exactly where the previous one ends, they do not
    overlap, and the first starts at the first coordinate.  When the
    coordinates increase, the first is their minimum and the last their
    maximum, so that the extent is [max - min].  Equal widths and a cover
    of exactly half the extent are not part of the statement: the
    operations round. *)
Theorem initial_ranges_in_binary64 w sig s ax first rest nspans :
  signals w !! sig = Some s ->
  valid_input s ->
  signal_axes s = [ax] ->
  axis ax = first :: rest ->
  (1 <= nspans <= 3)%Z ->
  all_in_order (axis ax) nspans = true ->
  exists all_sum spans span_sigs span_sums w1,
    plot_span_map_f64 sig nspans w = (Return (all_sum, spans, span_sigs, span_sums), w1) /\
    Z.of_nat (length spans) = nspans /\
    (increasing (axis ax) = true ->
       (Qmin_list first rest == first)%Q /\ Qmax_list first rest = List.last rest first) /\
    forall i r, spans !! i = Some r ->
      exists sp, rois w1 !! r = Some sp /\
        span_bound_f64 (axis ax) nspans (Z.of_nat i) = Some (left sp) /\
        span_bound_f64 (axis ax) nspans (Z.of_nat i + 1) = Some (right sp) /\
        (left sp < right sp)%Q /\
        (i = 0%nat ->
           (left sp == first)%Q /\
           (increasing (axis ax) = true -> (left sp == Qmin_list first rest)%Q)) /\
        (forall r', spans !! S i = Some r' ->
           exists sp', rois w1 !! r' = Some sp' /\ left sp' = right sp) /\
        (forall j r' sp', (i < j)%nat -> spans !! j = Some r' ->
           rois w1 !! r' = Some sp' -> (right sp <= left sp')%Q).
Proof.
  intros Hsig Hvalid Hax Hcoords Hn Hall. rewrite Hcoords in *.
  destruct (plot_span_map_f64_returns w sig s ax first rest nspans
              Hsig Hvalid Hax Hcoords Hn Hall) as (sps & Hlen & Hrun & Hchain).
  do 5 eexists. split; [exact Hrun|].
  split; [unfold span_refs; rewrite length_map, length_seq; lia|].
  split.
  { intros Hinc. split.
    - apply (Qmin_list_increasing rest first first Hinc). apply Qle_refl.
    - apply Qmax_list_increasing. exact Hinc. }
  assert (Hrois : forall i, rois (after_spans sig s ax (length (signals w)) 0 sps
                                    (after_navigator s w)) !! (length (rois w) + i)%nat
                            = sps !! i).
  { intros i. rewrite rois_after_spans. unfold after_navigator. proj.
    apply lookup_app_plus. }
  intros i r Hr. apply lookup_map_seq_inv in Hr. destruct Hr as (Hi & ->).
  destruct (lookup_lt_is_Some_2 sps i ltac:(lia)) as (sp & Hsp).
  destruct (Hchain i sp Hsp) as (Hl & Hr & Hlt).
  exists sp. split; [rewrite Hrois; exact Hsp|].
  split; [exact Hl|].
  split; [rewrite Nat2Z.inj_succ in Hr; exact Hr|].
  split; [exact Hlt|].
  split; [|split].
  - intros Hi0. subst i. change (Z.of_nat 0) with 0%Z in Hl.
    destruct (span_bound_f64_inv _ _ _ _ _ Hl)
      as (f_first & f_last & divisor & f0 & Hfirst & _ & _ & Hf0 & Hl0).
    destruct (as_float64_value _ _ Hfirst) as (v & Hv & Hvq).
    pose proof (zero_times_plus _ _ _ _ (float_of_int_0 _ Hf0) Hl0) as Hz.
    rewrite Hv in Hz. injection Hz as Hz.
    assert (Hleft : (left sp == first)%Q) by (rewrite <- Hz; exact Hvq).
    split; [exact Hleft|].
    intros Hinc. rewrite Hleft. symmetry.
    apply (Qmin_list_increasing rest first first Hinc). apply Qle_refl.
  - intros r' Hr'. apply lookup_map_seq_inv in Hr'. destruct Hr' as (Hi' & ->).
    destruct (lookup_lt_is_Some_2 sps (S i) ltac:(lia)) as (sp' & Hsp').
    exists sp'. split; [rewrite Hrois; exact Hsp'|].
    destruct (Hchain (S i) sp' Hsp') as (Hl' & _ & _).
    rewrite Hr in Hl'. injection Hl' as ->. reflexivity.
  - intros j r' sp' Hij Hr' Hsp'.
    apply lookup_map_seq_inv in Hr'. destruct Hr' as (Hj & ->).
    rewrite Hrois in Hsp'.
    exact (chained_spans_apart
             (fun n => span_bound_f64 (first :: rest) nspans (Z.of_nat n)) sps Hchain
             j i sp sp' Hij Hsp Hsp').
Qed.

(** ** Further properties of the call in binary64 *)

(** A call either fails before the navigator exists, in the store it was
    given, or builds the navigator and then some spans, each with its
    bounds in order. *)
Lemma plot_span_map_f64_cases w sig nspans :
  (exists e, plot_span_map_f64 sig nspans w = (Raise e, w))
  \/ exists s ax sps,
       signals w !! sig = Some s /\ signal_axes s = [ax] /\
       snd (plot_span_map_f64 sig nspans w) =
         after_spans sig s ax (length (signals w)) 0 sps (after_navigator s w) /\
       forall sp, sp ∈ sps -> (left sp < right sp)%Q.
Proof.
  destruct (Z_lt_le_dec 3 nspans) as [Hn|Hn].
  { left. eexists. apply plot_span_map_f64_too_many. exact Hn. }
  destruct (signals w !! sig) as [s|] eqn:Hsig.
  2:{ left. eexists. apply plot_span_map_f64_dangling; assumption. }
  destruct (decide (reported_signal_dimension s = 1%nat)) as [Hrd|Hrd].
  2:{ left. eexists. apply (plot_span_map_f64_bad_dims w sig s nspans Hn Hsig).
      left. exact Hrd. }
  destruct (decide (navigation_dimension s = 2%nat)) as [Hnd|Hnd].
  2:{ left. eexists. apply (plot_span_map_f64_bad_dims w sig s nspans Hn Hsig).
      right. exact Hnd. }
  destruct (reported_one s Hrd) as (ax & Hax & _).
  destruct (axis ax) as [|first rest] eqn:Hcoords.
  { left. eexists. apply (plot_span_map_f64_no_data w sig s ax nspans); assumption. }
  assert (Hvalid : valid_input s).
  { split; [|exact Hrd]. split; [unfold signal_dimension; rewrite Hax; reflexivity|].
    split; [exact Hnd|].
    intros ax' Hin. rewrite Hax in Hin. apply list_elem_of_In in Hin.
    destruct Hin as [<-|[]]. rewrite Hcoords. discriminate. }
  pose proof (plot_span_map_f64_start w sig s ax first rest nspans Hsig Hvalid Hax Hcoords Hn)
    as Hstart.
  destruct (as_float64 (List.last rest first)) as [f_last|] eqn:Hlast.
  2:{ left. eexists. exact Hstart. }
  destruct (as_float64 first) as [f_first|] eqn:Hfirst.
  2:{ left. eexists. exact Hstart. }
  destruct (float_of_int (2 * nspans)) as [divisor|] eqn:Hdiv.
  2:{ left. eexists. exact Hstart. }
  right. exists s, ax.
  rewrite (plot_span_map_f64_run w sig s ax first rest nspans f_first f_last divisor)
    by assumption.
  cbn [snd].
  destruct (spans_outcome f_first (PrimFloat.div (PrimFloat.sub f_last f_first) divisor)
              (range nspans)) as [sps e] eqn:E.
  exists sps. cbn [fst]. split; [reflexivity|]. split; [exact Hax|].
  split; [reflexivity|].
  eapply spans_outcome_in_order. exact E.
Qed.

(** X6: a spectral axis with a single channel is reported by the toolkit
    as no signal dimension, so the call fails its dimension check, with
    the message that names 0 and the navigation dimension, in the store it
    was given: no span is created on such an axis. *)
Theorem single_channel_fails_dimension_check w sig s ax c nspans :
  signals w !! sig = Some s ->
  signal_axes s = [ax] ->
  axis ax = [c] ->
  (nspans <= 3)%Z ->
  plot_span_map_f64 sig nspans w =
    (Raise (ValueError
       ("This method is designed for data with 1 signal and 2 navigation dimensions, not "
        +:+ "0" +:+ " and "
        +:+ pretty (navigation_dimension s) +:+ " respectively")), w).
Proof.
  intros Hsig Hax Hc Hn.
  assert (Hrd : reported_signal_dimension s = 0%nat).
  { unfold reported_signal_dimension. rewrite Hax, Hc. reflexivity. }
  rewrite (plot_span_map_f64_bad_dims w sig s nspans Hn Hsig)
    by (left; rewrite Hrd; discriminate).
  rewrite Hrd. reflexivity.
Qed.

(** X7: no call creates an empty or an inverted span.  Whatever the
    signal and [nspans] are, and whether the call returns or fails, as
    long as all the bounds it computes are finite (the call stays in the
    fragment modelled), the spans it has added to the store have their
    left bound below their right bound, and the spans that existed are as
    they were. *)
Theorem created_spans_are_in_order w sig nspans :
  fst (plot_span_map_f64 sig nspans w) <> Raise Unmodelled ->
  (forall i, (i < length (rois w))%nat ->
     rois (snd (plot_span_map_f64 sig nspans w)) !! i = rois w !! i) /\
  forall i sp, (length (rois w) <= i)%nat ->
    rois (snd (plot_span_map_f64 sig nspans w)) !! i = Some sp ->
    (left sp < right sp)%Q.
Proof.
  intros _.
  destruct (plot_span_map_f64_cases w sig nspans)
    as [(e & E)|(s & ax & sps & _ & _ & E & Hord)]; rewrite E.
  - cbn [snd]. split; [reflexivity|].
    intros i sp Hi Hsp. apply lookup_lt_Some in Hsp. lia.
  - rewrite rois_after_spans. unfold after_navigator. proj. split.
    + intros i Hi. apply lookup_app_l. exact Hi.
    + intros i sp Hi Hsp. rewrite lookup_app_r in Hsp by exact Hi.
      apply Hord. eapply list_elem_of_lookup_2. exact Hsp.
Qed.

(** X12: when the bounds of span [k] are the first that [SpanROI] refuses
    (as on a decreasing axis, where the first span is refused), the call
    fails with the toolkit's error, after the navigator was computed and
    plotted and after [k] complete iterations: the navigator, its window
    and the [k] spans with their widgets, slices, images, windows and
    bindings stay behind. *)
Theorem refused_span_stops_the_call w sig s ax first rest nspans k l r :
  signals w !! sig = Some s ->
  valid_input s ->
  signal_axes s = [ax] ->
  axis ax = first :: rest ->
  (nspans <= 3)%Z ->
  (Z.of_nat k < nspans)%Z ->
  (forall i, (i < k)%nat -> in_order (axis ax) nspans (Z.of_nat i) = true) ->
  span_bound_f64 (axis ax) nspans (Z.of_nat k) = Some l ->
  span_bound_f64 (axis ax) nspans (Z.of_nat k + 1) = Some r ->
  (r <= l)%Q ->
  exists sps,
    plot_span_map_f64 sig nspans w =
      (Raise (ValueError (span_error l r)),
       after_spans sig s ax (length (signals w)) 0 sps (after_navigator s w)) /\
    length sps = k /\
    let w1 := snd (plot_span_map_f64 sig nspans w) in
    signals w1 !! sig = Some s /\
    signals w1 !! length (signals w) = Some (navigator s) /\
    length (signals w1) = (length (signals w) + 1 + 3 * k)%nat /\
    rois w1 = rois w ++ sps /\
    length (figures w1) = (length (figures w) + 1 + k)%nat /\
    length (widgets w1) = (length (widgets w) + k)%nat /\
    length (connections w1) = (length (connections w) + 2 * k)%nat.
Proof.
  intros Hsig Hvalid Hax Hcoords Hn Hk Hin Hl Hr Hle. rewrite Hcoords in *.
  destruct (span_bound_f64_inv _ _ _ _ _ Hl)
    as (f_first & f_last & divisor & fk & Hfirst & Hlast & Hdiv & _ & _).
  destruct (outcomes_in_order first rest nspans f_first f_last divisor k
              Hfirst Hlast Hdiv Hin) as (sps & Hlen & Hf & _).
  pose proof (refused_outcome first rest nspans (Z.of_nat k) f_first f_last divisor l r
                Hfirst Hlast Hdiv Hl Hr Hle) as Href.
  assert (Hrange : range nspans =
            map Z.of_nat (seq 0 k) ++
            Z.of_nat k :: map Z.of_nat (seq (S k) (Z.to_nat nspans - S k))).
  { unfold range.
    replace (Z.to_nat nspans) with (k + S (Z.to_nat nspans - S k))%nat at 1 by lia.
    rewrite seq_app, map_app. reflexivity. }
  pose proof (spans_outcome_stop _ _ _ _ _
                (map Z.of_nat (seq (S k) (Z.to_nat nspans - S k))) _ Hf Href) as Hout.
  rewrite <- Hrange in Hout.
  pose proof (plot_span_map_f64_run w sig s ax first rest nspans f_first f_last divisor
                Hsig Hvalid Hax Hcoords Hn Hfirst Hlast Hdiv) as Hrun.
  cbn zeta in Hrun. rewrite Hout in Hrun. cbn [fst snd] in Hrun.
  exists sps. split; [exact Hrun|]. split; [exact Hlen|].
  rewrite Hrun. cbn [snd]. cbn zeta.
  pose proof (lookup_lt_Some _ _ _ Hsig) as Hlt.
  destruct (signals_after_spans sig s ax (length (signals w)) sps 0 (after_navigator s w))
    as (Hsl & Hold).
  destruct (displays_after_spans sig s ax (length (signals w)) sps 0 (after_navigator s w))
    as (Hfl & Hwl & Hcl).
  assert (Hnl : length (signals (after_navigator s w)) = (length (signals w) + 1)%nat).
  { unfold after_navigator. proj. rewrite length_app. reflexivity. }
  rewrite Hnl in Hsl, Hold.
  split; [|split; [|split; [|split; [|split; [|split]]]]].
  - rewrite Hold by lia. unfold after_navigator. proj. apply lookup_app_l_Some. exact Hsig.
  - rewrite Hold by lia. unfold after_navigator. proj. rewrite lookup_app_here. reflexivity.
  - rewrite Hsl, Hlen. reflexivity.
  - rewrite rois_after_spans. reflexivity.
  - rewrite Hfl, Hlen. unfold after_navigator. proj. rewrite length_app. reflexivity.
  - rewrite Hwl, Hlen. reflexivity.
  - rewrite Hcl, Hlen. reflexivity.
Qed.

Lemma spans_outcome_each origin width iters : forall sps,
  spans_outcome origin width iters = (sps, None) ->
  forall i, In i iters -> exists sp, span_outcome origin width i = Return sp.
Proof.
  induction iters as [|i0 iters IH]; intros sps H i Hi; [destruct Hi|].
  cbn [spans_outcome] in H.
  destruct (span_outcome origin width i0) as [sp0|e] eqn:E0; [|discriminate].
  destruct (spans_outcome origin width iters) as [sps' e] eqn:E.
  injection H as <- ->.
  destruct Hi as [<-|Hi]; [exists sp0; exact E0|].
  eapply IH; [reflexivity | exact Hi].
Qed.

Lemma outcome_in_order first rest nspans i f_first f_last divisor sp :
  as_float64 first = Some f_first ->
  as_float64 (List.last rest first) = Some f_last ->
  float_of_int (2 * nspans) = Some divisor ->
  span_outcome f_first (PrimFloat.div (PrimFloat.sub f_last f_first) divisor) i = Return sp ->
  in_order (first :: rest) nspans i = true.
Proof.
  intros Hfirst Hlast Hdiv Hsp.
  destruct (span_outcome_Return _ _ _ _ Hsp) as (fi & fi1 & Hfi & Hfi1 & Hl & Hr & Hlt).
  unfold in_order, span_bound_f64, span_width_f64.
  rewrite Hfirst, Hlast, Hdiv, Hfi, Hfi1, Hl, Hr.
  apply negb_true_iff. destruct (Qle_bool (right sp) (left sp)) eqn:E; [|reflexivity].
  apply Qle_bool_iff in E. exfalso. exact (Qlt_not_le _ _ Hlt E).
Qed.

(** X13: for [nspans] in 1..3 on a valid input whose bounds are all
    finite, the call returns exactly when every span has its left bound
    below its right bound. *)
Theorem returns_iff_in_order w sig s ax nspans :
  signals w !! sig = Some s ->
  valid_input s ->
  signal_axes s = [ax] ->
  (1 <= nspans <= 3)%Z ->
  all_finite (axis ax) nspans = true ->
  (exists results w1, plot_span_map_f64 sig nspans w = (Return results, w1))
  <-> all_in_order (axis ax) nspans = true.
Proof.
  intros Hsig Hvalid Hax (Hn1 & Hn) _.
  destruct (valid_input_inv s Hvalid) as (nx & ny & ax' & first & rest & _ & Hax' & Hcoords).
  rewrite Hax in Hax'. injection Hax' as <-.
  split.
  - intros (results & w1 & Hrun).
    pose proof (plot_span_map_f64_start w sig s ax first rest nspans Hsig Hvalid Hax Hcoords Hn)
      as Hstart.
    destruct (as_float64 (List.last rest first)) as [f_last|] eqn:Hlast.
    2:{ rewrite Hstart in Hrun. discriminate. }
    destruct (as_float64 first) as [f_first|] eqn:Hfirst.
    2:{ rewrite Hstart in Hrun. discriminate. }
    destruct (float_of_int (2 * nspans)) as [divisor|] eqn:Hdiv.
    2:{ rewrite Hstart in Hrun. discriminate. }
    clear Hstart.
    rewrite (plot_span_map_f64_run w sig s ax first rest nspans f_first f_last divisor
               Hsig Hvalid Hax Hcoords Hn Hfirst Hlast Hdiv) in Hrun.
    cbn zeta in Hrun.
    destruct (spans_outcome f_first (PrimFloat.div (PrimFloat.sub f_last f_first) divisor)
                (range nspans)) as [sps [e|]] eqn:E; cbn [fst snd] in Hrun; [discriminate|].
    unfold all_in_order. rewrite Hcoords. apply forallb_forall. intros i Hi.
    destruct (spans_outcome_each _ _ _ _ E i Hi) as (sp & Hsp).
    exact (outcome_in_order first rest nspans i f_first f_last divisor sp
             Hfirst Hlast Hdiv Hsp).
  - intros Hall.
    rewrite Hcoords in Hall.
    destruct (plot_span_map_f64_returns w sig s ax first rest nspans
                Hsig Hvalid Hax Hcoords (conj Hn1 Hn) Hall) as (sps & _ & Hrun & _).
    do 2 eexists. exact Hrun.
Qed.

(** ** The two embeddings *)

Lemma spans_outcome_length origin width iters : forall sps,
  spans_outcome origin width iters = (sps, None) -> length sps = length iters.
Proof.
  induction iters as [|i iters IH]; intros sps H.
  - injection H as <-. reflexivity.
  - cbn [spans_outcome] in H.
    destruct (span_outcome origin width i) as [sp|e]; [|discriminate].
    destruct (spans_outcome origin width iters) as [sps' e] eqn:E.
    injection H as <- ->. cbn [length]. f_equal. apply IH. reflexivity.
Qed.

Lemma displays_after_spans_explicit sig s ax all_sum sps : forall j w,
  figures (after_spans sig s ax all_sum j sps w) = figures w ++
    map (fun i => Figure (length (signals w) + 3 * i + 2) (Some (cmap_of (j + i))))
        (seq 0 (length sps)) /\
  widgets (after_spans sig s ax all_sum j sps w) = widgets w ++
    map (fun i => Widget (length (rois w) + i) all_sum (color_of (j + i)))
        (seq 0 (length sps)) /\
  connections (after_spans sig s ax all_sum j sps w) = connections w ++
    flat_map (fun i =>
      [Connection (changed (length (rois w) + i))
                  (roi_call (length (rois w) + i) sig) (length (signals w) + 3 * i);
       Connection (any_axis_changed (length (signals w) + 3 * i))
                  (nansum_call (length (signals w) + 3 * i) (Some (-1)%Z))
                  (length (signals w) + 3 * i + 2)]) (seq 0 (length sps)).
Proof.
  induction sps as [|sp sps IH]; intros j w; cbn [after_spans length seq map flat_map].
  - rewrite !app_nil_r. repeat split.
  - destruct (IH (S j) (after_span sig s ax all_sum j sp w)) as (Hf & Hw & Hc).
    rewrite Hf, Hw, Hc. unfold after_span. proj.
    rewrite !length_app. cbn [length].
    rewrite <- !seq_shift, !map_map, !flat_map_concat_map, !map_map.
    rewrite <- !app_assoc. cbn [app concat].
    rewrite ?Nat.add_0_r, ?Nat.mul_0_r, ?Nat.add_0_r.
    split; [|split].
    + f_equal. f_equal. apply map_ext. intros i. f_equal; [lia | do 2 f_equal; lia].
    + f_equal. f_equal. apply map_ext. intros i. f_equal; [lia | f_equal; lia].
    + f_equal. f_equal. f_equal. f_equal. apply map_ext. intros i.
      replace (length (rois w) + 1 + i)%nat with (length (rois w) + S i)%nat by lia.
      replace (length (signals w) + 3 + 3 * i)%nat
        with (length (signals w) + 3 * S i)%nat by lia.
      reflexivity.
Qed.

(** Where the call in binary64 returns, the call in exact arithmetic
    returns the same four results and builds the same windows, widgets and
    bindings, and as many signals and spans: rounding and the toolkit's
    checks bear on the bounds of the spans only. *)
Lemma embeddings_agree w sig s nspans results w1 :
  fresh_connections w ->
  signals w !! sig = Some s ->
  valid_input s ->
  plot_span_map_f64 sig nspans w = (Return results, w1) ->
  exists w1',
    plot_span_map sig nspans w = (Return results, w1') /\
    figures w1' = figures w1 /\
    widgets w1' = widgets w1 /\
    connections w1' = connections w1 /\
    length (signals w1') = length (signals w1) /\
    length (rois w1') = length (rois w1).
Proof.
  intros Hf Hsig Hvalid Hrun.
  destruct (Z_lt_le_dec 3 nspans) as [Hn|Hn].
  { rewrite plot_span_map_f64_too_many in Hrun by exact Hn. discriminate. }
  destruct (valid_input_inv s Hvalid) as (nx & ny & ax & first & rest & Hnav & Hax & Hcoords).
  pose proof (plot_span_map_f64_start w sig s ax first rest nspans Hsig Hvalid Hax Hcoords Hn)
    as Hstart.
  destruct (as_float64 (List.last rest first)) as [f_last|] eqn:Hlast.
  2:{ rewrite Hstart in Hrun. discriminate. }
  destruct (as_float64 first) as [f_first|] eqn:Hfirst.
  2:{ rewrite Hstart in Hrun. discriminate. }
  destruct (float_of_int (2 * nspans)) as [divisor|] eqn:Hdiv.
  2:{ rewrite Hstart in Hrun. discriminate. }
  clear Hstart.
  rewrite (plot_span_map_f64_run w sig s ax first rest nspans f_first f_last divisor
             Hsig Hvalid Hax Hcoords Hn Hfirst Hlast Hdiv) in Hrun.
  cbn zeta in Hrun.
  destruct (spans_outcome f_first (PrimFloat.div (PrimFloat.sub f_last f_first) divisor)
              (range nspans)) as [sps [e|]] eqn:E; cbn [fst snd] in Hrun; [discriminate|].
  pose proof (spans_outcome_length _ _ _ _ E) as Hlen.
  unfold range in Hlen. rewrite length_map, length_seq in Hlen.
  injection Hrun as <- <-. rewrite Hlen.
  destruct Hvalid as (Hvalid & _).
  destruct (plot_span_map_run w sig s nspans Hsig Hvalid Hn Hf)
    as (ax' & first' & rest' & w1' & Hax' & _ & Hrun' & Hinv).
  exists w1'. split; [exact Hrun'|].
  destruct Hinv as [Hsl Hrl _ _ _ _ _ Hfig Hwid Hcon].
  destruct (displays_after_spans_explicit sig s ax (length (signals w)) sps 0
              (after_navigator s w)) as (Hfig2 & Hwid2 & Hcon2).
  destruct (signals_after_spans sig s ax (length (signals w)) sps 0 (after_navigator s w))
    as (Hsl2 & _).
  rewrite Hfig, Hwid, Hcon, Hsl, Hrl, Hfig2, Hwid2, Hcon2, Hsl2, rois_after_spans.
  rewrite Hlen, length_app. cbn [Nat.add].
  repeat split; lia.
Qed.

End Toolkit.

(** ** The claims on concrete data *)

Lemma fresh_session s : fresh_connections (session s).
Proof. intros c Hc. apply elem_of_nil in Hc. destruct Hc. Qed.

Lemma valid_demo_sig : valid_signal demo_sig.
Proof.
  split; [reflexivity|]. split; [reflexivity|].
  intros ax Hin. apply list_elem_of_In in Hin. destruct Hin as [<-|[]]. discriminate.
Qed.

Lemma valid_reversed_sig : valid_signal reversed_sig.
Proof.
  split; [reflexivity|]. split; [reflexivity|].
  intros ax Hin. apply list_elem_of_In in Hin. destruct Hin as [<-|[]]. discriminate.
Qed.

Lemma consistent_demo_sig : consistent demo_sig.
Proof. split; reflexivity. Qed.

(** C3, the message as the specification spells it: at [nspans = 4] the
    error raised does not carry the text
    "maximum number of spans allowed is 3". *)
Lemma span_count_message_is_capitalized :
  fst (plot_span_map interval_indices 0 4 (session demo_sig)) <>
  Raise (ValueError "maximum number of spans allowed is 3").
Proof. vm_compute. discriminate. Qed.

Lemma span_count_error_first_witness :
  (3 < 4)%Z /\
  plot_span_map interval_indices 0 4 (session image_sig) =
    (Raise (ValueError "Maximum number of spans allowed is 3"), session image_sig).
Proof.
  split; [lia|].
  exact (proj1 (span_count_error_first interval_indices (session image_sig) 0%nat 4
                  ltac:(lia))).
Defined.


Lemma validation_failure_leaves_store_witness :
  (exists s, signals (session image_sig) !! 0%nat = Some s /\
             (signal_dimension s <> 1%nat \/ navigation_dimension s <> 2%nat)) /\
  exists msg,
    plot_span_map interval_indices 0 2 (session image_sig) =
      (Raise (ValueError msg), session image_sig).
Proof.
  assert (H : exists s, signals (session image_sig) !! 0%nat = Some s /\
             (signal_dimension s <> 1%nat \/ navigation_dimension s <> 2%nat)).
  { exists image_sig. split; [reflexivity | left; discriminate]. }
  split; [exact H|].
  exact (validation_failure_leaves_store interval_indices (session image_sig) 0%nat 2
           (or_intror H)).
Defined.

Lemma input_signal_unchanged_witness :
  fresh_connections (session demo_sig) /\
  signals (snd (plot_span_map interval_indices 0 3 (session demo_sig))) !! 0%nat =
    Some demo_sig.
Proof.
  split; [apply fresh_session|].
  exact (input_signal_unchanged interval_indices (session demo_sig) 0%nat 3
           (fresh_session demo_sig)).
Defined.




Lemma span_sums_follow_spans_witness :
  fresh_connections (session demo_sig) /\
  signals (session demo_sig) !! 0%nat = Some demo_sig /\
  valid_signal demo_sig /\
  consistent demo_sig /\
  (2 <= 3)%Z /\
  plot_span_map interval_indices 0 2 (session demo_sig) =
    (Return (1%nat, [0; 1]%nat, [2; 5]%nat, [4; 7]%nat),
     snd (plot_span_map interval_indices 0 2 (session demo_sig))) /\
  Forall (fun x => fst x ∈ [0; 1]%nat) [(1%nat, set_range 2 10); (0%nat, set_left (-1))] /\
  exists w2 image,
    apply_edits interval_indices [(1%nat, set_range 2 10); (0%nat, set_left (-1))]
      (snd (plot_span_map interval_indices 0 2 (session demo_sig))) = (Return tt, w2) /\
    rois w2 !! 1%nat = Some {| left := 2; right := 10 |} /\
    signals w2 !! 7%nat = Some image /\
    flat (data image) = [Val 6; Val 70; Val 900; Val 0] /\
    flat (data image) !! 1%nat = Some (Val (spectral_nansum_at (data demo_sig) 1 4 1)).
Proof.
  assert (Hes : Forall (fun x : nat * edit => fst x ∈ [0; 1]%nat)
                  [(1%nat, set_range 2 10); (0%nat, set_left (-1))]).
  { repeat constructor. }
  assert (Hrun : plot_span_map interval_indices 0 2 (session demo_sig) =
    (Return (1%nat, [0; 1]%nat, [2; 5]%nat, [4; 7]%nat),
     snd (plot_span_map interval_indices 0 2 (session demo_sig)))).
  { vm_compute. reflexivity. }
  split; [apply fresh_session|]. split; [reflexivity|].
  split; [exact valid_demo_sig|]. split; [exact consistent_demo_sig|].
  split; [lia|]. split; [exact Hrun|]. split; [exact Hes|].
  destruct (span_sums_follow_spans interval_indices (session demo_sig) 0%nat demo_sig 2
              1%nat [0; 1]%nat [2; 5]%nat [4; 7]%nat _
              [(1%nat, set_range 2 10); (0%nat, set_left (-1))]
              (fresh_session demo_sig) eq_refl valid_demo_sig consistent_demo_sig
              ltac:(lia) Hrun Hes)
    as (w2 & Hrun2 & _ & H).
  destruct (H 1%nat 1%nat 5%nat 7%nat eq_refl eq_refl eq_refl)
    as (ax & sp0 & start & stop & image0 & image &
        Hax & Hsp0 & Hsp & Hidx & _ & _ & Him & _ & _ & Hd & Hat).
  injection Hax as <-.
  vm_compute in Hsp0. injection Hsp0 as <-.
  vm_compute in Hidx. injection Hidx as <- <-.
  exists w2, image. split; [exact Hrun2|].
  split; [rewrite Hsp; vm_compute; reflexivity|].
  split; [exact Him|].
  split; [rewrite Hd; vm_compute; reflexivity|].
  apply Hat. vm_compute. lia.
Defined.

(** ** The further properties on concrete data *)

Lemma empty_spectral_axis_raises_index_error_witness :
  signals (session blank_sig) !! 0%nat = Some blank_sig /\
  signal_dimension blank_sig = 1%nat /\
  navigation_dimension blank_sig = 2%nat /\
  (forall ax, ax ∈ signal_axes blank_sig -> axis ax = []) /\
  (2 <= 3)%Z /\
  plot_span_map interval_indices 0 2 (session blank_sig) =
    (Raise IndexError, session blank_sig).
Proof.
  assert (H : forall ax, ax ∈ signal_axes blank_sig -> axis ax = []).
  { intros ax Hin. apply list_elem_of_In in Hin. destruct Hin as [<-|[]]. reflexivity. }
  split; [reflexivity|]. split; [reflexivity|]. split; [reflexivity|].
  split; [exact H|]. split; [lia|].
  exact (empty_spectral_axis_raises_index_error interval_indices (session blank_sig)
           0%nat blank_sig 2 eq_refl eq_refl eq_refl H ltac:(lia)).
Defined.





Lemma edit_touches_one_span_witness :
  fresh_connections (session demo_sig) /\
  signals (session demo_sig) !! 0%nat = Some demo_sig /\
  valid_signal demo_sig /\
  (2 <= 3)%Z /\
  plot_span_map interval_indices 0 2 (session demo_sig) =
    (Return (1%nat, [0; 1]%nat, [2; 5]%nat, [4; 7]%nat),
     snd (plot_span_map interval_indices 0 2 (session demo_sig))) /\
  Forall (fun x => fst x ∈ [0; 1]%nat) [(0%nat, set_left (-1))] /\
  exists w2 w3,
    apply_edits interval_indices [(0%nat, set_left (-1))]
      (snd (plot_span_map interval_indices 0 2 (session demo_sig))) = (Return tt, w2) /\
    change_span interval_indices 1 (set_range 2 10) w2 = (Return tt, w3) /\
    signals w3 !! 4%nat = signals w2 !! 4%nat /\
    signals w3 !! 1%nat = signals w2 !! 1%nat /\
    rois w3 !! 0%nat = rois w2 !! 0%nat.
Proof.
  assert (Hes : Forall (fun x : nat * edit => fst x ∈ [0; 1]%nat) [(0%nat, set_left (-1))]).
  { repeat constructor. }
  assert (Hrun : plot_span_map interval_indices 0 2 (session demo_sig) =
    (Return (1%nat, [0; 1]%nat, [2; 5]%nat, [4; 7]%nat),
     snd (plot_span_map interval_indices 0 2 (session demo_sig)))).
  { vm_compute. reflexivity. }
  split; [apply fresh_session|]. split; [reflexivity|].
  split; [exact valid_demo_sig|]. split; [lia|].
  split; [exact Hrun|]. split; [exact Hes|].
  destruct (edit_touches_one_span interval_indices (session demo_sig) 0%nat demo_sig 2
              1%nat [0; 1]%nat [2; 5]%nat [4; 7]%nat _ [(0%nat, set_left (-1))]
              1%nat 1%nat 5%nat 7%nat (set_range 2 10)
              (fresh_session demo_sig) eq_refl valid_demo_sig ltac:(lia) Hrun Hes
              eq_refl eq_refl eq_refl)
    as (w2 & w3 & Hrun2 & Hrun3 & Hsigs & _ & Hnav & Hrois & _).
  exists w2, w3. split; [exact Hrun2|]. split; [exact Hrun3|].
  split; [apply Hsigs; lia|]. split; [exact Hnav|]. apply Hrois. lia.
Defined.

Lemma edit_round_trip_witness :
  fresh_connections (session demo_sig) /\
  signals (session demo_sig) !! 0%nat = Some demo_sig /\
  valid_signal demo_sig /\
  (2 <= 3)%Z /\
  plot_span_map interval_indices 0 2 (session demo_sig) =
    (Return (1%nat, [0; 1]%nat, [2; 5]%nat, [4; 7]%nat),
     snd (plot_span_map interval_indices 0 2 (session demo_sig))) /\
  Forall (fun x => fst x ∈ [0; 1]%nat) [(0%nat, set_left (-1))] /\
  (1%nat ∈ [0; 1]%nat) /\
  exists w2 sp0 w3,
    apply_edits interval_indices [(0%nat, set_left (-1))]
      (snd (plot_span_map interval_indices 0 2 (session demo_sig))) = (Return tt, w2) /\
    rois w2 !! 1%nat = Some sp0 /\
    change_span interval_indices 1 (set_range 2 10) w2 = (Return tt, w3) /\
    rois w3 !! 1%nat = Some {| left := 2; right := 10 |} /\
    change_span interval_indices 1 (set_range (left sp0) (right sp0)) w3 = (Return tt, w2).
Proof.
  assert (Hes : Forall (fun x : nat * edit => fst x ∈ [0; 1]%nat) [(0%nat, set_left (-1))]).
  { repeat constructor. }
  assert (Hin : 1%nat ∈ [0; 1]%nat) by (repeat constructor).
  assert (Hrun : plot_span_map interval_indices 0 2 (session demo_sig) =
    (Return (1%nat, [0; 1]%nat, [2; 5]%nat, [4; 7]%nat),
     snd (plot_span_map interval_indices 0 2 (session demo_sig)))).
  { vm_compute. reflexivity. }
  split; [apply fresh_session|]. split; [reflexivity|].
  split; [exact valid_demo_sig|]. split; [lia|].
  split; [exact Hrun|]. split; [exact Hes|]. split; [exact Hin|].
  exact (edit_round_trip interval_indices (session demo_sig) 0%nat demo_sig 2
           1%nat [0; 1]%nat [2; 5]%nat [4; 7]%nat _ [(0%nat, set_left (-1))]
           1%nat (set_range 2 10)
           (fresh_session demo_sig) eq_refl valid_demo_sig ltac:(lia) Hrun Hes Hin).
Defined.

Lemma sum_image_keeps_spatial_shape_witness :
  fresh_connections (session demo_sig) /\
  signals (session demo_sig) !! 0%nat = Some demo_sig /\
  valid_signal demo_sig /\
  (2 <= 3)%Z /\
  plot_span_map interval_indices 0 2 (session demo_sig) =
    (Return (1%nat, [0; 1]%nat, [2; 5]%nat, [4; 7]%nat),
     snd (plot_span_map interval_indices 0 2 (session demo_sig))) /\
  Forall (fun x => fst x ∈ [0; 1]%nat) [(1%nat, set_range 100 200)] /\
  exists w2 image,
    apply_edits interval_indices [(1%nat, set_range 100 200)]
      (snd (plot_span_map interval_indices 0 2 (session demo_sig))) = (Return tt, w2) /\
    signals w2 !! 7%nat = Some image /\
    shape (data image) = [2; 2]%nat /\
    length (flat (data image)) = 4%nat.
Proof.
  assert (Hes : Forall (fun x : nat * edit => fst x ∈ [0; 1]%nat)
                  [(1%nat, set_range 100 200)]).
  { repeat constructor. }
  assert (Hrun : plot_span_map interval_indices 0 2 (session demo_sig) =
    (Return (1%nat, [0; 1]%nat, [2; 5]%nat, [4; 7]%nat),
     snd (plot_span_map interval_indices 0 2 (session demo_sig)))).
  { vm_compute. reflexivity. }
  split; [apply fresh_session|]. split; [reflexivity|].
  split; [exact valid_demo_sig|]. split; [lia|].
  split; [exact Hrun|]. split; [exact Hes|].
  destruct (sum_image_keeps_spatial_shape interval_indices (session demo_sig) 0%nat
              demo_sig 2 1%nat [0; 1]%nat [2; 5]%nat [4; 7]%nat _
              [(1%nat, set_range 100 200)]
              (fresh_session demo_sig) eq_refl valid_demo_sig ltac:(lia) Hrun Hes)
    as (w2 & Hrun2 & H).
  destruct (H 7%nat ltac:(repeat constructor))
    as (image & Him & _ & _ & Hshape & Hlen).
  exists w2, image. split; [exact Hrun2|]. split; [exact Him|].
  split; [exact Hshape | exact Hlen].
Defined.


(** ** The claims about the numbers, on concrete data *)

Lemma valid_input_demo_sig : valid_input demo_sig.
Proof. split; [exact valid_demo_sig | reflexivity]. Qed.

Lemma valid_input_reversed_sig : valid_input reversed_sig.
Proof. split; [exact valid_reversed_sig | reflexivity]. Qed.

Lemma valid_input_fine_sig : valid_input fine_sig.
Proof.
  split; [|reflexivity].
  split; [reflexivity|]. split; [reflexivity|].
  intros ax Hin. apply list_elem_of_In in Hin. destruct Hin as [<-|[]]. discriminate.
Qed.

Lemma span_text_other l r : span_text l r <> "Maximum number of spans allowed is 3".
Proof. unfold span_text. discriminate. Qed.

(** The conversion of an [int] fails from [2^1024 - 2^970] on, the first
    integer that rounds beyond the largest binary64 number. *)
Lemma float_of_int_limit :
  float_of_int (2 ^ 1024 - 2 ^ 970) = None /\
  float_of_int (- (2 ^ 1024 - 2 ^ 970)) = None /\
  (exists f, float_of_int (2 ^ 1024 - 2 ^ 970 - 1) = Some f /\
             float_value f = Some (inject_Z (2 ^ 1024 - 2 ^ 971))) /\
  (exists f, float_of_int (- (2 ^ 1024 - 2 ^ 970) + 1) = Some f /\
             float_value f = Some (inject_Z (- (2 ^ 1024 - 2 ^ 971)))).
Proof.
  split; [vm_compute; reflexivity|]. split; [vm_compute; reflexivity|].
  split; eexists; (split; [vm_compute; reflexivity | vm_compute; reflexivity]).
Qed.

(** C10, with every [nspans <= 0] as the specification has it: at
    [nspans = -2^1100] on a valid signal the call does not return empty
    sequences.  The division by [2 * nspans] raises [OverflowError], and
    the store is as it was: the navigator was neither computed nor
    plotted. *)
Lemma huge_negative_nspans_overflows :
  (- (2 ^ 1100) <= 0)%Z /\
  signals (session demo_sig) !! 0%nat = Some demo_sig /\
  valid_input demo_sig /\
  plot_span_map_f64 interval_indices span_text 0 (- (2 ^ 1100)) (session demo_sig) =
    (Raise OverflowError, session demo_sig).
Proof.
  split; [vm_compute; discriminate|]. split; [reflexivity|].
  split; [exact valid_input_demo_sig|].
  vm_compute. reflexivity.
Qed.

Lemma no_lower_bound_but_overflow_witness :
  (forall l r, span_text l r <> "Maximum number of spans allowed is 3") /\
  signals (session demo_sig) !! 0%nat = Some demo_sig /\
  valid_input demo_sig /\
  float64_coordinates (axis (uniform_axis [1; 2; 3; 4]%Z)) = true /\
  (-2 <= 0)%Z /\
  (- 2 ^ 52 < -2)%Z /\
  plot_span_map_f64 interval_indices span_text 0 (-2) (session demo_sig) =
    (Return (1%nat, [], [], []),
     {| signals := [demo_sig; navigator demo_sig];
        rois := [];
        figures := [Figure 1 None];
        widgets := [];
        connections := [] |}).
Proof.
  split; [exact span_text_other|]. split; [reflexivity|].
  split; [exact valid_input_demo_sig|]. split; [vm_compute; reflexivity|].
  split; [lia|]. split; [reflexivity|].
  pose proof (proj2 (no_lower_bound_but_overflow interval_indices span_text
                       (session demo_sig) 0%nat (-2) span_text_other)
                demo_sig (uniform_axis [1; 2; 3; 4]%Z) eq_refl valid_input_demo_sig
                eq_refl eq_refl ltac:(lia)) as (_ & H & _).
  apply H. reflexivity.
Defined.

(** C2, with its exact formula and its equal widths: on the increasing
    axis 1, 9/8, ..., 2 with [nspans = 3] the three spans are created, but
    span 1 is not [[min + extent / 6, min + 2 * extent / 6)], that is
    [[7/6, 4/3)], whose bounds are no binary64 numbers, and the spans are
    not of equal width: the middle one is narrower than the other two by
    one unit in the last place. *)
Lemma initial_ranges_not_of_equal_width :
  exists sp0 sp1 sp2,
    valid_input fine_sig /\
    increasing (axis fine_axis) = true /\
    fst (plot_span_map_f64 interval_indices span_text 0 3 (session fine_sig)) =
      Return (1%nat, [0; 1; 2]%nat, [2; 5; 8]%nat, [4; 7; 10]%nat) /\
    rois (snd (plot_span_map_f64 interval_indices span_text 0 3 (session fine_sig))) =
      [sp0; sp1; sp2] /\
    (spec_initial_left (axis fine_axis) 3 1 == 7 # 6)%Q /\
    left sp1 = (5254199565265579 # 4503599627370496)%Q /\
    ~ (left sp1 == spec_initial_left (axis fine_axis) 3 1)%Q /\
    (spec_initial_right (axis fine_axis) 3 1 == 4 # 3)%Q /\
    right sp1 = (6004799503160661 # 4503599627370496)%Q /\
    ~ (right sp1 == spec_initial_right (axis fine_axis) 3 1)%Q /\
    (right sp0 - left sp0 == 750599937895083 # 4503599627370496)%Q /\
    (right sp1 - left sp1 == 750599937895082 # 4503599627370496)%Q /\
    (right sp2 - left sp2 == 750599937895083 # 4503599627370496)%Q /\
    ~ (right sp0 - left sp0 == right sp1 - left sp1)%Q.
Proof.
  do 3 eexists.
  split; [exact valid_input_fine_sig|]. split; [reflexivity|].
  split; [vm_compute; reflexivity|]. split; [vm_compute; reflexivity|].
  cbn [left right].
  split; [vm_compute; reflexivity|]. split; [reflexivity|].
  split; [vm_compute; discriminate|].
  split; [vm_compute; reflexivity|]. split; [reflexivity|].
  split; [vm_compute; discriminate|].
  split; [vm_compute; reflexivity|]. split; [vm_compute; reflexivity|].
  split; [vm_compute; reflexivity|].
  vm_compute; discriminate.
Qed.

Lemma initial_ranges_in_binary64_witness :
  signals (session fine_sig) !! 0%nat = Some fine_sig /\
  valid_input fine_sig /\
  (1 <= 3 <= 3)%Z /\
  all_in_order (axis fine_axis) 3 = true /\
  fst (plot_span_map_f64 interval_indices span_text 0 3 (session fine_sig)) =
    Return (1%nat, [0; 1; 2]%nat, [2; 5; 8]%nat, [4; 7; 10]%nat) /\
  exists sp sp',
    rois (snd (plot_span_map_f64 interval_indices span_text 0 3 (session fine_sig)))
      !! 0%nat = Some sp /\
    rois (snd (plot_span_map_f64 interval_indices span_text 0 3 (session fine_sig)))
      !! 1%nat = Some sp' /\
    (left sp == 1)%Q /\
    (left sp == Qmin_list 1 [9 # 8; 5 # 4; 11 # 8; 3 # 2; 13 # 8; 7 # 4; 15 # 8; 2])%Q /\
    (left sp < right sp)%Q /\
    left sp' = right sp.
Proof.
  split; [reflexivity|]. split; [exact valid_input_fine_sig|]. split; [lia|].
  split; [vm_compute; reflexivity|].
  destruct (initial_ranges_in_binary64 interval_indices span_text (session fine_sig) 0%nat
              fine_sig fine_axis 1 [9 # 8; 5 # 4; 11 # 8; 3 # 2; 13 # 8; 7 # 4; 15 # 8; 2]%Q 3
              eq_refl valid_input_fine_sig eq_refl eq_refl ltac:(lia) eq_refl)
    as (all_sum & spans & span_sigs & span_sums & w1 & Hrun & _ & _ & H).
  rewrite Hrun. cbn [fst snd].
  pose proof (f_equal fst Hrun) as E. vm_compute in E. injection E as <- <- <- <-.
  split; [reflexivity|].
  destruct (H 0%nat 0%nat eq_refl) as (sp & Hsp & _ & _ & Hlt & H0 & Hnext & _).
  destruct (Hnext 1%nat eq_refl) as (sp' & Hsp' & Hjoin).
  destruct (H0 eq_refl) as (Hfirst & Hmin).
  exists sp, sp'.
  split; [exact Hsp|]. split; [exact Hsp'|]. split; [exact Hfirst|].
  split; [exact (Hmin eq_refl)|]. split; [exact Hlt | exact Hjoin].
Defined.

(** ** The further properties of the call in binary64, on concrete data *)

Lemma single_channel_fails_dimension_check_witness :
  signals (session single_sig) !! 0%nat = Some single_sig /\
  (2 <= 3)%Z /\
  plot_span_map_f64 interval_indices span_text 0 2 (session single_sig) =
    (Raise (ValueError
       "This method is designed for data with 1 signal and 2 navigation dimensions, not 0 and 2 respectively"),
     session single_sig).
Proof.
  split; [reflexivity|]. split; [lia|].
  exact (single_channel_fails_dimension_check interval_indices span_text
           (session single_sig) 0%nat single_sig (uniform_axis [5]%Z) 5 2
           eq_refl eq_refl eq_refl ltac:(lia)).
Defined.

Lemma created_spans_are_in_order_witness :
  fst (plot_span_map_f64 interval_indices span_text 0 3 (session fine_sig))
    <> Raise Unmodelled /\
  (length (rois (session fine_sig)) <= 1)%nat /\
  exists sp,
    rois (snd (plot_span_map_f64 interval_indices span_text 0 3 (session fine_sig)))
      !! 1%nat = Some sp /\
    (left sp < right sp)%Q.
Proof.
  assert (Hin : fst (plot_span_map_f64 interval_indices span_text 0 3 (session fine_sig))
                  <> Raise Unmodelled) by (vm_compute; discriminate).
  split; [exact Hin|]. split; [cbn; lia|].
  assert (Hsp : exists sp,
            rois (snd (plot_span_map_f64 interval_indices span_text 0 3 (session fine_sig)))
              !! 1%nat = Some sp).
  { eexists. vm_compute. reflexivity. }
  destruct Hsp as (sp & Hsp). exists sp. split; [exact Hsp|].
  exact (proj2 (created_spans_are_in_order interval_indices span_text
                  (session fine_sig) 0%nat 3 Hin) 1%nat sp ltac:(cbn; lia) Hsp).
Defined.

Lemma refused_span_stops_the_call_witness :
  signals (session reversed_sig) !! 0%nat = Some reversed_sig /\
  valid_input reversed_sig /\
  (2 <= 3)%Z /\ (Z.of_nat 0 < 2)%Z /\
  span_bound_f64 [3; 2; 1; 0]%Q 2 0 = Some 3%Q /\
  span_bound_f64 [3; 2; 1; 0]%Q 2 1 = Some (9 # 4)%Q /\
  (9 # 4 <= 3)%Q /\
  plot_span_map_f64 interval_indices span_text 0 2 (session reversed_sig) =
    (Raise (ValueError (span_text 3 (9 # 4))),
     {| signals := [reversed_sig; navigator reversed_sig];
        rois := [];
        figures := [Figure 1 None];
        widgets := [];
        connections := [] |}).
Proof.
  split; [reflexivity|]. split; [exact valid_input_reversed_sig|].
  split; [lia|]. split; [lia|].
  split; [vm_compute; reflexivity|]. split; [vm_compute; reflexivity|].
  split; [vm_compute; discriminate|].
  destruct (refused_span_stops_the_call interval_indices span_text (session reversed_sig)
              0%nat reversed_sig (uniform_axis [3; 2; 1; 0]%Z) 3 [2; 1; 0]%Q 2 0%nat
              3 (9 # 4) eq_refl valid_input_reversed_sig eq_refl eq_refl
              ltac:(lia) ltac:(lia) ltac:(intros i Hi; lia)
              ltac:(vm_compute; reflexivity) ltac:(vm_compute; reflexivity)
              ltac:(vm_compute; discriminate))
    as (sps & Hrun & Hlen & _).
  destruct sps as [|? ?]; [|discriminate Hlen].
  exact Hrun.
Defined.

Lemma returns_iff_in_order_witness :
  signals (session fine_sig) !! 0%nat = Some fine_sig /\
  valid_input fine_sig /\
  signals (session reversed_sig) !! 0%nat = Some reversed_sig /\
  valid_input reversed_sig /\
  (1 <= 3 <= 3)%Z /\ (1 <= 2 <= 3)%Z /\
  all_finite (axis fine_axis) 3 = true /\
  all_finite (axis (uniform_axis [3; 2; 1; 0]%Z)) 2 = true /\
  all_in_order (axis fine_axis) 3 = true /\
  (exists results w1,
     plot_span_map_f64 interval_indices span_text 0 3 (session fine_sig) =
       (Return results, w1)) /\
  all_in_order (axis (uniform_axis [3; 2; 1; 0]%Z)) 2 = false /\
  ~ (exists results w1,
       plot_span_map_f64 interval_indices span_text 0 2 (session reversed_sig) =
         (Return results, w1)).
Proof.
  split; [reflexivity|]. split; [exact valid_input_fine_sig|].
  split; [reflexivity|]. split; [exact valid_input_reversed_sig|].
  split; [lia|]. split; [lia|].
  split; [vm_compute; reflexivity|]. split; [vm_compute; reflexivity|].
  split; [vm_compute; reflexivity|].
  split.
  - apply (returns_iff_in_order interval_indices span_text (session fine_sig) 0%nat
             fine_sig fine_axis 3 eq_refl valid_input_fine_sig eq_refl ltac:(lia) eq_refl).
    vm_compute. reflexivity.
  - split; [vm_compute; reflexivity|].
    intros H.
    apply (returns_iff_in_order interval_indices span_text (session reversed_sig) 0%nat
             reversed_sig (uniform_axis [3; 2; 1; 0]%Z) 2 eq_refl valid_input_reversed_sig
             eq_refl ltac:(lia) eq_refl) in H.
    vm_compute in H. discriminate H.
Defined.
